(** * CryptoJS 3.x core: word arrays, cipher engine, padding, CBC, OpenSSL
      format, password-based encryption, streaming hash and HMAC.

    A shallow embedding of [core.js], [cipher-core.js] and [algo-hmac.js].
    JavaScript numbers that the code uses as integers are [Z]; the 32-bit
    conversions that the bit operators perform are written out. *)

From Stdlib Require Import ZArith List Lia Bool.
From stdpp Require Import base option list gmap strings.

Local Open Scope Z_scope.

(** ** JavaScript integer operators *)

Module JS.

(** ToUint32 and ToInt32 of an integral Number. *)
Definition toUint32 (x : Z) : Z := x mod 2 ^ 32.
Definition toInt32 (x : Z) : Z := (x + 2 ^ 31) mod 2 ^ 32 - 2 ^ 31.

(** [a & b], [a | b], [a ^ b]: both operands through ToInt32. *)
Definition and (a b : Z) : Z := Z.land (toInt32 a) (toInt32 b).
Definition or (a b : Z) : Z := Z.lor (toInt32 a) (toInt32 b).
Definition xor (a b : Z) : Z := Z.lxor (toInt32 a) (toInt32 b).

(** [a << n] and [a >>> n]: the shift count is [n & 0x1f]. *)
Definition shl (a n : Z) : Z := toInt32 (Z.shiftl (toInt32 a) (toUint32 n mod 32)).
Definition ushr (a n : Z) : Z := Z.shiftr (toUint32 a) (toUint32 n mod 32).

(** [a % b] takes the sign of the dividend ([b] is a non-zero literal at every use). *)
Definition rem (a b : Z) : Z := Z.rem a b.

(** [Math.ceil(a / 4)] and [Math.floor(a / b)] for integers, [b > 0]. *)
Definition ceil_div4 (a : Z) : Z := - ((- a) / 4).

(** Arrays of Numbers.  Reading outside the array gives [undefined], which
    every bit operator converts to 0; this is the only way the code reads words. *)
Definition get (a : list Z) (i : Z) : Z :=
  if i <? 0 then 0 else default 0 (a !! Z.to_nat i).

(** [a[i] = v] for an array index [i]: inside the array the element is
    replaced, outside the array grows (the holes read as [undefined], kept
    here as 0).  A negative [i] names a property, not an element. *)
Definition put (a : list Z) (i : Z) (v : Z) : list Z :=
  if i <? 0 then a
  else if i <? Z.of_nat (length a) then <[Z.to_nat i := v]> a
  else a ++ replicate (Z.to_nat i - length a) 0 ++ [v].

(** [a.length = n] for 0 <= n. *)
Definition set_length (a : list Z) (n : Z) : list Z :=
  take (Z.to_nat n) a ++ replicate (Z.to_nat n - length a) 0.

End JS.

Definition int32 (x : Z) : Prop := - 2 ^ 31 <= x < 2 ^ 31.
Definition is_byte (x : Z) : Prop := 0 <= x < 256.

(** ** Bit-level facts about the operators *)

Lemma toInt32_range x : int32 (JS.toInt32 x).
Proof. unfold int32, JS.toInt32. pose proof (Z.mod_pos_bound (x + 2 ^ 31) (2 ^ 32)). lia. Qed.

Lemma toInt32_small x : int32 x -> JS.toInt32 x = x.
Proof. unfold int32, JS.toInt32. intros H. rewrite Z.mod_small; lia. Qed.

Lemma toInt32_idem x : JS.toInt32 (JS.toInt32 x) = JS.toInt32 x.
Proof. apply toInt32_small, toInt32_range. Qed.

Lemma toInt32_testbit x i : 0 <= i < 32 -> Z.testbit (JS.toInt32 x) i = Z.testbit x i.
Proof.
  intros Hi. unfold JS.toInt32.
  replace ((x + 2 ^ 31) mod 2 ^ 32 - 2 ^ 31)
    with (x + 2 ^ 32 * (- ((x + 2 ^ 31) / 2 ^ 32))).
  2:{ pose proof (Z.div_mod (x + 2 ^ 31) (2 ^ 32)). lia. }
  rewrite <- (Z.mod_pow2_bits_low _ 32 i) by lia.
  rewrite Z.mul_comm, Z_mod_plus_full.
  apply Z.mod_pow2_bits_low. lia.
Qed.

Lemma toInt32_testbit_high x i : 31 <= i -> Z.testbit (JS.toInt32 x) i = Z.testbit (JS.toInt32 x) 31.
Proof.
  intros Hi. pose proof (toInt32_range x) as [Hl Hu]. set (y := JS.toInt32 x) in *.
  destruct (Z_lt_le_dec y 0).
  - rewrite !Z.bits_above_log2_neg; try lia.
    all: destruct (Z.eq_dec y (-1)) as [->|]; [simpl; lia|].
    all: assert (Z.log2 (Z.pred (- y)) < 31) by (apply Z.log2_lt_pow2; lia); lia.
  - destruct (Z.eq_dec y 0) as [->|]; [by rewrite !Z.testbit_0_l|].
    rewrite !Z.bits_above_log2; try lia.
    all: assert (Z.log2 y < 31) by (apply Z.log2_lt_pow2; lia); lia.
Qed.

Lemma toUint32_testbit x i : 0 <= i -> Z.testbit (JS.toUint32 x) i = if i <? 32 then Z.testbit x i else false.
Proof.
  intros Hi. unfold JS.toUint32. destruct (Z.ltb_spec i 32).
  - apply Z.mod_pow2_bits_low; lia.
  - apply Z.mod_pow2_bits_high; lia.
Qed.

Lemma and_testbit a b i : 0 <= i < 32 -> Z.testbit (JS.and a b) i = Z.testbit a i && Z.testbit b i.
Proof. intros. unfold JS.and. by rewrite Z.land_spec, !toInt32_testbit. Qed.

Lemma or_testbit a b i : 0 <= i < 32 -> Z.testbit (JS.or a b) i = Z.testbit a i || Z.testbit b i.
Proof. intros. unfold JS.or. by rewrite Z.lor_spec, !toInt32_testbit. Qed.

Lemma xor_testbit a b i : 0 <= i < 32 -> Z.testbit (JS.xor a b) i = xorb (Z.testbit a i) (Z.testbit b i).
Proof. intros. unfold JS.xor. by rewrite Z.lxor_spec, !toInt32_testbit. Qed.

Lemma shift_count s : 0 <= s < 32 -> JS.toUint32 s mod 32 = s.
Proof. intros. unfold JS.toUint32. rewrite (Z.mod_small s (2 ^ 32)), Z.mod_small; lia. Qed.

Lemma shl_testbit a s i :
  0 <= s < 32 -> 0 <= i < 32 ->
  Z.testbit (JS.shl a s) i = if i <? s then false else Z.testbit a (i - s).
Proof.
  intros Hs Hi. unfold JS.shl. rewrite shift_count by done.
  rewrite toInt32_testbit, Z.shiftl_spec by lia.
  destruct (Z.ltb_spec i s).
  - apply Z.testbit_neg_r. lia.
  - apply toInt32_testbit. lia.
Qed.

Lemma ushr_testbit a s i :
  0 <= s < 32 -> 0 <= i ->
  Z.testbit (JS.ushr a s) i = if i + s <? 32 then Z.testbit a (i + s) else false.
Proof.
  intros Hs Hi. unfold JS.ushr. rewrite shift_count by done.
  rewrite Z.shiftr_spec, toUint32_testbit by lia. done.
Qed.

Lemma int32_bits x : int32 x <-> (forall i, 31 <= i -> Z.testbit x i = Z.testbit x 31).
Proof.
  split.
  - intros H i Hi. rewrite <- (toInt32_small x) by done. by apply toInt32_testbit_high.
  - intros H. unfold int32.
    destruct (Z_lt_le_dec x 0) as [Hn|Hp].
    + split; [|lia]. destruct (Z_lt_le_dec x (- 2 ^ 31)) as [Hlt|]; [|lia]. exfalso.
      assert (Hs : Z.testbit x 31 = true).
      { rewrite <- (H (Z.max 31 (Z.succ (Z.log2 (Z.pred (- x)))))) by lia.
        apply Z.bits_above_log2_neg; lia. }
      assert (Hl : 31 <= Z.log2 (Z.pred (- x))) by (apply Z.log2_le_pow2; lia).
      pose proof (Z.bit_log2_neg x ltac:(lia)) as Hb.
      rewrite H in Hb by lia. congruence.
    + split; [lia|]. destruct (Z_lt_le_dec x (2 ^ 31)) as [|Hge]; [lia|]. exfalso.
      assert (Hs : Z.testbit x 31 = false).
      { rewrite <- (H (Z.max 31 (Z.succ (Z.log2 x)))) by lia.
        apply Z.bits_above_log2; lia. }
      assert (Hl : 31 <= Z.log2 x) by (apply Z.log2_le_pow2; lia).
      pose proof (Z.bit_log2 x ltac:(lia)) as Hb.
      rewrite H in Hb by lia. congruence.
Qed.

(** The byte read that [concat] and the encoders share:
    [(w >>> (24 - k * 8)) & 0xff], byte [k] of a big-endian word. *)
Definition lane (w k : Z) : Z := JS.and (JS.ushr w (24 - k * 8)) 255.

Lemma testbit_255 j : 0 <= j -> Z.testbit 255 j = (j <? 8).
Proof. intros. change 255 with (Z.ones 8). apply Z.testbit_ones_nonneg; lia. Qed.

Lemma lane_testbit w k j :
  0 <= k <= 3 -> 0 <= j ->
  Z.testbit (lane w k) j = (j <? 8) && Z.testbit w (j + (24 - k * 8)).
Proof.
  intros Hk Hj. unfold lane, JS.and. change (JS.toInt32 255) with 255.
  rewrite Z.land_spec, testbit_255 by done.
  destruct (Z.ltb_spec j 8); [|by rewrite andb_false_r].
  rewrite toInt32_testbit, ushr_testbit by lia.
  destruct (Z.ltb_spec (j + (24 - k * 8)) 32); [|lia]. by rewrite andb_true_r.
Qed.

Lemma lane_byte w k : 0 <= k <= 3 -> is_byte (lane w k).
Proof.
  intros Hk. unfold lane, JS.and. change (JS.toInt32 255) with 255.
  change 255 with (Z.ones 8). rewrite Z.land_ones by lia.
  unfold is_byte. change 256 with (2 ^ 8). apply Z.mod_pos_bound. lia.
Qed.

Lemma byte_testbit_high b m : is_byte b -> 8 <= m -> Z.testbit b m = false.
Proof.
  intros [H0 H1] Hm. destruct (Z.eq_dec b 0) as [->|]; [apply Z.testbit_0_l|].
  apply Z.bits_above_log2; [lia|].
  assert (Z.log2 b < 8) by (apply Z.log2_lt_pow2; lia). lia.
Qed.

Lemma lane_toInt32 w k : 0 <= k <= 3 -> lane (JS.toInt32 w) k = lane w k.
Proof.
  intros Hk. apply Z.bits_inj'; intros j Hj. rewrite !lane_testbit by done.
  destruct (Z.ltb_spec j 8); [|done]. by rewrite toInt32_testbit by lia.
Qed.

Lemma lane_xor a b k : 0 <= k <= 3 -> lane (JS.xor a b) k = Z.lxor (lane a k) (lane b k).
Proof.
  intros Hk. apply Z.bits_inj'; intros j Hj.
  rewrite Z.lxor_spec, !lane_testbit by done.
  destruct (Z.ltb_spec j 8); [|done]. by rewrite xor_testbit by lia.
Qed.

(** OR-ing a byte into lane [k] sets that lane and leaves the others. *)
Lemma lane_or_shl w b k k' :
  0 <= k <= 3 -> 0 <= k' <= 3 -> is_byte b ->
  lane (JS.or w (JS.shl b (24 - k * 8))) k' =
  if decide (k' = k) then Z.lor (lane w k) b else lane w k'.
Proof.
  intros Hk Hk' Hb. apply Z.bits_inj'; intros j Hj.
  rewrite lane_testbit by done.
  destruct (Z.ltb_spec j 8).
  2:{ simpl. symmetry. case_decide.
      - rewrite Z.lor_spec, lane_testbit by lia.
        destruct (Z.ltb_spec j 8); [lia|]. simpl. by apply byte_testbit_high.
      - rewrite lane_testbit by lia. destruct (Z.ltb_spec j 8); [lia|]. done. }
  simpl. rewrite or_testbit, shl_testbit by lia.
  case_decide as Hkk.
  - subst k'. rewrite Z.lor_spec, lane_testbit by lia.
    destruct (Z.ltb_spec j 8); [|lia]. simpl.
    destruct (Z.ltb_spec (j + (24 - k * 8)) (24 - k * 8)); [lia|].
    do 2 f_equal. lia.
  - rewrite lane_testbit by lia. destruct (Z.ltb_spec j 8); [|lia]. simpl.
    destruct (Z.ltb_spec (j + (24 - k' * 8)) (24 - k * 8)); [by rewrite orb_false_r|].
    rewrite (byte_testbit_high b) by (done || lia). by rewrite orb_false_r.
Qed.

(** [0xffffffff << (32 - r * 8)], the mask that [clamp] applies: for
    [r = 0] the shift count 32 wraps to 0 and the mask keeps every bit. *)
Definition clamp_mask (r : Z) : Z := JS.shl 4294967295 (32 - r * 8).

Lemma clamp_mask_testbit r i :
  0 <= r <= 3 -> 0 <= i < 32 ->
  Z.testbit (clamp_mask r) i = if decide (r = 0) then true else (32 - r * 8 <=? i).
Proof.
  intros Hr Hi. unfold clamp_mask. case_decide as H0.
  - subst r. by vm_compute; destruct i as [|p|p]; try lia;
      do 5 (destruct p as [p|p|]; try lia; try done).
  - rewrite shl_testbit by lia.
    destruct (Z.ltb_spec i (32 - r * 8)).
    + symmetry. apply Z.leb_gt. lia.
    + change 4294967295 with (Z.ones 32). rewrite Z.testbit_ones_nonneg by lia.
      destruct (Z.leb_spec (32 - r * 8) i); [|lia]. apply Z.ltb_lt. lia.
Qed.

Lemma lane_and_mask w r k :
  0 <= r <= 3 -> 0 <= k <= 3 ->
  lane (JS.and w (clamp_mask r)) k = if decide (r = 0 \/ k < r) then lane w k else 0.
Proof.
  intros Hr Hk. apply Z.bits_inj'; intros j Hj. rewrite lane_testbit by done.
  destruct (Z.ltb_spec j 8).
  2:{ simpl. case_decide; [|by rewrite Z.testbit_0_l].
      rewrite lane_testbit by done. by destruct (Z.ltb_spec j 8); [lia|]. }
  simpl. rewrite and_testbit, clamp_mask_testbit by lia.
  destruct (decide (r = 0 \/ k < r)) as [Hd|Hd].
  - rewrite lane_testbit by done. destruct (Z.ltb_spec j 8); [|lia]. simpl.
    case_decide; [by rewrite andb_true_r|].
    destruct (Z.leb_spec (32 - r * 8) (j + (24 - k * 8))); [by rewrite andb_true_r|lia].
  - rewrite Z.testbit_0_l. case_decide; [lia|].
    destruct (Z.leb_spec (32 - r * 8) (j + (24 - k * 8))); [lia|by rewrite andb_false_r].
Qed.

Lemma toInt32_ext a b :
  (forall i, 0 <= i < 32 -> Z.testbit a i = Z.testbit b i) -> JS.toInt32 a = JS.toInt32 b.
Proof.
  intros H. assert (Hm : a mod 2 ^ 32 = b mod 2 ^ 32).
  { apply Z.bits_inj'; intros i Hi. destruct (Z_lt_le_dec i 32).
    - rewrite !Z.mod_pow2_bits_low by lia. apply H. lia.
    - by rewrite !Z.mod_pow2_bits_high by lia. }
  unfold JS.toInt32. rewrite <- (Zplus_mod_idemp_l a), <- (Zplus_mod_idemp_l b). by rewrite Hm.
Qed.

(** A 32-bit word is determined by its four lanes. *)
Lemma lanes_inj a b :
  (forall k, 0 <= k <= 3 -> lane a k = lane b k) -> JS.toInt32 a = JS.toInt32 b.
Proof.
  intros H. apply toInt32_ext. intros i Hi.
  pose proof (Z.div_mod i 8 ltac:(lia)) as Hdm.
  pose proof (Z.mod_pos_bound i 8 ltac:(lia)) as Hmb.
  assert (Hq : 0 <= i / 8 <= 3) by (split; [apply Z.div_pos; lia | apply Z.lt_succ_r, Z.div_lt_upper_bound; lia]).
  pose proof (lane_testbit a (3 - i / 8) (i mod 8) ltac:(lia) ltac:(lia)) as Ha.
  pose proof (lane_testbit b (3 - i / 8) (i mod 8) ltac:(lia) ltac:(lia)) as Hb.
  rewrite H in Ha by lia. rewrite Ha in Hb.
  destruct (Z.ltb_spec (i mod 8) 8); [|lia]. simpl in Hb.
  replace (i mod 8 + (24 - (3 - i / 8) * 8)) with i in Hb by lia. done.
Qed.

Lemma lanes_inj_int32 a b :
  int32 a -> int32 b -> (forall k, 0 <= k <= 3 -> lane a k = lane b k) -> a = b.
Proof. intros Ha Hb H. rewrite <- (toInt32_small a), <- (toInt32_small b) by done. by apply lanes_inj. Qed.

Lemma int32_bitop (f : Z -> Z -> Z) (g : bool -> bool -> bool) x y :
  (forall a b i, Z.testbit (f a b) i = g (Z.testbit a i) (Z.testbit b i)) ->
  int32 x -> int32 y -> int32 (f x y).
Proof.
  intros Hf Hx Hy. apply int32_bits. intros i Hi. rewrite !Hf.
  by rewrite (proj1 (int32_bits x) Hx i), (proj1 (int32_bits y) Hy i).
Qed.

Lemma and_int32 a b : int32 (JS.and a b).
Proof. apply (int32_bitop Z.land andb); auto using Z.land_spec, toInt32_range. Qed.

Lemma or_int32 a b : int32 (JS.or a b).
Proof. apply (int32_bitop Z.lor orb); auto using Z.lor_spec, toInt32_range. Qed.

Lemma xor_int32 a b : int32 (JS.xor a b).
Proof. apply (int32_bitop Z.lxor xorb); auto using Z.lxor_spec, toInt32_range. Qed.

Lemma xor_xor a c : JS.xor (JS.xor a c) c = JS.toInt32 a.
Proof.
  unfold JS.xor at 1. rewrite (toInt32_small (JS.xor a c)) by apply xor_int32.
  unfold JS.xor. rewrite Z.lxor_assoc, Z.lxor_nilpotent. apply Z.lxor_0_r.
Qed.

Lemma lane_0 k : 0 <= k <= 3 -> lane 0 k = 0.
Proof. intros. apply Z.bits_inj'; intros j Hj. rewrite lane_testbit by done. by rewrite !Z.testbit_0_l, andb_false_r. Qed.

(** ** Array reads and writes *)

Lemma ushr2 s : 0 <= s < 2 ^ 32 -> JS.ushr s 2 = s / 4.
Proof.
  intros Hs. unfold JS.ushr, JS.toUint32. rewrite (Z.mod_small s) by done.
  change (2 mod 2 ^ 32 mod 32) with 2. by rewrite Z.shiftr_div_pow2.
Qed.

Lemma rem4 s : 0 <= s -> JS.rem s 4 = s mod 4.
Proof. intros. unfold JS.rem. apply Z.rem_mod_nonneg; lia. Qed.

Lemma get_put a i v j :
  0 <= i -> 0 <= j -> JS.get (JS.put a i v) j = if decide (j = i) then v else JS.get a j.
Proof.
  intros Hi Hj. unfold JS.get, JS.put.
  destruct (Z.ltb_spec i 0), (Z.ltb_spec j 0); try lia.
  destruct (Z.ltb_spec i (Z.of_nat (length a))).
  - case_decide as Hji.
    + subst. rewrite list_lookup_insert_eq by lia. done.
    + rewrite list_lookup_insert_ne by lia. done.
  - case_decide as Hji.
    + subst. rewrite lookup_app_r by lia. rewrite lookup_app_r by (rewrite length_replicate; lia).
      rewrite length_replicate. by replace (Z.to_nat i - length a - (Z.to_nat i - length a))%nat with 0%nat by lia.
    + destruct (decide (Z.to_nat j < length a)%nat).
      * by rewrite lookup_app_l by lia.
      * rewrite lookup_app_r by lia. rewrite (lookup_ge_None_2 a) by lia. simpl.
        destruct (decide (Z.to_nat j - length a < Z.to_nat i - length a)%nat).
        -- rewrite lookup_app_l by (rewrite length_replicate; lia).
           rewrite lookup_replicate_2 by lia. done.
        -- rewrite lookup_app_r by (rewrite length_replicate; lia).
           rewrite length_replicate. rewrite lookup_ge_None_2; [done|]. simpl. lia.
Qed.

Lemma length_put a i v :
  0 <= i -> Z.of_nat (length (JS.put a i v)) = Z.max (Z.of_nat (length a)) (i + 1).
Proof.
  intros Hi. unfold JS.put. destruct (Z.ltb_spec i 0); [lia|].
  destruct (Z.ltb_spec i (Z.of_nat (length a))).
  - rewrite length_insert. lia.
  - rewrite !length_app, length_replicate. simpl. lia.
Qed.

Lemma get_set_length a n j :
  0 <= j -> JS.get (JS.set_length a n) j = if j <? n then JS.get a j else 0.
Proof.
  intros Hj. unfold JS.get, JS.set_length. destruct (Z.ltb_spec j 0); [lia|].
  destruct (Z.ltb_spec j n).
  - destruct (decide (Z.to_nat j < length a)%nat).
    + rewrite lookup_app_l by (rewrite length_take; lia). by rewrite lookup_take_lt by lia.
    + rewrite lookup_app_r by (rewrite length_take; lia).
      rewrite (lookup_ge_None_2 a) by lia. rewrite lookup_replicate_2; [done|].
      rewrite length_take. lia.
  - rewrite lookup_ge_None_2; [done|]. rewrite length_app, length_take, length_replicate. lia.
Qed.

Lemma length_set_length a n : 0 <= n -> Z.of_nat (length (JS.set_length a n)) = n.
Proof. intros. unfold JS.set_length. rewrite length_app, length_take, length_replicate. lia. Qed.

Lemma get_ge a i : Z.of_nat (length a) <= i -> JS.get a i = 0.
Proof.
  intros. unfold JS.get. destruct (Z.ltb_spec i 0); [done|].
  by rewrite lookup_ge_None_2 by lia.
Qed.

Lemma list_eq_get (a b : list Z) :
  length a = length b ->
  (forall i, 0 <= i < Z.of_nat (length a) -> JS.get a i = JS.get b i) -> a = b.
Proof.
  intros Hl H. apply list_eq. intros n.
  destruct (decide (n < length a)%nat) as [Hn|Hn].
  - specialize (H (Z.of_nat n) ltac:(lia)). unfold JS.get in H.
    destruct (Z.ltb_spec (Z.of_nat n) 0); [lia|]. rewrite Nat2Z.id in H.
    destruct (lookup_lt_is_Some_2 a n Hn) as [x Hx].
    destruct (lookup_lt_is_Some_2 b n ltac:(lia)) as [y Hy].
    rewrite Hx, Hy in *. simpl in H. by subst.
  - by rewrite !lookup_ge_None_2 by lia.
Qed.

(** ** Outcomes of running a piece of the library *)

Inductive js_error : Type := RangeError | TypeError | ReferenceError.

(** A call returns a value, throws, never returns, or leaves the integers
    (a length that becomes [NaN] or a fraction; the model stops there). *)
Inductive outcome (A : Type) : Type :=
  | Ok (a : A)
  | Throw (e : js_error)
  | Diverge
  | NonIntegral.
Arguments Ok {A} a.
Arguments Throw {A} e.
Arguments Diverge {A}.
Arguments NonIntegral {A}.

Definition outcome_bind {A B} (f : A -> outcome B) (m : outcome A) : outcome B :=
  match m with
  | Ok a => f a
  | Throw e => Throw e
  | Diverge => Diverge
  | NonIntegral => NonIntegral
  end.

#[global] Instance outcome_ret : MRet outcome := fun A a => Ok a.
#[global] Instance outcome_mbind : MBind outcome := fun A B f m => outcome_bind f m.

(** ** core.js: WordArray *)

Record WordArray : Type := mkWordArray { words : list Z; sigBytes : Z }.

(** [WordArray.init(words, sigBytes)], both arguments optional. *)
Definition WordArray_create (ws : option (list Z)) (sb : option Z) : WordArray :=
  let w := default [] ws in
  {| words := w; sigBytes := default (Z.of_nat (length w) * 4) sb |}.

(** [(words[i >>> 2] >>> (24 - (i % 4) * 8)) & 0xff] *)
Definition byteAt (ws : list Z) (i : Z) : Z :=
  lane (JS.get ws (JS.ushr i 2)) (JS.rem i 4).

(** The significant bytes, in the order in which [concat] and the encoders
    read them ([for (i = 0; i < sigBytes; i++)]). *)
Definition sig_bytes (w : WordArray) : list Z :=
  byteAt (words w) <$> seqZ 0 (sigBytes w).

(** [WordArray.clamp]: [words.length = n] throws a RangeError unless
    [0 <= n < 2^32]. *)
Definition clamp (w : WordArray) : outcome WordArray :=
  let i := JS.ushr (sigBytes w) 2 in
  let ws := JS.put (words w) i
              (JS.and (JS.get (words w) i) (clamp_mask (JS.rem (sigBytes w) 4))) in
  let n := JS.ceil_div4 (sigBytes w) in
  if (n <? 0) || (2 ^ 32 <=? n) then Throw RangeError
  else Ok {| words := JS.set_length ws n; sigBytes := sigBytes w |}.

(** One turn of the loop of [concat]:
    [thisWords[thisSigBytes >>> 2] |= thatByte << (24 - (thisSigBytes % 4) * 8); thisSigBytes++]. *)
Definition push_byte (st : list Z * Z) (thatByte : Z) : list Z * Z :=
  let '(thisWords, thisSigBytes) := st in
  let i := JS.ushr thisSigBytes 2 in
  (JS.put thisWords i
     (JS.or (JS.get thisWords i) (JS.shl thatByte (24 - JS.rem thisSigBytes 4 * 8))),
   thisSigBytes + 1).

(** [this.concat(wordArray)], as the new state of [this].  The argument is
    read while [this] is written; the two are different arrays at every call
    in the library. *)
Definition concat (this that : WordArray) : outcome WordArray :=
  this' ← clamp this;
  let '(ws, s) := fold_left push_byte (sig_bytes that) (words this', sigBytes this) in
  Ok {| words := ws; sigBytes := s |}.

(** [WordArray.clone], on values: the word list is copied ([slice(0)]). *)
Definition clone_value (w : WordArray) : WordArray :=
  {| words := words w; sigBytes := sigBytes w |}.

Example concat_unaligned :
  concat (mkWordArray [0x12345678; 0x9abcdef0] 5) (mkWordArray [0x01020304] 3)
  = Ok (mkWordArray [0x12345678; -1711209981] 8).
Proof. reflexivity. Qed.

(** ** The state that [clamp] establishes and [concat] keeps *)

(** No excess words, and no excess bits in the last word. *)
Definition clamped (ws : list Z) (s : Z) : Prop :=
  0 <= s /\ Z.of_nat (length ws) = JS.ceil_div4 s /\
  (s mod 4 <> 0 ->
   int32 (JS.get ws (s / 4)) /\ forall k, s mod 4 <= k <= 3 -> lane (JS.get ws (s / 4)) k = 0).

Definition bytes_of (ws : list Z) (s : Z) : list Z := byteAt ws <$> seqZ 0 s.

Ltac zdm := unfold JS.ceil_div4 in *; Z.div_mod_to_equations; lia.

Lemma byteAt_split ws i : 0 <= i < 2 ^ 32 -> byteAt ws i = lane (JS.get ws (i / 4)) (i mod 4).
Proof. intros. unfold byteAt. by rewrite ushr2, rem4 by lia. Qed.

Lemma byteAt_byte ws i : 0 <= i < 2 ^ 32 -> is_byte (byteAt ws i).
Proof. intros. rewrite byteAt_split by done. apply lane_byte. zdm. Qed.

Lemma bytes_of_bytes ws s : s <= 2 ^ 32 -> Forall is_byte (bytes_of ws s).
Proof.
  intros. unfold bytes_of. apply Forall_fmap, Forall_seqZ. intros i Hi. simpl.
  apply byteAt_byte. lia.
Qed.

Lemma length_bytes_of ws s : length (bytes_of ws s) = Z.to_nat s.
Proof. unfold bytes_of. by rewrite length_fmap, length_seqZ. Qed.

Lemma bytes_of_ext ws ws' s :
  (forall i, 0 <= i < s -> byteAt ws i = byteAt ws' i) -> bytes_of ws s = bytes_of ws' s.
Proof.
  intros H. unfold bytes_of. apply list_eq. intros n. rewrite !list_lookup_fmap.
  destruct (seqZ 0 s !! n) as [i|] eqn:E; [|done]. simpl.
  apply lookup_seqZ in E as [-> ?]. f_equal. apply H. lia.
Qed.

Lemma bytes_of_snoc ws s : 0 <= s -> bytes_of ws (s + 1) = bytes_of ws s ++ [byteAt ws s].
Proof.
  intros. unfold bytes_of. rewrite seqZ_app by lia. rewrite fmap_app. f_equal.
Qed.

Lemma push_byte_spec ws s b :
  clamped ws s -> s < 2 ^ 32 -> is_byte b ->
  let ws' := (push_byte (ws, s) b).1 in
  (push_byte (ws, s) b).2 = s + 1 /\
  clamped ws' (s + 1) /\
  (forall j, 0 <= j < s / 4 -> JS.get ws' j = JS.get ws j) /\
  (forall i, 0 <= i < s -> byteAt ws' i = byteAt ws i) /\
  byteAt ws' s = b.
Proof.
  intros (Hs & Hlen & Hlast) Hlt Hb. simpl. rewrite ushr2, rem4 by lia.
  set (w' := JS.or _ _).
  assert (Hr : 0 <= s mod 4 <= 3) by zdm.
  assert (Hq : 0 <= s / 4) by zdm.
  assert (Hold : forall k, s mod 4 <= k <= 3 -> lane (JS.get ws (s / 4)) k = 0).
  { intros k Hk. destruct (decide (s mod 4 = 0)) as [H0|H0].
    - rewrite get_ge by zdm. apply lane_0. lia.
    - by apply Hlast. }
  assert (Hlane : forall k, 0 <= k <= 3 ->
            lane w' k = if decide (k = s mod 4) then b else lane (JS.get ws (s / 4)) k).
  { intros k Hk. unfold w'. rewrite lane_or_shl by done. case_decide; [|done].
    rewrite Hold by lia. apply Z.lor_0_l. }
  assert (Hget : forall j, 0 <= j -> JS.get (JS.put ws (s / 4) w') j
                                 = if decide (j = s / 4) then w' else JS.get ws j).
  { intros. by apply get_put. }
  split; [done|]. split; [|split; [|split]].
  - split; [lia|]. split.
    + rewrite length_put by done. zdm.
    + intros Hne. replace ((s + 1) / 4) with (s / 4) by zdm.
      rewrite Hget by done. rewrite decide_True by done. split; [apply or_int32|].
      intros k Hk. rewrite Hlane by zdm. rewrite decide_False by zdm.
      apply Hold. zdm.
  - intros j Hj. rewrite Hget by lia. by rewrite decide_False by lia.
  - intros i Hi. rewrite !byteAt_split by lia. rewrite Hget by zdm.
    case_decide as Hji; [|done]. rewrite Hji. rewrite Hlane by zdm.
    by rewrite decide_False by zdm.
  - rewrite byteAt_split by lia. rewrite Hget by done. rewrite decide_True by done.
    rewrite Hlane by done. by rewrite decide_True.
Qed.

Lemma fold_push_spec bs : forall ws s,
  clamped ws s -> s + Z.of_nat (length bs) <= 2 ^ 32 -> Forall is_byte bs ->
  let r := fold_left push_byte bs (ws, s) in
  r.2 = s + Z.of_nat (length bs) /\
  clamped r.1 r.2 /\
  (forall j, 0 <= j < s / 4 -> JS.get r.1 j = JS.get ws j) /\
  bytes_of r.1 r.2 = bytes_of ws s ++ bs.
Proof.
  induction bs as [|b bs IH]; intros ws s Hc Hlen Hbs; cbn [fold_left length] in *.
  - simpl. split; [lia|]. split; [done|]. split; [done|]. by rewrite app_nil_r.
  - inversion Hbs as [|? ? Hb Hbs']; subst. rewrite Nat2Z.inj_succ in *.
    destruct (push_byte_spec ws s b Hc ltac:(lia) Hb) as (E2 & Hc' & Hpre & Hold & Hnew).
    destruct (push_byte (ws, s) b) as [ws1 s1] eqn:E. cbn [fst snd] in *. subst s1.
    destruct (IH ws1 (s + 1) Hc' ltac:(lia) Hbs') as (F2 & Fc & Fpre & Fbytes).
    cbv zeta. split; [lia|]. split; [done|]. split.
    + intros j Hj. rewrite Fpre by zdm. by apply Hpre.
    + rewrite Fbytes. rewrite bytes_of_snoc by (destruct Hc; lia).
      rewrite <- app_assoc. simpl. rewrite Hnew. f_equal. by apply bytes_of_ext.
Qed.

Lemma clamp_spec w :
  0 <= sigBytes w < 2 ^ 32 ->
  exists ws', clamp w = Ok (mkWordArray ws' (sigBytes w)) /\
    clamped ws' (sigBytes w) /\
    (forall j, 0 <= j < sigBytes w / 4 -> JS.get ws' j = JS.get (words w) j) /\
    bytes_of ws' (sigBytes w) = bytes_of (words w) (sigBytes w).
Proof.
  destruct w as [ws s]. simpl. intros Hs. unfold clamp. simpl.
  rewrite ushr2, rem4 by lia.
  assert (Hn : 0 <= JS.ceil_div4 s < 2 ^ 32) by zdm.
  destruct (Z.ltb_spec (JS.ceil_div4 s) 0); [lia|].
  destruct (Z.leb_spec (2 ^ 32) (JS.ceil_div4 s)); [lia|]. simpl.
  eexists. split; [done|].
  assert (Hr : 0 <= s mod 4 <= 3) by zdm.
  assert (Hq : 0 <= s / 4) by zdm.
  set (v := JS.and _ _).
  assert (Hget : forall j, 0 <= j ->
    JS.get (JS.set_length (JS.put ws (s / 4) v) (JS.ceil_div4 s)) j =
    if j <? JS.ceil_div4 s then (if decide (j = s / 4) then v else JS.get ws j) else 0).
  { intros j Hj. rewrite get_set_length by done. destruct (_ <? _); [|done]. by apply get_put. }
  split; [|split].
  - split; [lia|]. split; [by apply length_set_length|].
    intros Hne. rewrite Hget by done.
    destruct (Z.ltb_spec (s / 4) (JS.ceil_div4 s)); [|zdm]. rewrite decide_True by done.
    split; [apply and_int32|]. intros k Hk. unfold v. rewrite lane_and_mask by lia.
    apply decide_False. lia.
  - intros j Hj. rewrite Hget by lia.
    destruct (Z.ltb_spec j (JS.ceil_div4 s)); [|zdm]. apply decide_False. lia.
  - apply bytes_of_ext. intros i Hi. rewrite !byteAt_split by lia. rewrite Hget by zdm.
    destruct (Z.ltb_spec (i / 4) (JS.ceil_div4 s)); [|zdm].
    case_decide as Hi4; [|done]. rewrite Hi4. unfold v. rewrite lane_and_mask by zdm.
    apply decide_True. zdm.
Qed.

Lemma clamp_id ws s : clamped ws s -> s < 2 ^ 32 -> clamp (mkWordArray ws s) = Ok (mkWordArray ws s).
Proof.
  intros (Hs & Hlen & Hlast) Hlt. unfold clamp. simpl. rewrite ushr2, rem4 by lia.
  assert (Hn : 0 <= JS.ceil_div4 s < 2 ^ 32) by zdm.
  destruct (Z.ltb_spec (JS.ceil_div4 s) 0); [lia|].
  destruct (Z.leb_spec (2 ^ 32) (JS.ceil_div4 s)); [lia|]. simpl. do 2 f_equal.
  assert (Hr : 0 <= s mod 4 <= 3) by zdm.
  assert (Hq : 0 <= s / 4) by zdm.
  apply list_eq_get.
  - apply Nat2Z.inj. rewrite length_set_length by lia. lia.
  - intros j. rewrite length_set_length by lia. intros Hj.
    rewrite get_set_length by lia. destruct (Z.ltb_spec j (JS.ceil_div4 s)); [|lia].
    rewrite get_put by lia. case_decide as Hjq; [|done]. subst j.
    destruct (decide (s mod 4 = 0)) as [Hz0|Hz0]; [zdm|].
    destruct (Hlast Hz0) as [Hi Hz].
    apply lanes_inj_int32; [apply and_int32|done|].
    intros k Hk. rewrite lane_and_mask by done. case_decide; [done|].
    symmetry. apply Hz. lia.
Qed.

Lemma clamped_nil : clamped [] 0.
Proof. split; [done|]. split; [done|]. intros H. by contradict H. Qed.

Lemma length_sig_bytes w : Z.of_nat (length (sig_bytes w)) = Z.max 0 (sigBytes w).
Proof. unfold sig_bytes. rewrite length_fmap, length_seqZ. lia. Qed.

Lemma sig_bytes_bytes w : sigBytes w <= 2 ^ 32 -> Forall is_byte (sig_bytes w).
Proof. apply bytes_of_bytes. Qed.

Lemma concat_spec this that :
  0 <= sigBytes this -> sigBytes this + Z.max 0 (sigBytes that) < 2 ^ 32 ->
  exists r, concat this that = Ok r /\
    sigBytes r = sigBytes this + Z.max 0 (sigBytes that) /\
    clamped (words r) (sigBytes r) /\
    (forall j, 0 <= j < sigBytes this / 4 -> JS.get (words r) j = JS.get (words this) j) /\
    sig_bytes r = sig_bytes this ++ sig_bytes that.
Proof.
  intros Hs Hsum. unfold concat.
  destruct (clamp_spec this ltac:(lia)) as (ws' & -> & Hc & Hpre & Hb). simpl.
  pose proof (fold_push_spec (sig_bytes that) ws' (sigBytes this) Hc) as H.
  rewrite length_sig_bytes in H.
  specialize (H ltac:(lia) ltac:(apply sig_bytes_bytes; lia)).
  destruct (fold_left push_byte _ _) as [ws s]. simpl in H.
  destruct H as (-> & Hc' & Hpre' & Hb').
  eexists. split; [done|]. simpl.
  split; [done|]. split; [done|]. split.
  - intros j Hj. rewrite Hpre' by done. by apply Hpre.
  - unfold sig_bytes at 1 2. simpl. fold (bytes_of ws (sigBytes this + Z.max 0 (sigBytes that))).
    fold (bytes_of (words this) (sigBytes this)). by rewrite Hb', Hb.
Qed.

Lemma concat_clamped this that :
  clamped (words this) (sigBytes this) -> sigBytes this < 2 ^ 32 ->
  concat this that =
  Ok (let r := fold_left push_byte (sig_bytes that) (words this, sigBytes this) in
      mkWordArray r.1 r.2).
Proof.
  intros Hc Hlt. unfold concat. destruct this as [ws s]. simpl in *.
  rewrite clamp_id by done. simpl. by destruct (fold_left _ _ _).
Qed.

Lemma lookup_bytes_of ws s i :
  0 <= i < s -> bytes_of ws s !! Z.to_nat i = Some (byteAt ws i).
Proof.
  intros Hi. unfold bytes_of. rewrite list_lookup_fmap, lookup_seqZ_lt by lia.
  simpl. do 2 f_equal. lia.
Qed.

Lemma bytes_of_take ws s s' :
  0 <= s <= s' -> bytes_of ws s = take (Z.to_nat s) (bytes_of ws s').
Proof.
  intros H. unfold bytes_of. replace s' with (s + (s' - s)) by lia.
  rewrite seqZ_app, fmap_app by lia.
  rewrite take_app_length'; [done|]. by rewrite length_fmap, length_seqZ.
Qed.

Lemma and_255_lane w : JS.and w 255 = lane w 3.
Proof.
  unfold lane. change (24 - 3 * 8) with 0. unfold JS.and. f_equal.
  apply toInt32_ext. intros i Hi. by rewrite ushr_testbit, Z.add_0_r by lia; destruct (Z.ltb_spec i 32); [|lia].
Qed.

(** ** cipher-core.js: PKCS #5/7 padding *)

Module PKCS5.

(** [(blockSizeBytes - data.sigBytes % blockSizeBytes) || blockSizeBytes];
    for [blockSizeBytes = 0] the remainder is [NaN] and [NaN || 0] is 0. *)
Definition nPaddingBytes (dataSigBytes blockSizeBytes : Z) : Z :=
  if blockSizeBytes =? 0 then 0
  else let n := blockSizeBytes - JS.rem dataSigBytes blockSizeBytes in
       if n =? 0 then blockSizeBytes else n.

(** [(n << 24) | (n << 16) | (n << 8) | n] *)
Definition paddingWord (n : Z) : Z :=
  JS.or (JS.or (JS.or (JS.shl n 24) (JS.shl n 16)) (JS.shl n 8)) n.

(** The word array that [pad] builds: one [push] per turn of
    [for (i = 0; i < nPaddingBytes; i += 4)], then [sigBytes = nPaddingBytes]. *)
Definition padding (n : Z) : WordArray :=
  {| words := replicate (Z.to_nat (JS.ceil_div4 n)) (paddingWord n); sigBytes := n |}.

Definition pad (data : WordArray) (blockSize : Z) : outcome WordArray :=
  let blockSizeBytes := blockSize * 4 in
  concat data (padding (nPaddingBytes (sigBytes data) blockSizeBytes)).

(** [unpad] has no check and no throwing operation. *)
Definition unpad (data : WordArray) : WordArray :=
  let nPaddingBytes := JS.and (JS.get (words data) (JS.ushr (sigBytes data - 1) 2)) 255 in
  {| words := words data; sigBytes := sigBytes data - nPaddingBytes |}.

End PKCS5.

Example pad_3_bytes :
  PKCS5.pad (mkWordArray [0x61626300] 3) 2 = Ok (mkWordArray [0x61626305; 0x05050505] 8).
Proof. reflexivity. Qed.

Example pad_aligned :
  PKCS5.pad (mkWordArray [1; 2] 8) 2 = Ok (mkWordArray [1; 2; 0x08080808; 0x08080808] 16).
Proof. reflexivity. Qed.

Example unpad_3_bytes :
  PKCS5.unpad (mkWordArray [0x61626305; 0x05050505] 8) = mkWordArray [0x61626305; 0x05050505] 3.
Proof. reflexivity. Qed.

Lemma lane_paddingWord n k : is_byte n -> 0 <= k <= 3 -> lane (PKCS5.paddingWord n) k = n.
Proof.
  intros Hn Hk. unfold PKCS5.paddingWord.
  assert (E0 : JS.shl n 24 = JS.or 0 (JS.shl n (24 - 0 * 8))).
  { unfold JS.or. change (JS.toInt32 0) with 0. rewrite Z.lor_0_l.
    symmetry. apply toInt32_small. unfold JS.shl. apply toInt32_range. }
  assert (E3 : forall x, JS.or x n = JS.or x (JS.shl n (24 - 3 * 8))).
  { intros x. unfold JS.or. f_equal. unfold JS.shl. change (JS.toUint32 (24 - 3 * 8) mod 32) with 0.
    by rewrite Z.shiftl_0_r, !toInt32_idem. }
  transitivity (lane (JS.or (JS.or (JS.or (JS.or 0 (JS.shl n (24 - 0 * 8))) (JS.shl n (24 - 1 * 8)))
                                  (JS.shl n (24 - 2 * 8))) (JS.shl n (24 - 3 * 8))) k).
  { by rewrite <- E3, <- E0. }
  rewrite !lane_or_shl by (done || lia). rewrite !lane_0 by lia.
  repeat case_decide; try lia; rewrite ?Z.lor_0_l; try done.
Qed.

Lemma sig_bytes_padding n : 0 <= n < 256 -> sig_bytes (PKCS5.padding n) = replicate (Z.to_nat n) n.
Proof.
  intros Hn. apply list_eq. intros i. unfold sig_bytes. simpl.
  destruct (decide (i < Z.to_nat n)%nat) as [Hi|Hi].
  - rewrite list_lookup_fmap, lookup_seqZ_lt, lookup_replicate_2 by lia. simpl. f_equal.
    rewrite Z.add_0_l, byteAt_split by lia.
    assert (Hw : JS.get (replicate (Z.to_nat (JS.ceil_div4 n)) (PKCS5.paddingWord n)) (Z.of_nat i / 4)
                 = PKCS5.paddingWord n).
    { unfold JS.get. destruct (Z.ltb_spec (Z.of_nat i / 4) 0); [zdm|].
      rewrite lookup_replicate_2; [done|]. zdm. }
    rewrite Hw. apply lane_paddingWord; [done|zdm].
  - rewrite (proj1 (lookup_replicate_None _ _ _)) by lia.
    rewrite list_lookup_fmap, lookup_seqZ_ge; [done|lia].
Qed.

Lemma nPaddingBytes_spec s bsb :
  0 <= s -> 0 < bsb ->
  PKCS5.nPaddingBytes s bsb = bsb - s mod bsb /\
  1 <= PKCS5.nPaddingBytes s bsb <= bsb /\
  (s + PKCS5.nPaddingBytes s bsb) mod bsb = 0.
Proof.
  intros Hs Hb. unfold PKCS5.nPaddingBytes, JS.rem.
  destruct (Z.eqb_spec bsb 0); [lia|].
  rewrite Z.rem_mod_nonneg by lia.
  pose proof (Z.mod_pos_bound s bsb Hb) as Hm.
  destruct (Z.eqb_spec (bsb - s mod bsb) 0); [lia|].
  split; [done|]. split; [lia|].
  replace (s + (bsb - s mod bsb)) with (s - s mod bsb + 1 * bsb) by lia.
  rewrite Z_mod_plus_full, Zminus_mod_idemp_r, Z.sub_diag. done.
Qed.

(** What [pad] does for block sizes whose byte count fits in one byte. *)
Lemma pad_spec d bs :
  0 <= sigBytes d -> 1 <= bs <= 63 -> sigBytes d + bs * 4 < 2 ^ 32 ->
  let n := PKCS5.nPaddingBytes (sigBytes d) (bs * 4) in
  exists r, PKCS5.pad d bs = Ok r /\
    sigBytes r = sigBytes d + n /\
    clamped (words r) (sigBytes r) /\
    sig_bytes r = sig_bytes d ++ replicate (Z.to_nat n) n.
Proof.
  intros Hs Hbs Hlt n.
  destruct (nPaddingBytes_spec (sigBytes d) (bs * 4) Hs ltac:(lia)) as (_ & Hn & _).
  fold n in Hn. unfold PKCS5.pad. fold n.
  destruct (concat_spec d (PKCS5.padding n)) as (r & -> & Hsig & Hc & _ & Hb); simpl; [lia..|].
  exists r. split; [done|]. simpl in Hsig. split; [lia|]. split; [done|].
  by rewrite Hb, sig_bytes_padding by lia.
Qed.

(** After [pad], [unpad] reads the padding length back. *)
Lemma unpad_padded r s n :
  0 <= s -> 1 <= n <= 255 -> sigBytes r = s + n -> (s + n) mod 4 = 0 -> s + n < 2 ^ 32 ->
  bytes_of (words r) (s + n) !! Z.to_nat (s + n - 1) = Some n ->
  PKCS5.unpad r = mkWordArray (words r) s.
Proof.
  intros Hs Hn Hsig Hal Hlt Hlast. unfold PKCS5.unpad. f_equal.
  rewrite lookup_bytes_of in Hlast by lia. injection Hlast as Hlast.
  rewrite byteAt_split in Hlast by lia.
  rewrite Hsig, ushr2, and_255_lane by lia.
  replace ((s + n - 1) mod 4) with 3 in Hlast by zdm. rewrite Hlast. lia.
Qed.

Lemma mod_mul4 x bs : 0 < bs -> x mod (bs * 4) = 0 -> x mod 4 = 0.
Proof.
  intros Hbs H. apply Z.mod_divide in H as [q Hq]; [|lia]. subst x.
  replace (q * (bs * 4)) with (q * bs * 4) by lia. apply Z_mod_mult.
Qed.

Lemma unpad_pad d bs :
  0 <= sigBytes d -> 1 <= bs <= 63 -> sigBytes d + bs * 4 < 2 ^ 32 ->
  exists r, PKCS5.pad d bs = Ok r /\
    sigBytes r = sigBytes d + PKCS5.nPaddingBytes (sigBytes d) (bs * 4) /\
    sig_bytes r = sig_bytes d
                  ++ replicate (Z.to_nat (PKCS5.nPaddingBytes (sigBytes d) (bs * 4)))
                               (PKCS5.nPaddingBytes (sigBytes d) (bs * 4)) /\
    PKCS5.unpad r = mkWordArray (words r) (sigBytes d) /\
    sig_bytes (PKCS5.unpad r) = sig_bytes d.
Proof.
  intros Hs Hbs Hlt.
  destruct (pad_spec d bs Hs Hbs Hlt) as (r & Hp & Hsig & Hc & Hb).
  destruct (nPaddingBytes_spec (sigBytes d) (bs * 4) Hs ltac:(lia)) as (_ & Hn & Hmod).
  set (n := PKCS5.nPaddingBytes (sigBytes d) (bs * 4)) in *.
  assert (Hu : PKCS5.unpad r = mkWordArray (words r) (sigBytes d)).
  { apply (unpad_padded r (sigBytes d) n); try lia.
    - apply (mod_mul4 _ bs); [lia|done].
    - rewrite <- Hsig. change (bytes_of (words r) (sigBytes r)) with (sig_bytes r). rewrite Hb.
      rewrite lookup_app_r by (apply Nat2Z.inj_le; rewrite length_sig_bytes; lia).
      apply lookup_replicate_2.
      assert (Z.of_nat (length (sig_bytes d)) = sigBytes d) by (rewrite length_sig_bytes; lia). lia. }
  exists r. split; [done|]. split; [done|]. split; [done|]. split; [done|]. rewrite Hu.
  change (sig_bytes (mkWordArray (words r) (sigBytes d))) with (bytes_of (words r) (sigBytes d)).
  rewrite (bytes_of_take _ _ (sigBytes r)) by lia.
  change (bytes_of (words r) (sigBytes r)) with (sig_bytes r). rewrite Hb.
  rewrite take_app_length'; [done|]. apply Nat2Z.inj. rewrite length_sig_bytes. lia.
Qed.

(** ** Block cipher primitives *)

(** Modelled from the spec: the concrete ciphers (AES, DES, ...) are not part
    of these files.  Section 6 gives their contract: a block size, key and IV
    sizes in words, [init(key)], and [encryptBlock(buffer, wordOffset)] /
    [decryptBlock(buffer, wordOffset)], which transform [blockSize] words of
    the buffer in place.  The transformation itself is a parameter. *)
Record BlockCipher : Type := mkBlockCipher {
  _blockSize : Z;
  _keySize : Z;
  _ivSize : Z;
  KeySchedule : Type;
  _init : WordArray -> KeySchedule;
  encryptBlockFn : KeySchedule -> list Z -> list Z;
  decryptBlockFn : KeySchedule -> list Z -> list Z
}.

(** The [n] words at [offset] (a word outside the array reads as [undefined]). *)
Definition read_block (ws : list Z) (offset n : Z) : list Z :=
  (fun i => JS.get ws (offset + i)) <$> seqZ 0 n.

(** [ws[offset + i] = blk[i]] for each word of [blk]. *)
Fixpoint write_block (ws : list Z) (offset : Z) (blk : list Z) : list Z :=
  match blk with
  | [] => ws
  | v :: blk' => write_block (JS.put ws offset v) (offset + 1) blk'
  end.

Definition _encryptBlock (c : BlockCipher) (ks : KeySchedule c) (ws : list Z) (offset : Z) : list Z :=
  write_block ws offset (encryptBlockFn c ks (read_block ws offset (_blockSize c))).

Definition _decryptBlock (c : BlockCipher) (ks : KeySchedule c) (ws : list Z) (offset : Z) : list Z :=
  write_block ws offset (decryptBlockFn c ks (read_block ws offset (_blockSize c))).

(** ** cipher-core.js: CBC mode *)

Module CBC.

Definition xorBlock (dataWords ivWords : list Z) (offset blockSize : Z) : list Z :=
  if offset =? 0 then
    fold_left (fun d i => JS.put d i (JS.xor (JS.get d i) (JS.get ivWords i)))
              (seqZ 0 blockSize) dataWords
  else
    fold_left (fun d i => JS.put d (offset + i)
                            (JS.xor (JS.get d (offset + i)) (JS.get d (offset + i - blockSize))))
              (seqZ 0 blockSize) dataWords.

(** [for (offset = 0; offset < messageWordsLength; offset += cipherBlockSize)];
    [fuel] bounds the number of turns, and running out of it is [Diverge]. *)
Fixpoint encrypt_loop (fuel : nat) (c : BlockCipher) (ks : KeySchedule c) (ivWords : list Z)
    (messageWordsLength offset : Z) (messageWords : list Z) : outcome (list Z) :=
  if offset <? messageWordsLength then
    match fuel with
    | O => Diverge
    | S fuel' =>
        let ws := xorBlock messageWords ivWords offset (_blockSize c) in
        let ws := _encryptBlock c ks ws offset in
        encrypt_loop fuel' c ks ivWords messageWordsLength (offset + _blockSize c) ws
    end
  else Ok messageWords.

(** With a block size of at least one word the loop ends within
    [messageWords.length] turns; with a smaller one it never ends, unless the
    message has no words. *)
Definition encrypt (c : BlockCipher) (ks : KeySchedule c) (messageWords ivWords : list Z)
    : outcome (list Z) :=
  encrypt_loop (length messageWords) c ks ivWords (Z.of_nat (length messageWords)) 0 messageWords.

(** [for (offset = ciphertextWords.length - cipherBlockSize; offset >= 0; offset -= cipherBlockSize)] *)
Fixpoint decrypt_loop (fuel : nat) (c : BlockCipher) (ks : KeySchedule c) (ivWords : list Z)
    (offset : Z) (ciphertextWords : list Z) : outcome (list Z) :=
  if 0 <=? offset then
    match fuel with
    | O => Diverge
    | S fuel' =>
        let ws := _decryptBlock c ks ciphertextWords offset in
        let ws := xorBlock ws ivWords offset (_blockSize c) in
        decrypt_loop fuel' c ks ivWords (offset - _blockSize c) ws
    end
  else Ok ciphertextWords.

Definition decrypt (c : BlockCipher) (ks : KeySchedule c) (ciphertextWords ivWords : list Z)
    : outcome (list Z) :=
  decrypt_loop (length ciphertextWords) c ks ivWords
               (Z.of_nat (length ciphertextWords) - _blockSize c) ciphertextWords.

End CBC.

(** ** Strategies *)

(** A padding strategy: [pad(data, blockSize)] and [unpad(data)], each given
    as the new state of the buffer it is handed. *)
Record Padding : Type := mkPadding {
  pad : WordArray -> Z -> outcome WordArray;
  unpad : WordArray -> outcome WordArray
}.

(** A mode strategy: [encrypt(message, cipher, iv)] and
    [decrypt(ciphertext, cipher, iv)], each given as the new contents of the
    buffer's word array; the IV is [None] when [cfg.iv] is [undefined]. *)
Record Mode : Type := mkMode {
  mode_encrypt : forall c : BlockCipher, KeySchedule c -> list Z -> option (list Z) -> outcome (list Z);
  mode_decrypt : forall c : BlockCipher, KeySchedule c -> list Z -> option (list Z) -> outcome (list Z)
}.

Definition C_pad_PKCS5 : Padding :=
  {| pad := PKCS5.pad; unpad := fun data => Ok (PKCS5.unpad data) |}.

(** [iv.words] of an [undefined] IV is a TypeError. *)
Definition C_mode_CBC : Mode :=
  {| mode_encrypt := fun c ks ws iv =>
       match iv with Some ivWords => CBC.encrypt c ks ws ivWords | None => Throw TypeError end;
     mode_decrypt := fun c ks ws iv =>
       match iv with Some ivWords => CBC.decrypt c ks ws ivWords | None => Throw TypeError end |}.

(** A toy cipher for examples: every word of a block is XOR-ed with the
    first key word, so decryption is encryption. *)
Definition xor_cipher (blockSize : Z) : BlockCipher :=
  {| _blockSize := blockSize; _keySize := 1; _ivSize := blockSize;
     KeySchedule := Z;
     _init := fun key => JS.get (words key) 0;
     encryptBlockFn := fun k blk => (fun w => JS.xor w k) <$> blk;
     decryptBlockFn := fun k blk => (fun w => JS.xor w k) <$> blk |}.

Example cbc_two_blocks :
  CBC.encrypt (xor_cipher 2) 0xff [1; 2; 3; 4] [0x10; 0x20] = Ok [0xee; 0xdd; 0x12; 0x26]
  /\ CBC.decrypt (xor_cipher 2) 0xff [0xee; 0xdd; 0x12; 0x26] [0x10; 0x20] = Ok [1; 2; 3; 4].
Proof. split; reflexivity. Qed.

Example cbc_zero_block_size_diverges :
  CBC.encrypt (xor_cipher 0) 0xff [1; 2] [0x10; 0x20] = Diverge.
Proof. reflexivity. Qed.

(** ** Blocks inside a word array *)

Lemma get_write_block blk : forall ws off j,
  0 <= off -> 0 <= j ->
  JS.get (write_block ws off blk) j =
  if decide (off <= j < off + Z.of_nat (length blk))
  then default 0 (blk !! Z.to_nat (j - off)) else JS.get ws j.
Proof.
  induction blk as [|v blk IH]; intros ws off j Hoff Hj; cbn [write_block length].
  - rewrite decide_False by lia. done.
  - rewrite IH by lia. rewrite Nat2Z.inj_succ.
    destruct (decide (j = off)) as [->|Hne].
    + rewrite decide_False by lia. rewrite decide_True by lia.
      rewrite Z.sub_diag. simpl. rewrite get_put by done. by rewrite decide_True.
    + case_decide.
      * rewrite decide_True by lia.
        replace (Z.to_nat (j - off)) with (S (Z.to_nat (j - (off + 1)))) by lia. done.
      * rewrite get_put by done. rewrite decide_False by done.
        by rewrite decide_False by lia.
Qed.

Lemma length_write_block blk : forall ws off,
  0 <= off -> off + Z.of_nat (length blk) <= Z.of_nat (length ws) ->
  length (write_block ws off blk) = length ws.
Proof.
  induction blk as [|v blk IH]; intros ws off Hoff Hlen; cbn [write_block length] in *; [done|].
  assert (Hp : Z.of_nat (length (JS.put ws off v)) = Z.of_nat (length ws)).
  { rewrite length_put by done. lia. }
  rewrite IH by lia. lia.
Qed.

Lemma length_read_block ws off n : length (read_block ws off n) = Z.to_nat n.
Proof. unfold read_block. by rewrite length_fmap, length_seqZ. Qed.

Lemma lookup_read_block ws off n i :
  0 <= i < n -> read_block ws off n !! Z.to_nat i = Some (JS.get ws (off + i)).
Proof.
  intros Hi. unfold read_block. rewrite list_lookup_fmap, lookup_seqZ_lt by lia.
  simpl. do 3 f_equal. lia.
Qed.

Lemma read_block_ext ws ws' off n :
  (forall i, 0 <= i < n -> JS.get ws (off + i) = JS.get ws' (off + i)) ->
  read_block ws off n = read_block ws' off n.
Proof.
  intros H. unfold read_block. apply list_eq. intros k. rewrite !list_lookup_fmap.
  destruct (seqZ 0 n !! k) as [i|] eqn:E; [|done]. simpl.
  apply lookup_seqZ in E as [-> ?]. f_equal. apply H. lia.
Qed.

Lemma read_write_block ws off blk :
  0 <= off -> read_block (write_block ws off blk) off (Z.of_nat (length blk)) = blk.
Proof.
  intros Hoff. apply list_eq. intros k.
  destruct (decide (k < length blk)%nat) as [Hk|Hk].
  - replace k with (Z.to_nat (Z.of_nat k)) at 1 by lia.
    rewrite lookup_read_block by lia. rewrite get_write_block by lia.
    rewrite decide_True by lia. replace (Z.to_nat (off + Z.of_nat k - off)) with k by lia.
    destruct (lookup_lt_is_Some_2 blk k Hk) as [x ->]. done.
  - rewrite !lookup_ge_None_2; [done|lia|]. rewrite length_read_block. lia.
Qed.

(** [xorBlock], word by word. *)
Lemma xorBlock_first d iv bs :
  0 <= bs <= Z.of_nat (length d) ->
  length (CBC.xorBlock d iv 0 bs) = length d /\
  forall j, 0 <= j ->
    JS.get (CBC.xorBlock d iv 0 bs) j =
    if decide (j < bs) then JS.xor (JS.get d j) (JS.get iv j) else JS.get d j.
Proof.
  intros Hbs. unfold CBC.xorBlock. simpl.
  rewrite <- (Z2Nat.id bs) by lia. assert (Hn : (Z.to_nat bs <= length d)%nat) by lia.
  generalize dependent (Z.to_nat bs). clear Hbs bs. intros n Hn.
  induction n as [|n IH].
  - simpl. split; [done|]. intros j Hj. by rewrite decide_False by lia.
  - rewrite seqZ_S, fold_left_app, Z.add_0_l. cbn [fold_left]. destruct (IH ltac:(lia)) as [IHl IHg].
    set (d' := fold_left _ _ _) in *. split.
    + apply Nat2Z.inj. rewrite length_put by lia. lia.
    + intros j Hj. rewrite get_put by lia. rewrite (IHg (Z.of_nat n)) by lia.
      rewrite (decide_False (P := Z.of_nat n < Z.of_nat n)) by lia. case_decide as Hjn.
      * subst j. by rewrite decide_True by lia.
      * rewrite IHg by done. repeat case_decide; try lia; done.
Qed.

Lemma xorBlock_next_aux d off bs (m : nat) :
  0 < bs <= off -> off + Z.of_nat m <= Z.of_nat (length d) -> Z.of_nat m <= bs ->
  let r := fold_left (fun d i => JS.put d (off + i)
                        (JS.xor (JS.get d (off + i)) (JS.get d (off + i - bs))))
                     (seqZ 0 (Z.of_nat m)) d in
  length r = length d /\
  forall j, 0 <= j ->
    JS.get r j =
    if decide (off <= j < off + Z.of_nat m)
    then JS.xor (JS.get d j) (JS.get d (j - bs)) else JS.get d j.
Proof.
  intros Hbs. induction m as [|m IH]; intros Hlen Hm.
  - simpl. split; [done|]. intros j Hj. by rewrite decide_False by lia.
  - rewrite seqZ_S, fold_left_app, Z.add_0_l. cbn [fold_left].
    destruct (IH ltac:(lia) ltac:(lia)) as [IHl IHg].
    set (d' := fold_left _ _ _) in *. cbv zeta. split.
    + apply Nat2Z.inj. rewrite length_put by lia. lia.
    + intros j Hj. rewrite get_put by lia. rewrite !IHg by lia.
      rewrite (decide_False (P := off <= off + Z.of_nat m < _)) by lia.
      rewrite (decide_False (P := off <= off + Z.of_nat m - bs < _)) by lia.
      case_decide as Hjn.
      * subst j. by rewrite decide_True by lia.
      * repeat case_decide; try lia; done.
Qed.

Lemma xorBlock_next d iv off bs :
  0 < bs <= off -> off + bs <= Z.of_nat (length d) ->
  length (CBC.xorBlock d iv off bs) = length d /\
  forall j, 0 <= j ->
    JS.get (CBC.xorBlock d iv off bs) j =
    if decide (off <= j < off + bs) then JS.xor (JS.get d j) (JS.get d (j - bs)) else JS.get d j.
Proof.
  intros Hbs Hlen. unfold CBC.xorBlock. destruct (Z.eqb_spec off 0); [lia|].
  pose proof (xorBlock_next_aux d off bs (Z.to_nat bs) Hbs ltac:(lia) ltac:(lia)) as H.
  by rewrite Z2Nat.id in H by lia.
Qed.

Lemma xorBlock_spec d iv off bs :
  0 < bs -> off = 0 \/ bs <= off -> off + bs <= Z.of_nat (length d) ->
  length (CBC.xorBlock d iv off bs) = length d /\
  forall j, 0 <= j ->
    JS.get (CBC.xorBlock d iv off bs) j =
    if decide (off <= j < off + bs)
    then JS.xor (JS.get d j) (if decide (off = 0) then JS.get iv j else JS.get d (j - bs))
    else JS.get d j.
Proof.
  intros Hbs [->|Hoff] Hlen.
  - destruct (xorBlock_first d iv bs ltac:(lia)) as [Hl Hg]. split; [done|].
    intros j Hj. rewrite Hg by done. repeat case_decide; try lia; done.
  - destruct (xorBlock_next d iv off bs ltac:(lia) Hlen) as [Hl Hg]. split; [done|].
    intros j Hj. rewrite Hg by done. repeat case_decide; try lia; done.
Qed.

(** ** CBC decryption undoes CBC encryption *)

(** The contract of a keyed primitive: on a block of [blockSize] 32-bit
    words, [decryptBlock] inverts [encryptBlock]. *)
Definition block_inverse (c : BlockCipher) (ks : KeySchedule c) : Prop :=
  forall blk, length blk = Z.to_nat (_blockSize c) -> Forall int32 blk ->
    length (encryptBlockFn c ks blk) = Z.to_nat (_blockSize c) /\
    decryptBlockFn c ks (encryptBlockFn c ks blk) = blk.

(** Ciphertext below word [m], recovered plaintext from word [m] on. *)
Definition mix (m : Z) (cs ws : list Z) : list Z :=
  take (Z.to_nat m) cs ++ (JS.toInt32 <$> drop (Z.to_nat m) ws).

Lemma length_mix m cs ws :
  length cs = length ws -> 0 <= m <= Z.of_nat (length ws) -> length (mix m cs ws) = length ws.
Proof. intros Hl Hm. unfold mix. rewrite length_app, length_take, length_fmap, length_drop. lia. Qed.

Lemma get_mix m cs ws j :
  length cs = length ws -> 0 <= m <= Z.of_nat (length ws) -> 0 <= j ->
  JS.get (mix m cs ws) j = if decide (j < m) then JS.get cs j else JS.toInt32 (JS.get ws j).
Proof.
  intros Hl Hm Hj. unfold mix, JS.get. destruct (Z.ltb_spec j 0); [lia|]. case_decide.
  - rewrite lookup_app_l by (rewrite length_take; lia). by rewrite lookup_take_lt by lia.
  - rewrite lookup_app_r by (rewrite length_take; lia). rewrite length_take.
    rewrite list_lookup_fmap, lookup_drop.
    replace (Z.to_nat m + (Z.to_nat j - Z.to_nat m `min` length cs))%nat with (Z.to_nat j) by lia.
    by destruct (ws !! Z.to_nat j).
Qed.

Section cbc.
Context (c : BlockCipher) (ks : KeySchedule c) (iv : list Z).
Hypothesis Hbs : 1 <= _blockSize c.
Hypothesis Hinv : block_inverse c ks.

Let bs := _blockSize c.

Lemma encrypt_step W off :
  0 <= off -> off = 0 \/ bs <= off -> off + bs <= Z.of_nat (length W) ->
  let X := read_block (CBC.xorBlock W iv off bs) off bs in
  let W' := _encryptBlock c ks (CBC.xorBlock W iv off bs) off in
  length W' = length W /\
  (forall j, 0 <= j -> ~ off <= j < off + bs -> JS.get W' j = JS.get W j) /\
  read_block W' off bs = encryptBlockFn c ks X /\
  length X = Z.to_nat bs /\ Forall int32 X /\
  (forall i, 0 <= i < bs ->
     X !! Z.to_nat i = Some (JS.xor (JS.get W (off + i))
                               (if decide (off = 0) then JS.get iv (off + i)
                                else JS.get W (off + i - bs)))).
Proof.
  intros Hoff Hal Hlen X W'.
  destruct (xorBlock_spec W iv off bs ltac:(unfold bs; lia) Hal Hlen) as [Hxl Hxg].
  assert (HX : forall i, 0 <= i < bs ->
     X !! Z.to_nat i = Some (JS.xor (JS.get W (off + i))
                               (if decide (off = 0) then JS.get iv (off + i)
                                else JS.get W (off + i - bs)))).
  { intros i Hi. unfold X. rewrite lookup_read_block by done. rewrite Hxg by lia.
    by rewrite decide_True by lia. }
  assert (HXl : length X = Z.to_nat bs) by apply length_read_block.
  assert (HXi : Forall int32 X).
  { apply Forall_lookup. intros n x Hn.
    assert (n < length X)%nat by (by eapply lookup_lt_Some).
    specialize (HX (Z.of_nat n) ltac:(lia)). rewrite Nat2Z.id, Hn in HX.
    injection HX as ->. apply xor_int32. }
  destruct (Hinv X HXl HXi) as [Hel _].
  unfold W', _encryptBlock. fold bs. fold X.
  split; [|split; [|split]]; [| |..].
  - rewrite length_write_block; [done|done|]. rewrite Hel, Hxl. lia.
  - intros j Hj Hout. rewrite get_write_block by done. rewrite Hel.
    rewrite decide_False by lia. rewrite Hxg by done. by rewrite decide_False.
  - rewrite <- (read_write_block (CBC.xorBlock W iv off bs) off (encryptBlockFn c ks X)) at 2 by done.
    rewrite Hel. by rewrite Z2Nat.id by (unfold bs; lia).
  - done.
Qed.

Lemma decrypt_step A off X :
  0 <= off -> off = 0 \/ bs <= off -> off + bs <= Z.of_nat (length A) ->
  length X = Z.to_nat bs -> Forall int32 X ->
  read_block A off bs = encryptBlockFn c ks X ->
  let R := CBC.xorBlock (_decryptBlock c ks A off) iv off bs in
  length R = length A /\
  forall j, 0 <= j ->
    JS.get R j =
    if decide (off <= j < off + bs)
    then JS.xor (default 0 (X !! Z.to_nat (j - off)))
                (if decide (off = 0) then JS.get iv j else JS.get A (j - bs))
    else JS.get A j.
Proof.
  intros Hoff Hal Hlen HXl HXi Hrd R. subst R.
  destruct (Hinv X HXl HXi) as [_ Hde].
  set (D := _decryptBlock c ks A off).
  assert (HDg : forall j, 0 <= j ->
            JS.get D j = if decide (off <= j < off + bs)
                         then default 0 (X !! Z.to_nat (j - off)) else JS.get A j).
  { intros j Hj. unfold D, _decryptBlock. fold bs. rewrite Hrd, Hde.
    rewrite get_write_block by done. rewrite HXl. by rewrite Z2Nat.id by (unfold bs; lia). }
  assert (HDl : length D = length A).
  { unfold D, _decryptBlock. fold bs. rewrite Hrd, Hde. apply length_write_block; [done|].
    rewrite HXl. lia. }
  destruct (xorBlock_spec D iv off bs ltac:(unfold bs; lia) Hal ltac:(lia)) as [Hxl Hxg].
  split; [by rewrite Hxl|]. intros j Hj. rewrite Hxg by done.
  rewrite (HDg j) by done. destruct (decide (off <= j < off + bs)) as [Hin|Hin]; [|done].
  destruct (decide (off = 0)); [done|]. rewrite HDg by lia. by rewrite decide_False by lia.
Qed.

Lemma cbc_chain (r : nat) : forall (k : Z) (W : list Z),
  0 <= k -> Z.of_nat (length W) = (k + Z.of_nat r) * bs ->
  exists cs,
    (forall fuel, (r <= fuel)%nat ->
       CBC.encrypt_loop fuel c ks iv (Z.of_nat (length W)) (k * bs) W = Ok cs) /\
    length cs = length W /\
    (forall j, 0 <= j < k * bs -> JS.get cs j = JS.get W j) /\
    (forall fuel2,
       CBC.decrypt_loop (r + fuel2) c ks iv ((k + Z.of_nat r - 1) * bs) cs =
       CBC.decrypt_loop fuel2 c ks iv ((k - 1) * bs) (mix (k * bs) cs W)).
Proof.
  assert (Hbs' : 1 <= bs) by exact Hbs.
  induction r as [|r IH]; intros k W Hk Hlen.
  - exists W. rewrite Z.add_0_r in *. split; [|split; [|split]].
    + intros fuel _. destruct fuel; simpl; by destruct (Z.ltb_spec (k * bs) (Z.of_nat (length W))); try lia.
    + done.
    + done.
    + intros fuel2. simpl. f_equal. unfold mix. rewrite <- Hlen, Nat2Z.id.
      rewrite take_ge, drop_ge by lia. by rewrite app_nil_r.
  - assert (Hoff : 0 <= k * bs) by nia.
    assert (Hal : k * bs = 0 \/ bs <= k * bs).
    { destruct (decide (k = 0)) as [->|]; [by left|right; nia]. }
    assert (Hin : k * bs + bs <= Z.of_nat (length W)) by nia.
    destruct (encrypt_step W (k * bs) Hoff Hal Hin) as (Hl' & Hout & Hrd & HXl & HXi & HX).
    set (X := read_block (CBC.xorBlock W iv (k * bs) bs) (k * bs) bs) in *.
    set (W' := _encryptBlock c ks (CBC.xorBlock W iv (k * bs) bs) (k * bs)) in *.
    destruct (IH (k + 1) W' ltac:(lia) ltac:(rewrite Hl'; lia)) as (cs & Henc & Hcl & Hpre & Hdec).
    exists cs. split; [|split; [|split]].
    + intros [|fuel] Hf; [lia|]. cbn [CBC.encrypt_loop].
      destruct (Z.ltb_spec (k * bs) (Z.of_nat (length W))); [|lia].
      fold bs. fold W'. rewrite <- Hl'.
      replace (k * bs + bs) with ((k + 1) * bs) by lia. apply Henc. lia.
    + congruence.
    + intros j Hj. rewrite Hpre by lia. apply Hout; lia.
    + intros fuel2.
      replace (S r + fuel2)%nat with (r + S fuel2)%nat by lia.
      replace (k + Z.of_nat (S r) - 1) with (k + 1 + Z.of_nat r - 1) by lia.
      rewrite Hdec. replace (k + 1 - 1) with k by lia.
      cbn [CBC.decrypt_loop]. destruct (Z.leb_spec 0 (k * bs)); [|lia].
      fold bs. replace (k * bs - bs) with ((k - 1) * bs) by lia. f_equal.
      set (A := mix ((k + 1) * bs) cs W').
      assert (HAl : length A = length W) by (unfold A; rewrite length_mix; [congruence|congruence|lia]).
      assert (HAg : forall j, 0 <= j -> JS.get A j =
                if decide (j < (k + 1) * bs) then JS.get cs j else JS.toInt32 (JS.get W' j)).
      { intros j Hj. unfold A. apply get_mix; [congruence|lia|done]. }
      assert (HArd : read_block A (k * bs) bs = encryptBlockFn c ks X).
      { rewrite <- Hrd. apply read_block_ext. intros i Hi. rewrite HAg by lia.
        rewrite decide_True by lia. apply Hpre. lia. }
      destruct (decrypt_step A (k * bs) X Hoff Hal ltac:(lia) HXl HXi HArd) as [HRl HRg].
      apply list_eq_get.
      * rewrite HRl, HAl. symmetry. apply length_mix; [congruence|lia].
      * intros j Hj. rewrite HRl, HAl in Hj. rewrite HRg by lia.
        rewrite get_mix by (congruence || lia).
        destruct (decide (k * bs <= j < k * bs + bs)) as [Hjb|Hjb].
        -- rewrite (decide_False (P := j < k * bs)) by lia.
           specialize (HX (j - k * bs) ltac:(lia)). rewrite HX. simpl.
           replace (k * bs + (j - k * bs)) with j by lia.
           destruct (decide (k * bs = 0)) as [H0|H0]; [by rewrite xor_xor|].
           rewrite HAg by lia. rewrite decide_True by lia. rewrite Hpre by lia.
           rewrite Hout by lia. by rewrite xor_xor.
        -- rewrite HAg by lia. destruct (decide (j < k * bs)).
           ++ by rewrite decide_True by lia.
           ++ rewrite decide_False by lia. by rewrite Hout by lia.
Qed.

Lemma cbc_roundtrip (W : list Z) (n : nat) :
  Z.of_nat (length W) = Z.of_nat n * bs ->
  exists cs, CBC.encrypt c ks W iv = Ok cs /\ length cs = length W /\
    CBC.decrypt c ks cs iv = Ok (JS.toInt32 <$> W).
Proof.
  assert (Hbs' : 1 <= bs) by exact Hbs.
  intros Hlen. destruct (cbc_chain n 0 W ltac:(lia) ltac:(lia)) as (cs & Henc & Hcl & _ & Hdec).
  exists cs. split; [|split; [done|]].
  - unfold CBC.encrypt. apply Henc. nia.
  - unfold CBC.decrypt. fold bs. rewrite Hcl.
    replace (Z.of_nat (length W) - bs) with ((0 + Z.of_nat n - 1) * bs) by lia.
    assert (Hf : exists f2, length W = (n + f2)%nat) by (exists (length W - n)%nat; nia).
    destruct Hf as [f2 ->]. rewrite Hdec.
    assert (Hr : forall f A, CBC.decrypt_loop f c ks iv ((0 - 1) * bs) A = Ok A).
    { intros f A. destruct f; simpl; by destruct (Z.leb_spec 0 ((0 - 1) * bs)); try lia. }
    rewrite Hr. unfold mix. by rewrite take_0, drop_0.
Qed.

End cbc.

(** ** Encoders (core.js) *)

(** Text is a [string] of characters with codes 0..255. *)
Definition char_codes (s : string) : list Z :=
  (fun a => Z.of_nat (Ascii.nat_of_ascii a)) <$> String.list_ascii_of_string s.

Module Latin1.

(** [words[i >>> 2] |= latin1Str.charCodeAt(i) << (24 - (i % 4) * 8)] for
    each [i], then [WordArray.create(words, latin1Str.length)]: the loop of
    [concat] on an empty array. *)
Definition fromCodes (codes : list Z) : WordArray :=
  let r := fold_left push_byte codes ([], 0) in
  WordArray_create (Some r.1) (Some (Z.of_nat (length codes))).

Definition fromString (latin1Str : string) : WordArray := fromCodes (char_codes latin1Str).

(** The character codes of [Latin1.toString(wordArray)]. *)
Definition toCodes (wordArray : WordArray) : list Z := sig_bytes wordArray.

End Latin1.

Module Utf8.

(** [unescape(encodeURIComponent(utf8Str))]: one character per byte of the
    UTF-8 form; a code below 128 is one byte, a code in 128..255 two. *)
Definition encode (codes : list Z) : list Z :=
  c ← codes; if c <? 128 then [c] else [Z.lor 192 (Z.shiftr c 6); Z.lor 128 (Z.land c 63)].

Definition fromString (utf8Str : string) : WordArray :=
  Latin1.fromCodes (encode (char_codes utf8Str)).

End Utf8.

Module Hex.

Definition hex_digit (c : Z) : option Z :=
  if (48 <=? c) && (c <=? 57) then Some (c - 48)
  else if (97 <=? c) && (c <=? 102) then Some (c - 87)
  else if (65 <=? c) && (c <=? 70) then Some (c - 55)
  else None.

(** White space that [parseInt] skips, among the codes 0..255. *)
Definition is_space (c : Z) : bool :=
  (c =? 9) || (c =? 10) || (c =? 11) || (c =? 12) || (c =? 13) || (c =? 32) || (c =? 160).

Fixpoint skip_spaces (cs : list Z) : list Z :=
  match cs with
  | c :: cs' => if is_space c then skip_spaces cs' else cs
  | [] => []
  end.

Fixpoint digits (acc : option Z) (cs : list Z) : option Z :=
  match cs with
  | [] => acc
  | c :: cs' =>
      match hex_digit c with
      | Some d => digits (Some (default 0 acc * 16 + d)) cs'
      | None => acc
      end
  end.

(** [parseInt(str, 16)] on character codes: leading white space, a sign, an
    optional [0x], then the longest run of hex digits; [None] is [NaN]. *)
Definition parseInt16 (cs : list Z) : option Z :=
  let cs := skip_spaces cs in
  let '(sign, cs) :=
    match cs with
    | 45 :: cs' => (-1, cs')
    | 43 :: cs' => (1, cs')
    | _ => (1, cs)
    end in
  let cs :=
    match cs with
    | 48 :: 120 :: cs' => cs'
    | 48 :: 88 :: cs' => cs'
    | _ => cs
    end in
  (fun n => sign * n) <$> digits None cs.

(** One turn of the loop of [Hex.fromString]:
    [words[i >>> 3] |= parseInt(hexStr.substr(i, 2), 16) << (24 - (i % 8) * 4)];
    [NaN << n] is 0. *)
Definition step (hexStr : list Z) (ws : list Z) (i : Z) : list Z :=
  let v := default 0 (parseInt16 (take 2 (drop (Z.to_nat i) hexStr))) in
  JS.put ws (JS.ushr i 3) (JS.or (JS.get ws (JS.ushr i 3)) (JS.shl v (24 - JS.rem i 8 * 4))).

(** [Hex.fromString]: [for (i = 0; i < hexStrLength; i += 2)], then
    [WordArray.create(words, hexStrLength / 2)].  An odd length makes
    [sigBytes] a fraction. *)
Definition fromCodes (hexStr : list Z) : outcome WordArray :=
  let hexStrLength := Z.of_nat (length hexStr) in
  let ws := fold_left (step hexStr) ((fun k => 2 * k) <$> seqZ 0 ((hexStrLength + 1) / 2)) [] in
  if Z.even hexStrLength then Ok (WordArray_create (Some ws) (Some (hexStrLength / 2)))
  else NonIntegral.

Definition fromString (hexStr : string) : outcome WordArray := fromCodes (char_codes hexStr).

Definition digit_char (d : Z) : Z := if d <? 10 then 48 + d else 87 + d.

(** [Hex.toString]: two digits per significant byte. *)
Definition toCodes (wordArray : WordArray) : list Z :=
  bite ← sig_bytes wordArray;
  [digit_char (JS.ushr bite 4); digit_char (JS.and bite 15)].

End Hex.

(** An encoding strategy. *)
Record Encoder : Type := mkEncoder {
  enc_toCodes : WordArray -> list Z;
  enc_fromCodes : list Z -> outcome WordArray
}.

Definition C_enc_Hex : Encoder :=
  {| enc_toCodes := Hex.toCodes; enc_fromCodes := Hex.fromCodes |}.

Definition C_enc_Latin1 : Encoder :=
  {| enc_toCodes := Latin1.toCodes; enc_fromCodes := fun cs => Ok (Latin1.fromCodes cs) |}.

(** [C_lib_WordArray.encoder = C_enc_Hex] (the last statement of core.js) *)
Definition WordArray_encoder : Encoder := C_enc_Hex.

Example hex_decode : Hex.fromString "00ff1a2B" = Ok (mkWordArray [0x00ff1a2b] 4).
Proof. reflexivity. Qed.

Example hex_encode : Hex.toCodes (mkWordArray [0x00ff1a2b; 0x7f000000] 5) = char_codes "00ff1a2b7f".
Proof. reflexivity. Qed.

Example hex_decode_not_hex : Hex.fromString "zz+/" = Ok (mkWordArray [0] 2).
Proof. reflexivity. Qed.

Example latin1_decode : Latin1.fromString "abcde" = mkWordArray [0x61626364; 0x65000000] 5.
Proof. reflexivity. Qed.

(** ** Objects, references and the random source *)

(** A word array object holds a reference to its [words] array and its
    [sigBytes]; two objects can share one array. *)
Record WordArrayObj : Type := mkObj { words_ref : nat; obj_sigBytes : Z }.

(** The arrays and word array objects that exist, and what [Math.random]
    will return: [random w k] is [Math.floor(Math.random() * 0x100000000)] of
    the [k]-th call from now. *)
Record World : Type := mkWorld {
  arrays : gmap nat (list Z);
  objects : gmap nat WordArrayObj;
  random : nat -> Z
}.

Definition M (A : Type) : Type := World -> outcome A * World.

#[global] Instance M_ret : MRet M := fun A a w => (Ok a, w).
#[global] Instance M_bind : MBind M := fun A B f m w =>
  match m w with
  | (Ok a, w') => f a w'
  | (Throw e, w') => (Throw e, w')
  | (Diverge, w') => (Diverge, w')
  | (NonIntegral, w') => (NonIntegral, w')
  end.

Definition lift {A} (o : outcome A) : M A := fun w => (o, w).

(** Reading through a reference that holds nothing is reading a property of
    [undefined]. *)
Definition get_obj (r : nat) : M WordArrayObj := fun w =>
  (match objects w !! r with Some o => Ok o | None => Throw TypeError end, w).

Definition get_array (a : nat) : M (list Z) := fun w =>
  (match arrays w !! a with Some ws => Ok ws | None => Throw TypeError end, w).

Definition set_obj (r : nat) (o : WordArrayObj) : M unit := fun w =>
  (Ok (), mkWorld (arrays w) (<[r := o]> (objects w)) (random w)).

Definition set_array (a : nat) (ws : list Z) : M unit := fun w =>
  (Ok (), mkWorld (<[a := ws]> (arrays w)) (objects w) (random w)).

Definition new_obj (o : WordArrayObj) : M nat := fun w =>
  let r := fresh (dom (objects w)) in
  (Ok r, mkWorld (arrays w) (<[r := o]> (objects w)) (random w)).

Definition new_array (ws : list Z) : M nat := fun w =>
  let a := fresh (dom (arrays w)) in
  (Ok a, mkWorld (<[a := ws]> (arrays w)) (objects w) (random w)).

(** [Math.floor(Math.random() * 0x100000000)] *)
Definition next_random : M Z := fun w =>
  (Ok (random w 0%nat mod 2 ^ 32), mkWorld (arrays w) (objects w) (fun k => random w (S k))).

(** The buffer that a reference denotes. *)
Definition deref (w : World) (r : nat) : option WordArray :=
  o ← objects w !! r; ws ← arrays w !! words_ref o; Some (mkWordArray ws (obj_sigBytes o)).

Definition load (r : nat) : M WordArray :=
  o ← get_obj r; ws ← get_array (words_ref o); mret (mkWordArray ws (obj_sigBytes o)).

(** A method that changes its receiver: the array that [this.words] refers
    to gets the new words, [this.sigBytes] the new count. *)
Definition store (r : nat) (v : WordArray) : M unit :=
  o ← get_obj r; set_array (words_ref o) (words v);; set_obj r (mkObj (words_ref o) (sigBytes v)).

(** [WordArray.create(words, sigBytes)] with a new array. *)
Definition WordArray_new (v : WordArray) : M nat :=
  a ← new_array (words v); new_obj (mkObj a (sigBytes v)).

(** [WordArray.clone]: [Base.clone] makes an object with the same own
    properties (so the same [words] array), then [clone.words =
    this.words.slice(0)] gives the clone an array of its own. *)
Definition WordArray_clone (this : nat) : M nat :=
  o ← get_obj this;
  clone ← new_obj o;
  ws ← get_array (words_ref o);
  a ← new_array ws;
  set_obj clone (mkObj a (obj_sigBytes o));;
  mret clone.

(** [WordArray.random(nBytes)]: [for (i = 0; i < nBytes; i += 4)] push one
    random word. *)
Fixpoint random_words (n : nat) : M (list Z) :=
  match n with
  | O => mret []
  | S n' => x ← next_random; xs ← random_words n'; mret (x :: xs)
  end.

Definition WordArray_random (nBytes : Z) : M WordArray :=
  ws ← random_words (Z.to_nat (JS.ceil_div4 nBytes));
  mret (WordArray_create (Some ws) (Some nBytes)).

(** ** cipher-core.js: the cipher engine *)

Module Cipher.

(** The [message] or [ciphertext] argument: a string or a word array. *)
Inductive Input : Type := Text (s : string) | Buffer (r : nat).

(** The [cfg] argument; [None] is a property that the caller left out. *)
Record Config : Type := mkConfig {
  iv : option nat;
  padding : option Padding;
  mode : option Mode
}.

(** [this._cfg.extend(cfg)] for [Cipher.Block]: the defaults are PKCS5 and CBC. *)
Definition cfg_padding (cfg : Config) : Padding := default C_pad_PKCS5 (padding cfg).
Definition cfg_mode (cfg : Config) : Mode := default C_mode_CBC (mode cfg).

(** [cfg.iv], as the words that the mode reads. *)
Definition iv_words (cfg : Config) : M (option (list Z)) :=
  match iv cfg with
  | None => mret None
  | Some r => o ← get_obj r; ws ← get_array (words_ref o); mret (Some ws)
  end.

Definition _doEncrypt (c : BlockCipher) (message key : nat) (cfg : Config) : M unit :=
  (* cfg.padding.pad(message, this._blockSize) *)
  m ← load message;
  m' ← lift (pad (cfg_padding cfg) m (_blockSize c));
  store message m';;
  (* this._init(key) *)
  k ← load key;
  (* cfg.mode.encrypt(message, this, cfg.iv) *)
  o ← get_obj message;
  ws ← get_array (words_ref o);
  ivWords ← iv_words cfg;
  ws' ← lift (mode_encrypt (cfg_mode cfg) c (_init c k) ws ivWords);
  set_array (words_ref o) ws'.

Definition _doDecrypt (c : BlockCipher) (ciphertext key : nat) (cfg : Config) : M unit :=
  (* this._init(key) *)
  k ← load key;
  (* cfg.mode.decrypt(ciphertext, this, cfg.iv) *)
  o ← get_obj ciphertext;
  ws ← get_array (words_ref o);
  ivWords ← iv_words cfg;
  ws' ← lift (mode_decrypt (cfg_mode cfg) c (_init c k) ws ivWords);
  set_array (words_ref o) ws';;
  (* cfg.padding.unpad(ciphertext) *)
  m ← load ciphertext;
  m' ← lift (unpad (cfg_padding cfg) m);
  store ciphertext m'.

(** [Cipher.encrypt(message, key, cfg)] *)
Definition encrypt (c : BlockCipher) (message : Input) (key : nat) (cfg : Config) : M nat :=
  message ← match message with
            | Text s => WordArray_new (Utf8.fromString s)
            | Buffer r => WordArray_clone r
            end;
  _doEncrypt c message key cfg;;
  mret message.

(** [Cipher.decrypt(ciphertext, key, cfg)] *)
Definition decrypt (c : BlockCipher) (ciphertext : Input) (key : nat) (cfg : Config) : M nat :=
  ciphertext ← match ciphertext with
               | Text s => v ← lift (enc_fromCodes WordArray_encoder (char_codes s)); WordArray_new v
               | Buffer r => WordArray_clone r
               end;
  _doDecrypt c ciphertext key cfg;;
  mret ciphertext.

End Cipher.

(** ** What a call leaves untouched *)

(** Every array and every object of [w0] is in [w], unchanged. *)
Definition agree (w0 w : World) : Prop :=
  (forall a ws, arrays w0 !! a = Some ws -> arrays w !! a = Some ws) /\
  (forall r o, objects w0 !! r = Some o -> objects w !! r = Some o).

Lemma agree_refl w : agree w w.
Proof. by split. Qed.

Lemma agree_trans w0 w1 w2 : agree w0 w1 -> agree w1 w2 -> agree w0 w2.
Proof. intros [A1 O1] [A2 O2]. split; eauto. Qed.

Lemma agree_deref w0 w r v : agree w0 w -> deref w0 r = Some v -> deref w r = Some v.
Proof.
  intros [Ha Ho] H. unfold deref in *.
  destruct (objects w0 !! r) as [o|] eqn:Eo; [|done]. simpl in H.
  destruct (arrays w0 !! words_ref o) as [ws|] eqn:Ea; [|done]. simpl in H.
  rewrite (Ho _ _ Eo). simpl. by rewrite (Ha _ _ Ea).
Qed.

Lemma fresh_array w a ws : arrays w !! a = Some ws -> a <> fresh (dom (arrays w)).
Proof.
  intros H ->. apply (is_fresh (dom (arrays w))). apply elem_of_dom. by exists ws.
Qed.

Lemma fresh_object w r o : objects w !! r = Some o -> r <> fresh (dom (objects w)).
Proof.
  intros H ->. apply (is_fresh (dom (objects w))). apply elem_of_dom. by exists o.
Qed.

Lemma bind_run {A B} (m : M A) (f : A -> M B) w :
  (m ≫= f) w = match m w with
               | (Ok a, w') => f a w'
               | (Throw e, w') => (Throw e, w')
               | (Diverge, w') => (Diverge, w')
               | (NonIntegral, w') => (NonIntegral, w')
               end.
Proof. reflexivity. Qed.

Section frame.
(** [w0] is the world at the call; [r] and [a] are the object and the array
    that the call made for itself. *)
Context (w0 : World) (r a : nat).
Hypothesis Hr : objects w0 !! r = None.
Hypothesis Ha : arrays w0 !! a = None.

Definition own (w : World) : Prop :=
  agree w0 w /\ exists s, objects w !! r = Some (mkObj a s).

(** [m] keeps [own], and a value it returns satisfies [Q]. *)
Definition keeps {A} (m : M A) (Q : A -> Prop) : Prop :=
  forall w, own w -> own (m w).2 /\ forall x, (m w).1 = Ok x -> Q x.

Lemma keeps_bind {A B} (m : M A) (f : A -> M B) Q R :
  keeps m Q -> (forall x, Q x -> keeps (f x) R) -> keeps (m ≫= f) R.
Proof.
  intros Hm Hf w Hw. rewrite bind_run. destruct (Hm w Hw) as [Hown HQ].
  destruct (m w) as [[x| | |] w']; simpl in *; try (split; [done|intros; discriminate]).
  apply (Hf x); auto.
Qed.

Lemma keeps_weaken {A} (m : M A) (Q R : A -> Prop) :
  keeps m Q -> (forall x, Q x -> R x) -> keeps m R.
Proof. intros Hm HQR w Hw. destruct (Hm w Hw). split; auto. Qed.

Lemma keeps_ret {A} (x : A) (Q : A -> Prop) : Q x -> keeps (mret x) Q.
Proof. intros HQ w Hw. split; [done|]. intros y [= <-]. done. Qed.

Lemma keeps_lift {A} (o : outcome A) : keeps (lift o) (fun _ => True).
Proof. intros w Hw. by split. Qed.

Lemma keeps_get_array l : keeps (get_array l) (fun _ => True).
Proof. intros w Hw. by split. Qed.

Lemma keeps_get_obj l : keeps (get_obj l) (fun o => l = r -> words_ref o = a).
Proof.
  intros w Hw. split; [done|]. intros o. unfold get_obj. simpl.
  destruct Hw as [_ [s Hs]]. destruct (objects w !! l) eqn:E; [|done].
  intros [= ->] ->. rewrite Hs in E. by injection E as <-.
Qed.

Lemma keeps_set_array ws : keeps (set_array a ws) (fun _ => True).
Proof.
  intros w [[Hwa Hwo] Hs]. split; [|done]. split; [|done]. split; [|done].
  intros l x Hl. simpl. rewrite lookup_insert_ne; [by apply Hwa|]. intros ->. congruence.
Qed.

Lemma keeps_set_obj s : keeps (set_obj r (mkObj a s)) (fun _ => True).
Proof.
  intros w [[Hwa Hwo] Hs]. split; [|done]. split.
  - split; [done|]. intros l x Hl. simpl. rewrite lookup_insert_ne; [by apply Hwo|].
    intros ->. congruence.
  - exists s. simpl. apply lookup_insert_eq.
Qed.

Lemma keeps_load l : keeps (load l) (fun _ => True).
Proof.
  unfold load. eapply keeps_bind; [apply keeps_get_obj|]. intros o _.
  eapply keeps_bind; [apply keeps_get_array|]. intros ws _. by apply keeps_ret.
Qed.

Lemma keeps_store v : keeps (store r v) (fun _ => True).
Proof.
  unfold store. eapply keeps_bind; [apply keeps_get_obj|]. intros o Ho.
  rewrite Ho by done. eapply keeps_bind; [apply keeps_set_array|]. intros _ _.
  apply keeps_set_obj.
Qed.

Lemma keeps_iv_words cfg : keeps (Cipher.iv_words cfg) (fun _ => True).
Proof.
  unfold Cipher.iv_words. destruct (Cipher.iv cfg); [|by apply keeps_ret].
  eapply keeps_bind; [apply keeps_get_obj|]. intros o _.
  eapply keeps_bind; [apply keeps_get_array|]. intros ws _. by apply keeps_ret.
Qed.

Lemma keeps_doEncrypt c key cfg : keeps (Cipher._doEncrypt c r key cfg) (fun _ => True).
Proof.
  unfold Cipher._doEncrypt.
  eapply keeps_bind; [apply keeps_load|]. intros m _.
  eapply keeps_bind; [apply keeps_lift|]. intros m' _.
  eapply keeps_bind; [apply keeps_store|]. intros _ _.
  eapply keeps_bind; [apply keeps_load|]. intros k _.
  eapply keeps_bind; [apply keeps_get_obj|]. intros o Ho. rewrite Ho by done.
  eapply keeps_bind; [apply keeps_get_array|]. intros ws _.
  eapply keeps_bind; [apply keeps_iv_words|]. intros ivw _.
  eapply keeps_bind; [apply keeps_lift|]. intros ws' _.
  apply keeps_set_array.
Qed.

Lemma keeps_doDecrypt c key cfg : keeps (Cipher._doDecrypt c r key cfg) (fun _ => True).
Proof.
  unfold Cipher._doDecrypt.
  eapply keeps_bind; [apply keeps_load|]. intros k _.
  eapply keeps_bind; [apply keeps_get_obj|]. intros o Ho. rewrite Ho by done.
  eapply keeps_bind; [apply keeps_get_array|]. intros ws _.
  eapply keeps_bind; [apply keeps_iv_words|]. intros ivw _.
  eapply keeps_bind; [apply keeps_lift|]. intros ws' _.
  eapply keeps_bind; [apply keeps_set_array|]. intros _ _.
  eapply keeps_bind; [apply keeps_load|]. intros m _.
  eapply keeps_bind; [apply keeps_lift|]. intros m' _.
  apply keeps_store.
Qed.

End frame.

Lemma not_elem_of_dom_fresh_arrays w : arrays w !! fresh (dom (arrays w)) = None.
Proof. apply not_elem_of_dom, is_fresh. Qed.

Lemma not_elem_of_dom_fresh_objects w : objects w !! fresh (dom (objects w)) = None.
Proof. apply not_elem_of_dom, is_fresh. Qed.

(** The world after an object with an array of its own has been made. *)
Definition with_new (w : World) (v : WordArray) : World :=
  mkWorld (<[fresh (dom (arrays w)) := words v]> (arrays w))
          (<[fresh (dom (objects w)) := mkObj (fresh (dom (arrays w))) (sigBytes v)]> (objects w))
          (random w).

Lemma agree_with_new w v : agree w (with_new w v).
Proof.
  split; intros l x Hl; simpl.
  - rewrite lookup_insert_ne; [done|]. intros <-. by rewrite not_elem_of_dom_fresh_arrays in Hl.
  - rewrite lookup_insert_ne; [done|]. intros <-. by rewrite not_elem_of_dom_fresh_objects in Hl.
Qed.

Lemma deref_with_new w v : deref (with_new w v) (fresh (dom (objects w))) = Some v.
Proof.
  unfold deref, with_new. simpl. rewrite lookup_insert_eq. simpl. rewrite lookup_insert_eq.
  simpl. by destruct v.
Qed.

Lemma own_with_new w v :
  own w (fresh (dom (objects w))) (fresh (dom (arrays w))) (with_new w v).
Proof. split; [apply agree_with_new|]. eexists. simpl. apply lookup_insert_eq. Qed.

Lemma new_run w v : WordArray_new v w = (Ok (fresh (dom (objects w))), with_new w v).
Proof. reflexivity. Qed.

Lemma clone_run w r v :
  deref w r = Some v -> WordArray_clone r w = (Ok (fresh (dom (objects w))), with_new w v).
Proof.
  unfold deref. intros H. destruct (objects w !! r) as [o|] eqn:Eo; [|done]. simpl in H.
  destruct (arrays w !! words_ref o) as [ws|] eqn:Ea; [|done]. injection H as <-.
  unfold WordArray_clone. rewrite bind_run. unfold get_obj at 1. rewrite Eo.
  rewrite bind_run. unfold new_obj at 1. cbv zeta. rewrite bind_run.
  unfold get_array at 1. cbn [arrays]. rewrite Ea.
  rewrite bind_run. unfold new_array at 1. cbv zeta. cbn [arrays objects random].
  rewrite bind_run. unfold set_obj at 1. cbn [arrays objects random].
  unfold mret, M_ret, with_new. simpl. by rewrite insert_insert_eq.
Qed.

Lemma clone_fails w r :
  deref w r = None -> exists w', WordArray_clone r w = (Throw TypeError, w') /\ agree w w'.
Proof.
  unfold deref. intros H. unfold WordArray_clone. rewrite bind_run. unfold get_obj at 1.
  destruct (objects w !! r) as [o|] eqn:Eo.
  - simpl in H. destruct (arrays w !! words_ref o) as [ws|] eqn:Ea; [done|].
    rewrite bind_run. unfold new_obj at 1. cbv zeta. rewrite bind_run.
    unfold get_array at 1. cbn [arrays]. rewrite Ea. eexists. split; [done|].
    split; intros l x Hl; simpl; [done|].
    rewrite lookup_insert_ne; [done|]. intros <-. by rewrite not_elem_of_dom_fresh_objects in Hl.
  - eexists. split; [done|]. apply agree_refl.
Qed.

Lemma own_agree w0 r a w : own w0 r a w -> agree w0 w.
Proof. by intros [? _]. Qed.

(** Neither [encrypt] nor [decrypt], however it ends, changes an array or
    an object that existed when it was called. *)
Lemma encrypt_agree c input key cfg w : agree w (Cipher.encrypt c input key cfg w).2.
Proof.
  unfold Cipher.encrypt. rewrite bind_run.
  assert (Hk : forall v, agree w
    ((Cipher._doEncrypt c (fresh (dom (objects w))) key cfg ≫= fun _ => mret (fresh (dom (objects w))))
       (with_new w v)).2).
  { intros v. eapply own_agree.
    eapply (keeps_bind w _ _ _ _ _ (fun _ => True)).
    - apply keeps_doEncrypt; [apply not_elem_of_dom_fresh_objects|apply not_elem_of_dom_fresh_arrays].
    - intros _ _. by apply keeps_ret.
    - apply own_with_new. }
  destruct input as [s|r].
  - rewrite new_run. apply Hk.
  - destruct (deref w r) as [v|] eqn:E.
    + rewrite (clone_run w r v E). apply Hk.
    + destruct (clone_fails w r E) as (w' & -> & H2). done.
Qed.

Lemma decrypt_agree c input key cfg w : agree w (Cipher.decrypt c input key cfg w).2.
Proof.
  unfold Cipher.decrypt. rewrite bind_run.
  assert (Hk : forall v, agree w
    ((Cipher._doDecrypt c (fresh (dom (objects w))) key cfg ≫= fun _ => mret (fresh (dom (objects w))))
       (with_new w v)).2).
  { intros v. eapply own_agree.
    eapply (keeps_bind w _ _ _ _ _ (fun _ => True)).
    - apply keeps_doDecrypt; [apply not_elem_of_dom_fresh_objects|apply not_elem_of_dom_fresh_arrays].
    - intros _ _. by apply keeps_ret.
    - apply own_with_new. }
  destruct input as [s|r].
  - rewrite bind_run. unfold lift at 1.
    destruct (enc_fromCodes WordArray_encoder (char_codes s)) as [v| | |];
      try apply agree_refl.
    rewrite new_run. apply Hk.
  - destruct (deref w r) as [v|] eqn:E.
    + rewrite (clone_run w r v E). apply Hk.
    + destruct (clone_fails w r E) as (w' & -> & H2). done.
Qed.

(** ** What a call returns *)

(** [_doEncrypt] and [_doDecrypt] as functions of the buffers they read. *)
Definition doEncrypt_value (c : BlockCipher) (m k : WordArray) (cfg : Cipher.Config)
    (ivWords : option (list Z)) : outcome WordArray :=
  m' ← pad (Cipher.cfg_padding cfg) m (_blockSize c);
  ws' ← mode_encrypt (Cipher.cfg_mode cfg) c (_init c k) (words m') ivWords;
  Ok (mkWordArray ws' (sigBytes m')).

Definition doDecrypt_value (c : BlockCipher) (ct k : WordArray) (cfg : Cipher.Config)
    (ivWords : option (list Z)) : outcome WordArray :=
  ws' ← mode_decrypt (Cipher.cfg_mode cfg) c (_init c k) (words ct) ivWords;
  unpad (Cipher.cfg_padding cfg) (mkWordArray ws' (sigBytes ct)).

(** The IV that the mode will see: [Some None] when [cfg.iv] is left out,
    [None] when it refers to nothing. *)
Definition iv_value (w : World) (cfg : Cipher.Config) : option (option (list Z)) :=
  match Cipher.iv cfg with
  | None => Some None
  | Some r => v ← deref w r; Some (Some (words v))
  end.

Lemma load_run w r v : deref w r = Some v -> load r w = (Ok v, w).
Proof.
  unfold deref, load. intros H. rewrite bind_run. unfold get_obj.
  destruct (objects w !! r) as [o|]; [|done]. simpl in H. rewrite bind_run. unfold get_array.
  destruct (arrays w !! words_ref o) as [ws|]; [|done]. by injection H as <-.
Qed.

Lemma iv_words_run w cfg x : iv_value w cfg = Some x -> Cipher.iv_words cfg w = (Ok x, w).
Proof.
  unfold iv_value, Cipher.iv_words. destruct (Cipher.iv cfg) as [r|]; [|by intros [= <-]].
  unfold deref. intros H. rewrite bind_run. unfold get_obj.
  destruct (objects w !! r) as [o|]; [|done]. simpl in H. rewrite bind_run. unfold get_array.
  destruct (arrays w !! words_ref o) as [ws|]; [|done]. by injection H as <-.
Qed.

Lemma iv_value_agree w0 w cfg x : agree w0 w -> iv_value w0 cfg = Some x -> iv_value w cfg = Some x.
Proof.
  unfold iv_value. intros Hag. destruct (Cipher.iv cfg) as [r|]; [|done].
  destruct (deref w0 r) as [v|] eqn:E; [|done]. by rewrite (agree_deref w0 w r v Hag E).
Qed.

Section run.
Context (w0 : World) (r a : nat).
Hypothesis Hr : objects w0 !! r = None.
Hypothesis Ha : arrays w0 !! a = None.

(** The call's own object [r] holds the buffer [v]. *)
Definition holds (w : World) (v : WordArray) : Prop :=
  agree w0 w /\ objects w !! r = Some (mkObj a (sigBytes v)) /\ arrays w !! a = Some (words v).

Lemma holds_deref w v : holds w v -> deref w r = Some v.
Proof. intros (_ & Ho & Hw). unfold deref. rewrite Ho. simpl. rewrite Hw. by destruct v. Qed.

Lemma store_holds w v v' :
  holds w v -> exists w', store r v' w = (Ok (), w') /\ holds w' v'.
Proof.
  intros ([Hwa Hwo] & Ho & Hw). unfold store. rewrite bind_run. unfold get_obj. rewrite Ho.
  eexists. split; [reflexivity|]. simpl. split; [split|split].
  - intros l x Hl. simpl. rewrite lookup_insert_ne; [by apply Hwa|]. intros ->. congruence.
  - intros l x Hl. simpl. rewrite lookup_insert_ne; [by apply Hwo|]. intros ->. congruence.
  - simpl. apply lookup_insert_eq.
  - simpl. apply lookup_insert_eq.
Qed.

Lemma set_array_holds w v ws' :
  holds w v -> exists w', set_array a ws' w = (Ok (), w') /\ holds w' (mkWordArray ws' (sigBytes v)).
Proof.
  intros ([Hwa Hwo] & Ho & Hw). eexists. split; [reflexivity|]. split; [split|split]; simpl.
  - intros l x Hl. rewrite lookup_insert_ne; [by apply Hwa|]. intros ->. congruence.
  - done.
  - done.
  - apply lookup_insert_eq.
Qed.

Lemma doEncrypt_run c key cfg w m k ivw ct :
  holds w m -> deref w0 key = Some k -> iv_value w0 cfg = Some ivw ->
  doEncrypt_value c m k cfg ivw = Ok ct ->
  exists w', Cipher._doEncrypt c r key cfg w = (Ok (), w') /\ holds w' ct.
Proof.
  intros Hh Hk Hiv Hval. unfold doEncrypt_value in Hval.
  destruct (pad _ m _) as [m'| | |] eqn:Epad; try done. simpl in Hval.
  destruct (mode_encrypt _ _ _ _ _) as [ws'| | |] eqn:Emode; try done. injection Hval as <-.
  unfold Cipher._doEncrypt.
  rewrite bind_run, (load_run w r m) by (by apply holds_deref).
  rewrite bind_run. unfold lift at 1. rewrite Epad.
  destruct (store_holds w m m' Hh) as (w1 & Hst & Hh1).
  rewrite bind_run, Hst.
  rewrite bind_run, (load_run w1 key k) by (eapply agree_deref; [apply Hh1|done]).
  destruct Hh1 as (Hag1 & Ho1 & Hw1).
  rewrite bind_run. unfold get_obj at 1. rewrite Ho1. cbn [words_ref].
  rewrite bind_run. unfold get_array at 1. rewrite Hw1.
  rewrite bind_run, (iv_words_run w1 cfg ivw) by (by eapply iv_value_agree).
  rewrite bind_run. unfold lift at 1. rewrite Emode.
  apply (set_array_holds w1 m' ws'). by split.
Qed.

Lemma doDecrypt_run c key cfg w ct k ivw p :
  holds w ct -> deref w0 key = Some k -> iv_value w0 cfg = Some ivw ->
  doDecrypt_value c ct k cfg ivw = Ok p ->
  exists w', Cipher._doDecrypt c r key cfg w = (Ok (), w') /\ holds w' p.
Proof.
  intros Hh Hk Hiv Hval. unfold doDecrypt_value in Hval.
  destruct (mode_decrypt _ _ _ _ _) as [ws'| | |] eqn:Emode; try done. simpl in Hval.
  unfold Cipher._doDecrypt.
  rewrite bind_run, (load_run w key k) by (eapply agree_deref; [apply Hh|done]).
  pose proof Hh as (Hag & Ho & Hw).
  rewrite bind_run. unfold get_obj at 1. rewrite Ho. cbn [words_ref].
  rewrite bind_run. unfold get_array at 1. rewrite Hw.
  rewrite bind_run, (iv_words_run w cfg ivw) by (by eapply iv_value_agree).
  rewrite bind_run. unfold lift at 1. rewrite Emode.
  destruct (set_array_holds w ct ws' Hh) as (w1 & Hsa & Hh1).
  rewrite bind_run, Hsa.
  rewrite bind_run, (load_run w1 r _ (holds_deref _ _ Hh1)).
  rewrite bind_run. unfold lift at 1. rewrite Hval.
  apply (store_holds w1 _ p Hh1).
Qed.

End run.

Lemma holds_with_new w v :
  holds w (fresh (dom (objects w))) (fresh (dom (arrays w))) (with_new w v) v.
Proof. split; [apply agree_with_new|]. split; simpl; apply lookup_insert_eq. Qed.

(** On buffers that exist, [encrypt] returns a new buffer holding
    [doEncrypt_value] of the message, and [decrypt] likewise. *)
Lemma encrypt_run c r key cfg w m k ivw ct :
  deref w r = Some m -> deref w key = Some k -> iv_value w cfg = Some ivw ->
  doEncrypt_value c m k cfg ivw = Ok ct ->
  exists w', Cipher.encrypt c (Cipher.Buffer r) key cfg w = (Ok (fresh (dom (objects w))), w') /\
    deref w' (fresh (dom (objects w))) = Some ct /\ agree w w'.
Proof.
  intros Hm Hk Hiv Hval. unfold Cipher.encrypt.
  rewrite bind_run, (clone_run w r m Hm).
  destruct (doEncrypt_run w _ _ (not_elem_of_dom_fresh_objects w) (not_elem_of_dom_fresh_arrays w)
              c key cfg (with_new w m) m k ivw ct (holds_with_new w m) Hk Hiv Hval) as (w' & Hrun & Hh).
  rewrite bind_run, Hrun. eexists. split; [reflexivity|].
  split; [by eapply holds_deref|apply Hh].
Qed.

Lemma decrypt_run c r key cfg w ct k ivw p :
  deref w r = Some ct -> deref w key = Some k -> iv_value w cfg = Some ivw ->
  doDecrypt_value c ct k cfg ivw = Ok p ->
  exists w', Cipher.decrypt c (Cipher.Buffer r) key cfg w = (Ok (fresh (dom (objects w))), w') /\
    deref w' (fresh (dom (objects w))) = Some p /\ agree w w'.
Proof.
  intros Hm Hk Hiv Hval. unfold Cipher.decrypt.
  rewrite bind_run, (clone_run w r ct Hm).
  destruct (doDecrypt_run w _ _ (not_elem_of_dom_fresh_objects w) (not_elem_of_dom_fresh_arrays w)
              c key cfg (with_new w ct) ct k ivw p (holds_with_new w ct) Hk Hiv Hval) as (w' & Hrun & Hh).
  rewrite bind_run, Hrun. eexists. split; [reflexivity|].
  split; [by eapply holds_deref|apply Hh].
Qed.

Lemma get_fmap_toInt32 ws j : JS.get (JS.toInt32 <$> ws) j = JS.toInt32 (JS.get ws j).
Proof.
  unfold JS.get. destruct (j <? 0); [done|]. rewrite list_lookup_fmap.
  by destruct (ws !! Z.to_nat j).
Qed.

Lemma bytes_of_toInt32 ws s : s <= 2 ^ 32 -> bytes_of (JS.toInt32 <$> ws) s = bytes_of ws s.
Proof.
  intros Hs. apply bytes_of_ext. intros i Hi. rewrite !byteAt_split by lia.
  rewrite get_fmap_toInt32. apply lane_toInt32. zdm.
Qed.

(** The buffer-level round trip for PKCS #5/7 padding and CBC. *)
Lemma roundtrip_value c m k cfg iv :
  Cipher.cfg_padding cfg = C_pad_PKCS5 -> Cipher.cfg_mode cfg = C_mode_CBC ->
  1 <= _blockSize c <= 63 -> block_inverse c (_init c k) ->
  0 <= sigBytes m -> sigBytes m + _blockSize c * 4 < 2 ^ 32 ->
  exists ct p,
    doEncrypt_value c m k cfg (Some iv) = Ok ct /\
    doDecrypt_value c ct k cfg (Some iv) = Ok p /\
    sigBytes p = sigBytes m /\ sig_bytes p = sig_bytes m.
Proof.
  intros Hpad Hmode Hbs Hinv Hs Hlt.
  destruct (unpad_pad m (_blockSize c) Hs Hbs Hlt) as (r & Hp & Hsig & Hb & _ & _).
  destruct (pad_spec m (_blockSize c) Hs Hbs Hlt) as (r' & Hp' & _ & Hc & _).
  rewrite Hp in Hp'. injection Hp' as <-.
  destruct (nPaddingBytes_spec (sigBytes m) (_blockSize c * 4) Hs ltac:(lia)) as (_ & Hn & Hmod).
  set (n := PKCS5.nPaddingBytes (sigBytes m) (_blockSize c * 4)) in *.
  destruct Hc as (_ & Hlen & _).
  apply Z.mod_divide in Hmod as [q Hq]; [|lia].
  assert (Hq0 : 0 <= q) by nia.
  assert (Hlen' : Z.of_nat (length (words r)) = Z.of_nat (Z.to_nat q) * _blockSize c).
  { rewrite Hlen, Hsig, Hq, Z2Nat.id by done. unfold JS.ceil_div4.
    replace (- (q * (_blockSize c * 4))) with (- (q * _blockSize c) * 4) by lia.
    rewrite Z.div_mul by done. lia. }
  destruct (cbc_roundtrip c (_init c k) iv ltac:(lia) Hinv (words r) (Z.to_nat q) Hlen')
    as (cs & Henc & Hcl & Hdec).
  exists (mkWordArray cs (sigBytes r)), (mkWordArray (JS.toInt32 <$> words r) (sigBytes m)).
  unfold doEncrypt_value, doDecrypt_value. rewrite Hpad, Hmode. cbn [pad unpad C_pad_PKCS5 C_mode_CBC mode_encrypt mode_decrypt].
  rewrite Hp. cbn -[CBC.encrypt CBC.decrypt PKCS5.unpad]. rewrite Henc.
  cbn -[CBC.encrypt CBC.decrypt PKCS5.unpad]. rewrite Hdec. cbn -[PKCS5.unpad].
  assert (Hlast : bytes_of (JS.toInt32 <$> words r) (sigBytes m + n) !! Z.to_nat (sigBytes m + n - 1) = Some n).
  { rewrite bytes_of_toInt32 by lia. rewrite <- Hsig.
    change (bytes_of (words r) (sigBytes r)) with (sig_bytes r). rewrite Hb.
    rewrite lookup_app_r by (apply Nat2Z.inj_le; rewrite length_sig_bytes; lia).
    apply lookup_replicate_2.
    assert (Z.of_nat (length (sig_bytes m)) = sigBytes m) by (rewrite length_sig_bytes; lia). lia. }
  split; [done|]. split.
  - f_equal. rewrite (unpad_padded (mkWordArray (JS.toInt32 <$> words r) (sigBytes r)) (sigBytes m) n);
      simpl; try lia; try done.
    rewrite Hq. replace (q * (_blockSize c * 4)) with (q * _blockSize c * 4) by lia. apply Z_mod_mult.
  - split; [done|].
    change (sig_bytes (mkWordArray (JS.toInt32 <$> words r) (sigBytes m)))
      with (bytes_of (JS.toInt32 <$> words r) (sigBytes m)).
    rewrite bytes_of_toInt32 by lia.
    rewrite (bytes_of_take _ _ (sigBytes r)) by lia.
    change (bytes_of (words r) (sigBytes r)) with (sig_bytes r). rewrite Hb.
    rewrite take_app_length'; [done|]. apply Nat2Z.inj. rewrite length_sig_bytes. lia.
Qed.

(** ** core.js: the streaming hash template *)

(** Modelled from the spec: the concrete hashes (MD5, SHA-1, ...) are not
    part of these files.  Section 6 gives their contract: a block size in
    words, [processBlock(state, block)] and [finalize(state)]; [_doReset]
    installs the initial digest words.  [_doHashBlock(offset)] applies
    [processBlock] to the [blockSize] words of the pending message at
    [offset]; [_doCompute] is [finalize], and its result is the digest that
    [_hash] then holds. *)
Record HashAlgo : Type := mkHashAlgo {
  blockSize : Z;
  initHash : list Z;
  processBlock : list Z -> list Z -> list Z;
  finalize : list Z -> WordArray -> Z -> outcome WordArray
}.

(** The fields of a hasher instance. *)
Record Hasher : Type := mkHasher {
  _hash : WordArray;
  _message : WordArray;
  _length : Z
}.

(** A [messageUpdate] or key argument: a string or a word array. *)
Inductive Data : Type := Str (s : string) | Wa (w : WordArray).

Module Hash.

(** [reset]: new [_hash] and [_message], [_length = 0], [_doReset()], then
    [hash.sigBytes = hash.words.length * 4]. *)
Definition reset (algo : HashAlgo) : Hasher :=
  {| _hash := mkWordArray (initHash algo) (Z.of_nat (length (initHash algo)) * 4);
     _message := WordArray_create None None;
     _length := 0 |}.

Definition _doHashBlock (algo : HashAlgo) (offset : Z) (h : Hasher) : Hasher :=
  {| _hash := mkWordArray
                (processBlock algo (words (_hash h))
                   (read_block (words (_message h)) offset (blockSize algo)))
                (sigBytes (_hash h));
     _message := _message h;
     _length := _length h |}.

(** [for (offset = 0; offset < nWordsReady; offset += blockSize)] *)
Fixpoint hash_loop (fuel : nat) (algo : HashAlgo) (nWordsReady offset : Z) (h : Hasher)
    : outcome Hasher :=
  if offset <? nWordsReady then
    match fuel with
    | O => Diverge
    | S fuel' =>
        hash_loop fuel' algo nWordsReady (offset + blockSize algo) (_doHashBlock algo offset h)
    end
  else Ok h.

(** [_hashBlocks].  With a block size of 0, [nBlocksReady] is [NaN] on an
    empty pending message, which is false, so that nothing is done;
    otherwise it is infinite, [nWordsReady] is [NaN], and [sigBytes] is set
    to [NaN]. *)
Definition _hashBlocks (algo : HashAlgo) (h : Hasher) : outcome Hasher :=
  let sigBytes := sigBytes (_message h) in
  if blockSize algo =? 0 then (if sigBytes =? 0 then Ok h else NonIntegral)
  else
    let nBlocksReady := sigBytes / (blockSize algo * 4) in
    if nBlocksReady =? 0 then Ok h
    else
      let nWordsReady := nBlocksReady * blockSize algo in
      h' ← hash_loop (Z.to_nat nWordsReady) algo nWordsReady 0 h;
      Ok {| _hash := _hash h';
            _message := mkWordArray (drop (Z.to_nat nWordsReady) (words (_message h')))
                                    (sigBytes - nWordsReady * 4);
            _length := _length h' |}.

(** A string is decoded as UTF-8. *)
Definition to_wordarray (d : Data) : WordArray :=
  match d with Str s => Utf8.fromString s | Wa w => w end.

(** [update(messageUpdate)] *)
Definition update (algo : HashAlgo) (h : Hasher) (messageUpdate : Data) : outcome Hasher :=
  let mu := to_wordarray messageUpdate in
  msg ← concat (_message h) mu;
  _hashBlocks algo {| _hash := _hash h; _message := msg; _length := _length h + sigBytes mu |}.

(** [if (messageUpdate)]: [undefined] and the empty string are false. *)
Definition truthy (d : option Data) : bool :=
  match d with
  | None => false
  | Some (Str s) => negb (String.eqb s "")
  | Some (Wa _) => true
  end.

(** [compute(messageUpdate)] on an instance: the digest, and the hasher
    after its reset. *)
Definition compute (algo : HashAlgo) (h : Hasher) (messageUpdate : option Data)
    : outcome (WordArray * Hasher) :=
  h ← (if truthy messageUpdate then update algo h (default (Str "") messageUpdate) else Ok h);
  digest ← finalize algo (words (_hash h)) (_message h) (_length h);
  Ok (digest, reset algo).

End Hash.

(** ** algo-hmac.js *)

Record HMACState : Type := mkHMAC {
  _hasher : Hasher;
  _oKey : WordArray;
  _iKey : WordArray
}.

Module HMAC.

(** [for (i = 0; i < hasherBlockSize; i++) keyWords[i] ^= constant] *)
Definition xor_pad (keyWords : list Z) (hasherBlockSize constant : Z) : list Z :=
  fold_left (fun ws i => JS.put ws i (JS.xor (JS.get ws i) constant))
            (seqZ 0 hasherBlockSize) keyWords.

(** [reset]: [hasher.reset(); hasher.update(this._iKey)] *)
Definition reset (algo : HashAlgo) (st : HMACState) : outcome HMACState :=
  h ← Hash.update algo (Hash.reset algo) (Wa (_iKey st));
  Ok {| _hasher := h; _oKey := _oKey st; _iKey := _iKey st |}.

(** [init(hasher, key)] *)
Definition init (algo : HashAlgo) (key : Data) : outcome HMACState :=
  let hasher := Hash.reset algo in
  let key := Hash.to_wordarray key in
  let hasherBlockSize := blockSize algo in
  let hasherBlockSizeBytes := hasherBlockSize * 4 in
  '(key, hasher) ← (if hasherBlockSizeBytes <? sigBytes key
                    then Hash.compute algo hasher (Some (Wa key))
                    else Ok (key, hasher));
  let oKey := mkWordArray (xor_pad (words key) hasherBlockSize 0x5c5c5c5c) hasherBlockSizeBytes in
  let iKey := mkWordArray (xor_pad (words key) hasherBlockSize 0x36363636) hasherBlockSizeBytes in
  reset algo {| _hasher := hasher; _oKey := oKey; _iKey := iKey |}.

(** [update(messageUpdate)] *)
Definition update (algo : HashAlgo) (st : HMACState) (messageUpdate : Data) : outcome HMACState :=
  h ← Hash.update algo (_hasher st) messageUpdate;
  Ok {| _hasher := h; _oKey := _oKey st; _iKey := _iKey st |}.

(** [compute(messageUpdate)]: the MAC, and the instance after its reset. *)
Definition compute (algo : HashAlgo) (st : HMACState) (messageUpdate : option Data)
    : outcome (WordArray * HMACState) :=
  st ← (if Hash.truthy messageUpdate then update algo st (default (Str "") messageUpdate) else Ok st);
  '(inner, hasher) ← Hash.compute algo (_hasher st) None;
  outerInput ← concat (clone_value (_oKey st)) inner;
  '(hmac, hasher) ← Hash.compute algo hasher (Some (Wa outerInput));
  st ← reset algo {| _hasher := hasher; _oKey := _oKey st; _iKey := _iKey st |};
  Ok (hmac, st).

End HMAC.

(** A toy hash for examples: the state is one word, a block is folded in by
    XOR, and the digest is the state XOR-ed with the pending words and the
    length. *)
Definition xor_hash (bs : Z) : HashAlgo :=
  {| blockSize := bs;
     initHash := [0x01234567];
     processBlock := fun st blk => [fold_left JS.xor blk (JS.get st 0)];
     finalize := fun st pending len =>
       Ok (mkWordArray [fold_left JS.xor (words pending) (JS.xor (JS.get st 0) len)] 4) |}.

Example hash_update_buffers_partial_block :
  Hash.update (xor_hash 2) (Hash.reset (xor_hash 2)) (Wa (mkWordArray [1; 2; 0x03040000] 10))
  = Ok (mkHasher (mkWordArray [0x01234564] 4) (mkWordArray [0x03040000] 2) 10).
Proof. reflexivity. Qed.

(** ** Removing processed words from the front *)

Lemma get_drop k ws j : 0 <= j -> JS.get (drop k ws) j = JS.get ws (j + Z.of_nat k).
Proof.
  intros Hj. unfold JS.get. destruct (Z.ltb_spec j 0), (Z.ltb_spec (j + Z.of_nat k) 0); try lia.
  rewrite lookup_drop. do 2 f_equal. lia.
Qed.

Lemma drop_put k ws i v :
  (k <= length ws)%nat -> Z.of_nat k <= i ->
  drop k (JS.put ws i v) = JS.put (drop k ws) (i - Z.of_nat k) v.
Proof.
  intros Hk Hi. apply list_eq_get.
  - apply Nat2Z.inj. rewrite length_drop, Nat2Z.inj_sub.
    + rewrite !length_put by lia. rewrite length_drop. lia.
    + apply Nat2Z.inj_le. rewrite length_put by lia. lia.
  - intros j Hj. rewrite get_drop, !get_put, get_drop by lia.
    repeat case_decide; try lia; done.
Qed.

Lemma clamped_drop ws s k :
  clamped ws s -> 0 <= k -> 4 * k <= s -> clamped (drop (Z.to_nat k) ws) (s - 4 * k).
Proof.
  intros (Hs & Hlen & Hlast) Hk Hks. split; [lia|]. split.
  - rewrite length_drop. zdm.
  - replace ((s - 4 * k) mod 4) with (s mod 4) by zdm.
    replace ((s - 4 * k) / 4) with (s / 4 - k) by zdm.
    intros Hne. rewrite get_drop by zdm. rewrite Z2Nat.id by done.
    replace (s / 4 - k + k) with (s / 4) by lia. by apply Hlast.
Qed.

Lemma push_byte_drop ws s k b :
  (k <= length ws)%nat -> 4 * Z.of_nat k <= s -> s < 2 ^ 32 ->
  push_byte (drop k ws, s - 4 * Z.of_nat k) b =
  (drop k (push_byte (ws, s) b).1, (push_byte (ws, s) b).2 - 4 * Z.of_nat k).
Proof.
  intros Hk Hks Hlt. unfold push_byte. cbn [fst snd].
  rewrite !ushr2, !rem4 by lia.
  replace ((s - 4 * Z.of_nat k) mod 4) with (s mod 4) by zdm.
  replace ((s - 4 * Z.of_nat k) / 4) with (s / 4 - Z.of_nat k) by zdm.
  f_equal; [|lia]. rewrite drop_put by zdm. f_equal.
  rewrite get_drop by zdm. do 2 f_equal. lia.
Qed.

Lemma length_push_byte ws s b :
  0 <= s < 2 ^ 32 -> (length ws <= length (push_byte (ws, s) b).1)%nat.
Proof.
  intros Hs. unfold push_byte. cbn [fst]. rewrite ushr2 by done.
  apply Nat2Z.inj_le. rewrite length_put by zdm. lia.
Qed.

Lemma fold_push_drop bs : forall ws s k,
  (k <= length ws)%nat -> 4 * Z.of_nat k <= s -> s + Z.of_nat (length bs) <= 2 ^ 32 ->
  fold_left push_byte bs (drop k ws, s - 4 * Z.of_nat k) =
  (drop k (fold_left push_byte bs (ws, s)).1, (fold_left push_byte bs (ws, s)).2 - 4 * Z.of_nat k).
Proof.
  induction bs as [|b bs IH]; intros ws s k Hk Hks Hlt; cbn [fold_left length] in *; [done|].
  rewrite Nat2Z.inj_succ in Hlt.
  rewrite push_byte_drop by lia.
  pose proof (length_push_byte ws s b ltac:(lia)) as Hl.
  destruct (push_byte (ws, s) b) as [ws1 s1] eqn:E. cbn [fst snd] in *.
  assert (s1 = s + 1) as -> by (unfold push_byte in E; by injection E).
  apply IH; lia.
Qed.

(** ** The blocks that [_hashBlocks] feeds to the primitive *)

(** Blocks [j], [j+1], ..., [n-1] of a word array. *)
Definition blocks (bs : Z) (ws : list Z) (j n : Z) : list (list Z) :=
  (fun i => read_block ws (i * bs) bs) <$> seqZ j (n - j).

Definition absorb (algo : HashAlgo) (h : Hasher) (blks : list (list Z)) : Hasher :=
  {| _hash := mkWordArray (fold_left (processBlock algo) blks (words (_hash h))) (sigBytes (_hash h));
     _message := _message h; _length := _length h |}.

Lemma hash_loop_spec algo (r : nat) : forall (j : Z) fuel h,
  1 <= blockSize algo -> 0 <= j -> (r <= fuel)%nat ->
  Hash.hash_loop fuel algo ((j + Z.of_nat r) * blockSize algo) (j * blockSize algo) h =
  Ok (absorb algo h (blocks (blockSize algo) (words (_message h)) j (j + Z.of_nat r))).
Proof.
  induction r as [|r IH]; intros j fuel h Hbs Hj Hf.
  - rewrite Z.add_0_r. unfold blocks. rewrite Z.sub_diag. simpl.
    destruct fuel; simpl; destruct (Z.ltb_spec (j * blockSize algo) (j * blockSize algo)); try lia.
    all: by destruct h as [[] ? ?].
  - destruct fuel as [|fuel]; [lia|]. cbn [Hash.hash_loop].
    destruct (Z.ltb_spec (j * blockSize algo) ((j + Z.of_nat (S r)) * blockSize algo)); [|nia].
    replace (j * blockSize algo + blockSize algo) with ((j + 1) * blockSize algo) by lia.
    replace (j + Z.of_nat (S r)) with (j + 1 + Z.of_nat r) by lia.
    rewrite IH by lia. f_equal. unfold absorb, blocks, Hash._doHashBlock.
    cbn [_hash _message _length words sigBytes].
    replace (j + 1 + Z.of_nat r - j) with (Z.succ (Z.of_nat r)) by lia.
    rewrite (seqZ_cons j) by lia. rewrite Z.pred_succ. cbn [fmap list_fmap fold_left].
    replace (j + 1 + Z.of_nat r - (j + 1)) with (Z.of_nat r) by lia.
    replace (Z.succ j) with (j + 1) by lia. done.
Qed.

Lemma blocks_app bs ws j m n :
  j <= m <= n -> blocks bs ws j n = blocks bs ws j m ++ blocks bs ws m n.
Proof.
  intros H. unfold blocks. replace (n - j) with ((m - j) + (n - m)) by lia.
  rewrite seqZ_app, fmap_app by lia. do 3 f_equal; lia.
Qed.

Lemma blocks_ext bs ws ws' j n :
  0 <= bs -> 0 <= j ->
  (forall i, 0 <= i < n * bs -> JS.get ws i = JS.get ws' i) ->
  blocks bs ws j n = blocks bs ws' j n.
Proof.
  intros Hbs Hj H. unfold blocks. apply list_fmap_ext. intros k i Hk.
  apply lookup_seqZ in Hk as [-> Hlt]. apply read_block_ext. intros x Hx. apply H. nia.
Qed.

Lemma blocks_drop bs ws (m : nat) j n :
  0 <= bs -> 0 <= j ->
  blocks bs (drop (Z.to_nat (Z.of_nat m * bs)) ws) j n = blocks bs ws (Z.of_nat m + j) (Z.of_nat m + n).
Proof.
  intros Hbs Hj. unfold blocks. replace (Z.of_nat m + n - (Z.of_nat m + j)) with (n - j) by lia.
  rewrite <- (fmap_add_seqZ (Z.of_nat m) j). rewrite <- list_fmap_compose.
  apply list_fmap_ext. intros k i Hk. simpl.
  apply lookup_seqZ in Hk as [-> Hlt].
  unfold read_block. apply list_fmap_ext. intros k' x Hx. apply lookup_seqZ in Hx as [-> Hlt'].
  rewrite get_drop by nia. f_equal. nia.
Qed.

(** The hasher after [bytes] have been appended to the pending message and
    every complete block has been fed to the primitive. *)
Definition absorb_bytes (algo : HashAlgo) (h : Hasher) (bytes : list Z) : Hasher :=
  let r := fold_left push_byte bytes (words (_message h), sigBytes (_message h)) in
  let n := r.2 / (blockSize algo * 4) in
  {| _hash := _hash (absorb algo h (blocks (blockSize algo) r.1 0 n));
     _message := mkWordArray (drop (Z.to_nat (n * blockSize algo)) r.1)
                             (r.2 - n * blockSize algo * 4);
     _length := _length h + Z.of_nat (length bytes) |}.

Lemma hashBlocks_spec algo h :
  1 <= blockSize algo -> 0 <= sigBytes (_message h) ->
  let n := sigBytes (_message h) / (blockSize algo * 4) in
  Hash._hashBlocks algo h =
  Ok {| _hash := _hash (absorb algo h (blocks (blockSize algo) (words (_message h)) 0 n));
        _message := mkWordArray (drop (Z.to_nat (n * blockSize algo)) (words (_message h)))
                                (sigBytes (_message h) - n * blockSize algo * 4);
        _length := _length h |}.
Proof.
  intros Hbs Hs n. unfold Hash._hashBlocks. fold n.
  destruct (Z.eqb_spec (blockSize algo) 0); [lia|].
  assert (Hn : 0 <= n) by (apply Z.div_pos; lia).
  destruct (Z.eqb_spec n 0) as [E|E].
  - rewrite E. unfold blocks. simpl. rewrite Z.sub_0_r.
    by destruct h as [[] [] ?].
  - pose proof (hash_loop_spec algo (Z.to_nat n) 0 (Z.to_nat (n * blockSize algo)) h Hbs ltac:(lia)) as H.
    rewrite Z.add_0_l, Z.mul_0_l, Z2Nat.id in H by done.
    rewrite H by nia. done.
Qed.

Lemma update_absorb algo h a :
  1 <= blockSize algo ->
  clamped (words (_message h)) (sigBytes (_message h)) ->
  0 <= sigBytes a -> sigBytes (_message h) + sigBytes a < 2 ^ 32 ->
  Hash.update algo h (Wa a) = Ok (absorb_bytes algo h (sig_bytes a)).
Proof.
  intros Hbs Hc Ha Hlt. unfold Hash.update. cbn [Hash.to_wordarray].
  assert (Hs0 : 0 <= sigBytes (_message h)) by apply Hc.
  rewrite concat_clamped; [|done|lia]. cbn [mbind outcome_mbind outcome_bind].
  pose proof (fold_push_spec (sig_bytes a) _ _ Hc) as Hf.
  rewrite length_sig_bytes in Hf.
  specialize (Hf ltac:(lia) ltac:(apply sig_bytes_bytes; lia)).
  destruct Hf as (Hs2 & _).
  rewrite hashBlocks_spec; cbn [_message _hash _length words sigBytes]; [|done|lia].
  unfold absorb_bytes. f_equal. f_equal. rewrite length_sig_bytes. lia.
Qed.

Lemma absorb_bytes_message algo h bytes :
  1 <= blockSize algo ->
  clamped (words (_message h)) (sigBytes (_message h)) ->
  sigBytes (_message h) + Z.of_nat (length bytes) <= 2 ^ 32 -> Forall is_byte bytes ->
  let m := _message (absorb_bytes algo h bytes) in
  clamped (words m) (sigBytes m) /\
  sigBytes m = (sigBytes (_message h) + Z.of_nat (length bytes)) mod (blockSize algo * 4) /\
  sig_bytes m = drop (Z.to_nat (sigBytes (_message h) + Z.of_nat (length bytes) - sigBytes m))
                     (sig_bytes (_message h) ++ bytes).
Proof.
  intros Hbs Hc Hlt Hb. cbn [absorb_bytes _message words sigBytes].
  destruct (fold_push_spec bytes _ _ Hc Hlt Hb) as (Hs2 & Hc2 & _ & Hbytes).
  destruct (fold_left push_byte bytes _) as [W S]. cbn [fst snd] in *. subst S.
  set (S := sigBytes (_message h) + Z.of_nat (length bytes)) in *.
  set (n := S / (blockSize algo * 4)).
  assert (HS : 0 <= S) by (destruct Hc; lia).
  assert (Hn : 0 <= n) by (apply Z.div_pos; lia).
  assert (Hn4 : n * blockSize algo * 4 <= S).
  { pose proof (Z.mul_div_le S (blockSize algo * 4) ltac:(lia)). unfold n. lia. }
  split; [|split].
  - replace (S - n * blockSize algo * 4) with (S - 4 * (n * blockSize algo)) by lia.
    apply clamped_drop; [done|nia|lia].
  - unfold n. rewrite Z.mod_eq by lia. lia.
  - change (sig_bytes (mkWordArray ?w ?s)) with (bytes_of w s).
    change (sig_bytes (_message h)) with (bytes_of (words (_message h)) (sigBytes (_message h))).
    rewrite <- Hbytes. replace (S - (S - n * blockSize algo * 4)) with (n * blockSize algo * 4) by lia.
    unfold bytes_of.
    replace S with (n * blockSize algo * 4 + (S - n * blockSize algo * 4)) at 2 by lia.
    rewrite seqZ_app, fmap_app by lia.
    rewrite drop_app_length' by (rewrite length_fmap, length_seqZ; lia).
    rewrite (Z.add_comm 0). rewrite <- (fmap_add_seqZ (n * blockSize algo * 4) 0).
    rewrite <- list_fmap_compose. apply list_fmap_ext. intros k i Hk. simpl.
    apply lookup_seqZ in Hk as [-> Hk]. destruct Hc2 as (_ & HlenW & _).
    rewrite !byteAt_split by lia.
    rewrite get_drop by zdm. rewrite Z2Nat.id by nia.
    replace ((n * blockSize algo * 4 + (0 + Z.of_nat k)) mod 4) with ((0 + Z.of_nat k) mod 4) by zdm.
    f_equal. f_equal. zdm.
Qed.

Lemma absorb_bytes_app algo h A B :
  1 <= blockSize algo ->
  clamped (words (_message h)) (sigBytes (_message h)) ->
  sigBytes (_message h) + Z.of_nat (length A) + Z.of_nat (length B) <= 2 ^ 32 ->
  Forall is_byte A -> Forall is_byte B ->
  absorb_bytes algo (absorb_bytes algo h A) B = absorb_bytes algo h (A ++ B).
Proof.
  intros Hbs Hc Hlt HA HB.
  destruct (fold_push_spec A _ _ Hc ltac:(lia) HA) as (HS1 & Hc1 & _ & _).
  unfold absorb_bytes. cbn [_message _hash _length words sigBytes absorb].
  rewrite fold_left_app.
  destruct (fold_left push_byte A _) as [W1 S1] eqn:E1. cbn [fst snd] in *.
  set (bs := blockSize algo) in *.
  set (n1 := S1 / (bs * 4)).
  assert (HS1' : 0 <= S1) by (destruct Hc1; lia).
  assert (Hn1 : 0 <= n1) by (apply Z.div_pos; lia).
  assert (Hn14 : n1 * bs * 4 <= S1).
  { pose proof (Z.mul_div_le S1 (bs * 4) ltac:(lia)). unfold n1. lia. }
  assert (HlW1 : Z.of_nat (length W1) = JS.ceil_div4 S1) by apply Hc1.
  destruct (fold_push_spec B W1 S1 Hc1 ltac:(lia) HB) as (HS12 & Hc12 & Hpre & _).
  pose proof (fold_push_drop B W1 S1 (Z.to_nat (n1 * bs))) as Hd.
  rewrite Z2Nat.id in Hd by nia.
  replace (S1 - n1 * bs * 4) with (S1 - 4 * (n1 * bs)) by lia.
  rewrite Hd by (try lia; zdm). clear Hd.
  destruct (fold_left push_byte B (W1, S1)) as [W12 S12] eqn:E12. cbn [fst snd] in *.
  set (n2 := (S12 - 4 * (n1 * bs)) / (bs * 4)).
  set (n := S12 / (bs * 4)).
  assert (Hn : n = n1 + n2).
  { unfold n, n2. replace (S12 - 4 * (n1 * bs)) with (S12 + (- n1) * (bs * 4)) by lia.
    rewrite Z.div_add by lia. lia. }
  assert (Hn2 : 0 <= n2) by (apply Z.div_pos; lia).
  rewrite length_app, Nat2Z.inj_add.
  f_equal; [|f_equal|lia].
  - f_equal. rewrite (blocks_app bs W12 0 n1 n) by lia. rewrite fold_left_app. f_equal.
    + pose proof (blocks_drop bs W12 (Z.to_nat n1) 0 n2 ltac:(lia) ltac:(lia)) as Hbd.
      rewrite Z2Nat.id in Hbd by done. rewrite Hbd. f_equal; lia.
    + f_equal. apply blocks_ext; [lia|lia|]. intros i Hi. symmetry. apply Hpre. zdm.
  - rewrite drop_drop. f_equal. rewrite Hn. nia.
  - rewrite Hn. lia.
Qed.

(** ** Base64 *)

(** Modelled from the spec: the Base64 encoder is not part of these files;
    section 4.1 asks for the standard alphabet.  Text is decoded up to the
    first [=]; a character outside the alphabet, about which the contract
    says nothing, counts as 0. *)
Module Base64.

Definition alphabet_char (v : Z) : Z :=
  if v <? 26 then 65 + v
  else if v <? 52 then 97 + (v - 26)
  else if v <? 62 then 48 + (v - 52)
  else if v =? 62 then 43 else 47.

Definition char_value (c : Z) : Z :=
  if (65 <=? c) && (c <=? 90) then c - 65
  else if (97 <=? c) && (c <=? 122) then c - 97 + 26
  else if (48 <=? c) && (c <=? 57) then c - 48 + 52
  else if c =? 43 then 62
  else if c =? 47 then 63 else 0.

Fixpoint encode (bytes : list Z) : list Z :=
  match bytes with
  | [] => []
  | [a] => [alphabet_char (a / 4); alphabet_char (a mod 4 * 16); 61; 61]
  | [a; b] =>
      [alphabet_char (a / 4); alphabet_char (a mod 4 * 16 + b / 16);
       alphabet_char (b mod 16 * 4); 61]
  | a :: b :: c :: rest =>
      alphabet_char (a / 4) :: alphabet_char (a mod 4 * 16 + b / 16)
      :: alphabet_char (b mod 16 * 4 + c / 64) :: alphabet_char (c mod 64) :: encode rest
  end.

Fixpoint until_padding (cs : list Z) : list Z :=
  match cs with
  | [] => []
  | c :: cs' => if c =? 61 then [] else c :: until_padding cs'
  end.

Fixpoint decode_values (vs : list Z) : list Z :=
  match vs with
  | a :: b :: c :: d :: rest =>
      (a * 4 + b / 16) :: (b mod 16 * 16 + c / 4) :: (c mod 4 * 64 + d) :: decode_values rest
  | [a; b; c] => [a * 4 + b / 16; b mod 16 * 16 + c / 4]
  | [a; b] => [a * 4 + b / 16]
  | _ => []
  end.

Definition decode (cs : list Z) : list Z := decode_values (char_value <$> until_padding cs).

Definition encoder : Encoder :=
  {| enc_toCodes := fun w => encode (sig_bytes w);
     enc_fromCodes := fun cs => Ok (Latin1.fromCodes (decode cs)) |}.

End Base64.

Example base64_encode : enc_toCodes Base64.encoder (mkWordArray [0x00010200] 3) = char_codes "AAEC".
Proof. reflexivity. Qed.

Example base64_roundtrip :
  enc_fromCodes Base64.encoder (enc_toCodes Base64.encoder (Latin1.fromString "Salted__12"))
  = Ok (Latin1.fromString "Salted__12").
Proof. reflexivity. Qed.

(** ** cipher-core.js: cipher params and the OpenSSL format *)

(** The formatting strategies of the library. *)
Inductive FormatName : Type := OpenSSLFormat.

Module CipherParams.

(** A collection of cipher parameters; [None] is a property that is not
    set.  [B] is how a word array is given: a value, or a reference. *)
Record t (B : Type) : Type := mk {
  rawCiphertext : option B;
  key : option B;
  iv : option B;
  salt : option B;
  formatter : option FormatName
}.
Arguments mk {B}.
Arguments rawCiphertext {B}.
Arguments key {B}.
Arguments iv {B}.
Arguments salt {B}.
Arguments formatter {B}.

End CipherParams.

Module OpenSSL.

(** [[0x53616c74, 0x65645f5f]], the bytes of ["Salted__"]. *)
Definition magic : list Z := [0x53616c74; 0x65645f5f].

(** The buffer [openSSLStr] that [toString] builds before it encodes it. *)
Definition openSSLStr (params : CipherParams.t WordArray) : outcome WordArray :=
  match CipherParams.rawCiphertext params with
  | None => Throw TypeError
  | Some rawCiphertext =>
      match CipherParams.salt params with
      | Some salt =>
          x ← concat (WordArray_create (Some magic) None) salt;
          concat x rawCiphertext
      | None => Ok rawCiphertext
      end
  end.

(** [toString(params)]; [base64] stands for [C_enc_Base64]. *)
Definition toString (base64 : Encoder) (params : CipherParams.t WordArray) : outcome (list Z) :=
  x ← openSSLStr params; Ok (enc_toCodes base64 x).

(** [fromString(openSSLStr)]: [slice(2, 4)] for the salt, [splice(0, 4)]
    and [sigBytes -= 16] for the rest. *)
Definition fromString (base64 : Encoder) (openSSLStr : list Z)
    : outcome (CipherParams.t WordArray) :=
  rawCiphertext ← enc_fromCodes base64 openSSLStr;
  let rawCiphertextWords := words rawCiphertext in
  if (JS.get rawCiphertextWords 0 =? 0x53616c74) && (JS.get rawCiphertextWords 1 =? 0x65645f5f)
  then
    let salt := WordArray_create (Some (take 2 (drop 2 rawCiphertextWords))) None in
    Ok (CipherParams.mk
          (Some (mkWordArray (drop 4 rawCiphertextWords) (sigBytes rawCiphertext - 16)))
          None None (Some salt) None)
  else Ok (CipherParams.mk (Some rawCiphertext) None None None None).

End OpenSSL.

Example openssl_salted :
  (s ← OpenSSL.toString Base64.encoder
         (CipherParams.mk (Some (mkWordArray [0x00010203; 0x04050607] 8)) None None
                          (Some (mkWordArray [0x01234567; 0x89abcdef] 8)) None);
   OpenSSL.fromString Base64.encoder s)
  = Ok (CipherParams.mk (Some (mkWordArray [0x00010203; 0x04050607] 8)) None None
                        (Some (mkWordArray [0x01234567; JS.toInt32 0x89abcdef] 8)) None).
Proof. reflexivity. Qed.

(** ** cipher-core.js: the OpenSSL key derivation and password-based encryption *)

(** Modelled from the spec: [C_algo_EvpKDF] is not part of these files.
    Section 4.6 gives its contract: [compute(password, salt, {keySize})] is
    a function of the password, the salt and the size, and returns [keySize]
    words. *)
Definition EvpKDF : Type := string -> WordArray -> Z -> WordArray.

(** A key derivation strategy: [execute(cipher, password, salt)]. *)
Definition KDF : Type := BlockCipher -> string -> option nat -> M (CipherParams.t nat).

(** [array.slice(start)]: a negative [start] counts from the end. *)
Definition slice_from (ws : list Z) (start : Z) : list Z :=
  if 0 <=? start then drop (Z.to_nat start) ws
  else drop (length ws - Z.to_nat (- start)) ws.

Module KdfOpenSSL.

Definition execute (evpKDF : EvpKDF) : KDF := fun cipher password salt =>
  (* if (!salt) salt = C_lib_WordArray.random(8) *)
  salt ← match salt with
         | Some r => mret r
         | None => v ← WordArray_random 8; WordArray_new v
         end;
  saltValue ← load salt;
  let cipherKeySize := _keySize cipher in
  let cipherIvSize := _ivSize cipher in
  (* var key = C_algo_EvpKDF.compute(password, salt, { keySize: ... }) *)
  let keyValue := evpKDF password saltValue (cipherKeySize + cipherIvSize) in
  key ← WordArray_new keyValue;
  (* var iv = key.$super.create(key.words.slice(cipherKeySize)) *)
  iv ← WordArray_new (WordArray_create (Some (slice_from (words keyValue) cipherKeySize)) None);
  (* key.sigBytes = cipherKeySize * 4 *)
  store key (mkWordArray (words keyValue) (cipherKeySize * 4));;
  mret (CipherParams.mk None (Some key) (Some iv) (Some salt) None).

End KdfOpenSSL.

Module PBE.

(** The [cfg] argument and its defaults. *)
Record Config : Type := mkConfig {
  format : option FormatName;
  kdf : option KDF
}.

Definition cfg_format (cfg : Config) : FormatName := default OpenSSLFormat (format cfg).
Definition cfg_kdf (evpKDF : EvpKDF) (cfg : Config) : KDF :=
  default (KdfOpenSSL.execute evpKDF) (kdf cfg).

(** What a variable in scope holds: cipher params, or something else. *)
Inductive Value : Type :=
  | VParams (p : CipherParams.t nat)
  | VOther.

(** The variables that [PBE.encrypt] can see when it returns: its
    parameters and [params], the [var]s of the enclosing function of
    cipher-core.js, and the globals that the library defines. *)
Definition scope (params : CipherParams.t nat) : list (string * Value) :=
  [("cipher", VOther); ("message", VOther); ("password", VOther); ("cfg", VOther);
   ("params", VParams params)]
  ++ ((fun x => (x, VOther)) <$>
      ["C"; "C_lib"; "C_lib_Base"; "C_lib_WordArray"; "C_enc"; "C_enc_Utf8"; "C_enc_Base64";
       "C_algo"; "C_algo_EvpKDF"; "C_lib_Cipher"; "C_lib_Cipher_Stream"; "C_pad"; "C_pad_PKCS5";
       "C_mode"; "C_mode_CBC"; "C_format"; "C_format_OpenSSL"; "C_kdf"; "C_kdf_OpenSSL";
       "C_lib_CipherParams"; "C_algo_PBE"; "CryptoJS"; "C_lib_Cipher_Block"])%string.

(** Reading a variable: a name that no scope binds is a ReferenceError. *)
Fixpoint resolve (name : string) (sc : list (string * Value)) : outcome Value :=
  match sc with
  | [] => Throw ReferenceError
  | (x, v) :: sc' => if String.eqb x name then Ok v else resolve name sc'
  end.

(** [PBE.encrypt(cipher, message, password, cfg)] *)
Definition encrypt (evpKDF : EvpKDF) (cipher : BlockCipher) (message : Cipher.Input)
    (password : string) (cfg : Config) : M Value :=
  (* var params = cfg.kdf.execute(cipher, password) *)
  params ← cfg_kdf evpKDF cfg cipher password None;
  (* params.rawCiphertext = cipher.encrypt(message, params.key, { iv: params.iv }) *)
  key ← lift (match CipherParams.key params with Some k => Ok k | None => Throw TypeError end);
  rawCiphertext ← Cipher.encrypt cipher message key
                    (Cipher.mkConfig (CipherParams.iv params) None None);
  (* params.formatter = cfg.format *)
  let params := CipherParams.mk (Some rawCiphertext) (CipherParams.key params)
                  (CipherParams.iv params) (CipherParams.salt params) (Some (cfg_format cfg)) in
  (* return ciphertextParams *)
  lift (resolve "ciphertextParams" (scope params)).

(** The [ciphertext] argument of [PBE.decrypt]: a formatted string or a
    cipher params object. *)
Inductive Ciphertext : Type :=
  | Formatted (s : string)
  | Params (p : CipherParams.t nat).

Definition fromString (base64 : Encoder) (f : FormatName) (s : string)
    : outcome (CipherParams.t WordArray) :=
  match f with OpenSSLFormat => OpenSSL.fromString base64 (char_codes s) end.

(** The objects of a parsed cipher params. *)
Definition new_opt (v : option WordArray) : M (option nat) :=
  match v with
  | Some v => r ← WordArray_new v; mret (Some r)
  | None => mret None
  end.

(** [PBE.decrypt(cipher, ciphertext, password, cfg)] *)
Definition decrypt (base64 : Encoder) (evpKDF : EvpKDF) (cipher : BlockCipher)
    (ciphertext : Ciphertext) (password : string) (cfg : Config) : M nat :=
  (* if (typeof ciphertext == 'string') ciphertext = cfg.format.fromString(ciphertext) *)
  ciphertext ← match ciphertext with
               | Formatted s =>
                   p ← lift (fromString base64 (cfg_format cfg) s);
                   raw ← new_opt (CipherParams.rawCiphertext p);
                   salt ← new_opt (CipherParams.salt p);
                   mret (CipherParams.mk raw None None salt None)
               | Params p => mret p
               end;
  (* var params = cfg.kdf.execute(cipher, password, ciphertext.salt) *)
  params ← cfg_kdf evpKDF cfg cipher password (CipherParams.salt ciphertext);
  (* var plaintext = cipher.decrypt(ciphertext.rawCiphertext, params.key, { iv: params.iv }) *)
  raw ← lift (match CipherParams.rawCiphertext ciphertext with
              | Some r => Ok r | None => Throw TypeError end);
  key ← lift (match CipherParams.key params with Some k => Ok k | None => Throw TypeError end);
  Cipher.decrypt cipher (Cipher.Buffer raw) key (Cipher.mkConfig (CipherParams.iv params) None None).

End PBE.

(** ** Facts used by the examples *)

Lemma xor_cipher_inverse bs k : block_inverse (xor_cipher bs) k.
Proof.
  intros blk Hl Hi. simpl in *. split; [by rewrite length_fmap|].
  rewrite <- list_fmap_compose. rewrite <- (list_fmap_id blk) at 2.
  apply Forall_fmap_ext_1. eapply Forall_impl; [exact Hi|].
  intros w Hw. simpl. rewrite xor_xor. by apply toInt32_small.
Qed.

(** ** Packed bytes *)

Definition all_int32 (ws : list Z) : Prop := forall j, 0 <= j -> int32 (JS.get ws j).

Lemma int32_0 : int32 0.
Proof. unfold int32. lia. Qed.

Lemma all_int32_nil : all_int32 [].
Proof. intros j Hj. rewrite get_ge by (simpl; lia). apply int32_0. Qed.

Lemma push_byte_int32 ws s b :
  0 <= s < 2 ^ 32 -> all_int32 ws -> all_int32 (push_byte (ws, s) b).1.
Proof.
  intros Hs H j Hj. unfold push_byte. cbn [fst]. rewrite ushr2 by done.
  rewrite get_put by zdm. case_decide; [apply or_int32|by apply H].
Qed.

Lemma fold_push_int32 bs : forall ws s,
  0 <= s -> s + Z.of_nat (length bs) <= 2 ^ 32 -> all_int32 ws ->
  all_int32 (fold_left push_byte bs (ws, s)).1.
Proof.
  induction bs as [|b bs IH]; intros ws s Hs Hlt H; cbn [fold_left length] in *; [done|].
  rewrite Nat2Z.inj_succ in Hlt.
  pose proof (push_byte_int32 ws s b ltac:(lia) H) as H1.
  destruct (push_byte (ws, s) b) as [ws1 s1] eqn:E. cbn [fst] in *.
  assert (s1 = s + 1) as -> by (unfold push_byte in E; by injection E).
  apply IH; [lia|lia|done].
Qed.

(** [Latin1.fromCodes] packs bytes four to a word. *)
Lemma fromCodes_spec bs :
  Forall is_byte bs -> Z.of_nat (length bs) <= 2 ^ 32 ->
  let v := Latin1.fromCodes bs in
  sigBytes v = Z.of_nat (length bs) /\ sig_bytes v = bs /\
  clamped (words v) (sigBytes v) /\ all_int32 (words v).
Proof.
  intros Hb Hlen. unfold Latin1.fromCodes, WordArray_create. cbv [default from_option id].
  cbn [words sigBytes].
  destruct (fold_push_spec bs [] 0 clamped_nil ltac:(lia) Hb) as (H2 & Hc & _ & Hbytes).
  pose proof (fold_push_int32 bs [] 0 ltac:(lia) ltac:(lia) all_int32_nil) as Hi.
  destruct (fold_left push_byte bs _) as [W S]. cbn [fst snd] in *.
  rewrite Z.add_0_l in H2. subst S.
  split; [done|]. split; [|by split].
  change (sig_bytes (mkWordArray W ?s)) with (bytes_of W s). rewrite Hbytes.
  unfold bytes_of. by rewrite seqZ_nil by lia.
Qed.

Lemma bytes_of_drop ws (k : nat) s :
  0 <= s -> Z.of_nat k * 4 + s <= 2 ^ 32 ->
  bytes_of (drop k ws) s = drop (k * 4) (bytes_of ws (Z.of_nat k * 4 + s)).
Proof.
  intros Hs Hlt. unfold bytes_of. rewrite seqZ_app, fmap_app by lia.
  rewrite drop_app_length' by (rewrite length_fmap, length_seqZ; lia).
  rewrite (Z.add_comm 0). rewrite <- (fmap_add_seqZ (Z.of_nat k * 4) 0).
  rewrite <- list_fmap_compose. apply list_fmap_ext. intros n i Hn. simpl.
  apply lookup_seqZ in Hn as [-> Hn]. rewrite !byteAt_split by lia.
  rewrite get_drop by zdm.
  replace ((Z.of_nat k * 4 + (0 + Z.of_nat n)) mod 4) with ((0 + Z.of_nat n) mod 4) by zdm.
  f_equal. f_equal. zdm.
Qed.

(** A 32-bit word, from its bytes. *)
Lemma word_of_bytes w b0 b1 b2 b3 m :
  int32 w -> int32 m ->
  lane w 0 = b0 -> lane w 1 = b1 -> lane w 2 = b2 -> lane w 3 = b3 ->
  lane m 0 = b0 -> lane m 1 = b1 -> lane m 2 = b2 -> lane m 3 = b3 ->
  w = m.
Proof.
  intros Hw Hm A0 A1 A2 A3 B0 B1 B2 B3. apply lanes_inj_int32; [done|done|].
  intros k Hk. assert (Hc : k = 0 \/ k = 1 \/ k = 2 \/ k = 3) by lia.
  destruct Hc as [Hc|[Hc|[Hc|Hc]]]; subst k; congruence.
Qed.

(** ** The OpenSSL format, read back *)

(** The bytes of ["Salted__"]. *)
Definition magic_bytes : list Z := [0x53; 0x61; 0x6c; 0x74; 0x65; 0x64; 0x5f; 0x5f].

Lemma get_take k ws j : 0 <= j < Z.of_nat k -> JS.get (take k ws) j = JS.get ws j.
Proof.
  intros Hj. unfold JS.get. destruct (Z.ltb_spec j 0); [lia|]. by rewrite lookup_take_lt by lia.
Qed.

Lemma bytes_of_take_words (k : nat) ws s :
  0 <= s <= Z.of_nat k * 4 -> s <= 2 ^ 32 -> bytes_of (take k ws) s = bytes_of ws s.
Proof.
  intros Hs Hlt. apply bytes_of_ext. intros i Hi. rewrite !byteAt_split by lia.
  by rewrite get_take by zdm.
Qed.

Lemma bytes_of_8 ws :
  bytes_of ws 8 = [lane (JS.get ws 0) 0; lane (JS.get ws 0) 1; lane (JS.get ws 0) 2; lane (JS.get ws 0) 3;
                   lane (JS.get ws 1) 0; lane (JS.get ws 1) 1; lane (JS.get ws 1) 2; lane (JS.get ws 1) 3].
Proof. reflexivity. Qed.

(** The first two words are the magic exactly when the first eight bytes are. *)
Lemma magic_words ws :
  int32 (JS.get ws 0) -> int32 (JS.get ws 1) ->
  (JS.get ws 0 = 0x53616c74 /\ JS.get ws 1 = 0x65645f5f) <-> bytes_of ws 8 = magic_bytes.
Proof.
  intros H0 H1. rewrite bytes_of_8. unfold magic_bytes. split.
  - intros [-> ->]. reflexivity.
  - intros H. injection H as A0 A1 A2 A3 B0 B1 B2 B3. split.
    + apply (word_of_bytes _ 0x53 0x61 0x6c 0x74); try done; by vm_compute.
    + apply (word_of_bytes _ 0x65 0x64 0x5f 0x5f); try done; by vm_compute.
Qed.

Lemma clamped_bytes_beyond ws s i :
  clamped ws s -> s <= i < 2 ^ 32 -> byteAt ws i = 0.
Proof.
  intros (Hs & Hlen & Hlast) Hi. rewrite byteAt_split by lia.
  destruct (decide (i / 4 = s / 4)) as [E|E].
  - rewrite E. destruct (decide (s mod 4 = 0)) as [Hz|Hz].
    + rewrite get_ge by zdm. apply lane_0. zdm.
    + apply Hlast; [done|]. zdm.
  - rewrite get_ge by zdm. apply lane_0. zdm.
Qed.

Section openssl.
Context (base64 : Encoder).

Lemma fromString_decoded s D :
  enc_fromCodes base64 s = Ok D ->
  OpenSSL.fromString base64 s =
  if (JS.get (words D) 0 =? 0x53616c74) && (JS.get (words D) 1 =? 0x65645f5f)
  then Ok (CipherParams.mk (Some (mkWordArray (drop 4 (words D)) (sigBytes D - 16))) None None
             (Some (WordArray_create (Some (take 2 (drop 2 (words D)))) None)) None)
  else Ok (CipherParams.mk (Some D) None None None None).
Proof. intros H. unfold OpenSSL.fromString. by rewrite H. Qed.

Lemma packed_magic bytes :
  Forall is_byte bytes -> Z.of_nat (length bytes) <= 2 ^ 32 ->
  let D := Latin1.fromCodes bytes in
  ((JS.get (words D) 0 =? 0x53616c74) && (JS.get (words D) 1 =? 0x65645f5f) = true)
  <-> take 8 bytes = magic_bytes.
Proof.
  intros Hb Hlen D. destruct (fromCodes_spec bytes Hb Hlen) as (Hs & Hbytes & Hc & Hi).
  fold D in Hs, Hbytes, Hc, Hi.
  rewrite andb_true_iff, !Z.eqb_eq, (magic_words (words D)) by (apply Hi; lia).
  destruct (decide (8 <= sigBytes D)) as [H8|H8].
  - rewrite (bytes_of_take _ 8 (sigBytes D)) by lia.
    change (bytes_of (words D) (sigBytes D)) with (sig_bytes D). by rewrite Hbytes.
  - split; intros H.
    + exfalso. assert (E : bytes_of (words D) 8 !! 7%nat = Some 0).
      { change 7%nat with (Z.to_nat 7). rewrite lookup_bytes_of by lia. f_equal.
        apply (clamped_bytes_beyond _ (sigBytes D)); [done|lia]. }
      rewrite H in E. discriminate.
    + exfalso. assert (length (take 8 bytes) = 8%nat) by (by rewrite H).
      rewrite length_take in *. lia.
Qed.

Lemma fromString_unsalted raw s :
  0 <= sigBytes raw <= 2 ^ 32 ->
  take 8 (sig_bytes raw) <> magic_bytes ->
  enc_fromCodes base64 s = Ok (Latin1.fromCodes (sig_bytes raw)) ->
  exists raw',
    OpenSSL.fromString base64 s = Ok (CipherParams.mk (Some raw') None None None None) /\
    sigBytes raw' = sigBytes raw /\ sig_bytes raw' = sig_bytes raw.
Proof.
  intros Hs Hmagic Hcodec.
  assert (Hb : Forall is_byte (sig_bytes raw)) by (apply sig_bytes_bytes; lia).
  assert (Hlen : Z.of_nat (length (sig_bytes raw)) <= 2 ^ 32) by (rewrite length_sig_bytes; lia).
  rewrite (fromString_decoded _ _ Hcodec).
  destruct (fromCodes_spec _ Hb Hlen) as (Hsig & Hbytes & _ & _).
  destruct (_ && _) eqn:E.
  - apply packed_magic in E; done.
  - eexists. split; [done|]. split; [|done]. rewrite Hsig, length_sig_bytes. lia.
Qed.

Lemma fromString_salted raw salt s x :
  0 <= sigBytes raw -> sigBytes salt = 8 -> sigBytes raw + 16 < 2 ^ 32 ->
  (y ← concat (WordArray_create (Some OpenSSL.magic) None) salt; concat y raw) = Ok x ->
  enc_fromCodes base64 s = Ok (Latin1.fromCodes (sig_bytes x)) ->
  exists raw' salt',
    OpenSSL.fromString base64 s = Ok (CipherParams.mk (Some raw') None None (Some salt') None) /\
    sigBytes raw' = sigBytes raw /\ sig_bytes raw' = sig_bytes raw /\
    sigBytes salt' = sigBytes salt /\ sig_bytes salt' = sig_bytes salt.
Proof.
  intros Hs Hsalt Hlt Hx Hcodec.
  destruct (concat_spec (WordArray_create (Some OpenSSL.magic) None) salt)
    as (y & Hy & Hys & _ & _ & Hyb); [simpl; lia|simpl; lia|].
  rewrite Hy in Hx. cbn [mbind outcome_mbind outcome_bind] in Hx.
  simpl in Hys. rewrite Hsalt in Hys. simpl in Hys.
  destruct (concat_spec y raw) as (x' & Hx' & Hxs & _ & _ & Hxb); [lia|lia|].
  rewrite Hx in Hx'. injection Hx' as <-.
  assert (Hbytes : sig_bytes x = magic_bytes ++ sig_bytes salt ++ sig_bytes raw).
  { rewrite Hxb, Hyb. by rewrite <- app_assoc. }
  assert (Hls : length (sig_bytes salt) = 8%nat).
  { apply Nat2Z.inj. rewrite length_sig_bytes. lia. }
  assert (Hlr : Z.of_nat (length (sig_bytes raw)) = sigBytes raw) by (rewrite length_sig_bytes; lia).
  assert (Hb : Forall is_byte (sig_bytes x)) by (apply sig_bytes_bytes; lia).
  assert (Hlen : Z.of_nat (length (sig_bytes x)) <= 2 ^ 32) by (rewrite length_sig_bytes; lia).
  rewrite (fromString_decoded _ _ Hcodec).
  destruct (fromCodes_spec _ Hb Hlen) as (Hsig & HDb & HDc & _).
  pose proof (proj2 (packed_magic _ Hb Hlen)) as Hm. cbv zeta in Hm.
  rewrite Hm by (by rewrite Hbytes).
  set (D := Latin1.fromCodes (sig_bytes x)) in *.
  assert (HsigD : sigBytes D = 16 + sigBytes raw) by (rewrite Hsig, length_sig_bytes; lia).
  assert (HlenW : (4 <= length (words D))%nat).
  { destruct HDc as (_ & Hl & _). rewrite HsigD in Hl. zdm. }
  do 2 eexists. split; [done|]. cbv [WordArray_create default from_option id]. cbn [words sigBytes].
  assert (Hfull : bytes_of (words D) (sigBytes D) = magic_bytes ++ sig_bytes salt ++ sig_bytes raw).
  { change (bytes_of (words D) (sigBytes D)) with (sig_bytes D). by rewrite HDb. }
  split; [lia|]. split; [|split].
  - change (sig_bytes (mkWordArray ?w ?z)) with (bytes_of w z).
    rewrite (bytes_of_drop _ 4) by lia.
    replace (Z.of_nat 4 * 4 + (sigBytes D - 16)) with (sigBytes D) by lia.
    rewrite Hfull. rewrite app_assoc. rewrite drop_app_length'; [done|].
    rewrite length_app, Hls. done.
  - rewrite length_take, length_drop. lia.
  - change (sig_bytes (mkWordArray ?w ?z)) with (bytes_of w z).
    rewrite length_take, length_drop.
    replace (Z.of_nat (2 `min` (length (words D) - 2)) * 4) with 8 by lia.
    rewrite (bytes_of_take_words 2) by lia.
    rewrite (bytes_of_drop _ 2) by lia.
    rewrite (bytes_of_take _ _ (sigBytes D)) by lia. rewrite Hfull.
    change (Z.to_nat (Z.of_nat 2 * 4 + 8)) with (8 + 8)%nat.
    rewrite app_assoc. rewrite take_app_length' by (rewrite length_app, Hls; done).
    rewrite drop_app_length'; done.
Qed.

End openssl.

Lemma openSSLStr_salted raw salt :
  0 <= sigBytes raw -> sigBytes salt = 8 -> sigBytes raw + 16 < 2 ^ 32 ->
  exists x, (y ← concat (WordArray_create (Some OpenSSL.magic) None) salt; concat y raw) = Ok x.
Proof.
  intros Hs Hsalt Hlt.
  destruct (concat_spec (WordArray_create (Some OpenSSL.magic) None) salt)
    as (y & -> & Hys & _); [simpl; lia|simpl; lia|].
  simpl in Hys. rewrite Hsalt in Hys. simpl in Hys.
  destruct (concat_spec y raw) as (x & Hx & _); [lia|lia|]. by exists x.
Qed.

(** A buffer of at least 16 bytes that begins with the magic, decoded: the
    bytes 8 to 15 are taken for the salt and the first 16 are dropped. *)
Lemma fromString_magic base64 raw s :
  16 <= sigBytes raw -> sigBytes raw < 2 ^ 32 ->
  take 8 (sig_bytes raw) = magic_bytes ->
  enc_fromCodes base64 s = Ok (Latin1.fromCodes (sig_bytes raw)) ->
  exists raw' salt',
    OpenSSL.fromString base64 s = Ok (CipherParams.mk (Some raw') None None (Some salt') None) /\
    sigBytes raw' = sigBytes raw - 16 /\ sig_bytes raw' = drop 16 (sig_bytes raw) /\
    sigBytes salt' = 8 /\ sig_bytes salt' = take 8 (drop 8 (sig_bytes raw)).
Proof.
  intros Hs Hlt Hm Hcodec.
  set (B := sig_bytes raw) in *.
  assert (HB : Forall is_byte B) by (apply sig_bytes_bytes; lia).
  assert (HlB : Z.of_nat (length B) = sigBytes raw) by (unfold B; rewrite length_sig_bytes; lia).
  destruct (fromCodes_spec (take 8 (drop 8 B))) as (Hs1 & Hs2 & _).
  { by apply Forall_take, Forall_drop. }
  { rewrite length_take, length_drop. lia. }
  destruct (fromCodes_spec (drop 16 B)) as (Hr1 & Hr2 & _).
  { by apply Forall_drop. }
  { rewrite length_drop. lia. }
  cbv zeta in Hs1, Hs2, Hr1, Hr2.
  set (salt0 := Latin1.fromCodes (take 8 (drop 8 B))) in *.
  set (raw0 := Latin1.fromCodes (drop 16 B)) in *.
  rewrite length_take, length_drop in Hs1. rewrite length_drop in Hr1.
  assert (Hs8 : sigBytes salt0 = 8) by lia.
  assert (Hr16 : sigBytes raw0 = sigBytes raw - 16) by lia.
  clearbody salt0 raw0.
  destruct (openSSLStr_salted raw0 salt0) as (x & Hx); [lia|lia|lia|].
  assert (Hxb : sig_bytes x = B).
  { destruct (concat_spec (WordArray_create (Some OpenSSL.magic) None) salt0)
      as (y & Hy & Hys & _ & _ & Hyb); [simpl; lia|simpl; lia|].
    rewrite Hy in Hx. cbn [mbind outcome_mbind outcome_bind] in Hx.
    simpl in Hys. replace (sigBytes salt0) with 8 in Hys by lia. simpl in Hys.
    destruct (concat_spec y raw0) as (x' & Hx' & _ & _ & _ & Hxb); [lia|lia|].
    rewrite Hx in Hx'. injection Hx' as <-.
    rewrite Hxb, Hyb, Hs2, Hr2.
    change (sig_bytes (WordArray_create (Some OpenSSL.magic) None)) with magic_bytes.
    rewrite <- Hm, <- app_assoc.
    transitivity (take 8 B ++ drop 8 B); [|apply take_drop]. f_equal.
    transitivity (take 8 (drop 8 B) ++ drop 8 (drop 8 B)); [|apply take_drop]. f_equal.
    by rewrite drop_drop. }
  destruct (fromString_salted base64 raw0 salt0 s x) as (raw' & salt' & Hf & H1 & H2 & H3 & H4);
    [lia|lia|lia|done|by rewrite Hxb|].
  exists raw', salt'. split; [done|]. rewrite H1, H2, H3, H4, Hr2, Hs2. repeat split; lia.
Qed.

(** ** Calls that do not look at the random source *)

Definition set_random (w : World) (rnd : nat -> Z) : World :=
  mkWorld (arrays w) (objects w) rnd.

(** Same arrays and objects; the random sources may differ. *)
Definition same_heap (w w' : World) : Prop :=
  arrays w = arrays w' /\ objects w = objects w'.

Lemma same_heap_set_random w w' : same_heap w w' -> w = set_random w' (random w).
Proof. destruct w, w'. intros [H1 H2]. simpl in *. by subst. Qed.

Definition oblivious {A} (m : M A) : Prop :=
  forall w rnd, m (set_random w rnd) = ((m w).1, set_random (m w).2 rnd).

Lemma oblivious_ret {A} (x : A) : oblivious (mret x).
Proof. by intros w rnd. Qed.

Lemma oblivious_lift {A} (o : outcome A) : oblivious (lift o).
Proof. by intros w rnd. Qed.

Lemma oblivious_bind {A B} (m : M A) (f : A -> M B) :
  oblivious m -> (forall x, oblivious (f x)) -> oblivious (m ≫= f).
Proof.
  intros Hm Hf w rnd. rewrite !bind_run, Hm.
  destruct (m w) as [[x| | |] w']; simpl; try done. apply Hf.
Qed.

Lemma oblivious_get_obj r : oblivious (get_obj r).
Proof. by intros w rnd. Qed.
Lemma oblivious_get_array a : oblivious (get_array a).
Proof. by intros w rnd. Qed.
Lemma oblivious_set_obj r o : oblivious (set_obj r o).
Proof. by intros w rnd. Qed.
Lemma oblivious_set_array a ws : oblivious (set_array a ws).
Proof. by intros w rnd. Qed.
Lemma oblivious_new_obj o : oblivious (new_obj o).
Proof. by intros w rnd. Qed.
Lemma oblivious_new_array ws : oblivious (new_array ws).
Proof. by intros w rnd. Qed.

Create HintDb obl.
#[local] Hint Resolve oblivious_ret oblivious_lift oblivious_get_obj oblivious_get_array
  oblivious_set_obj oblivious_set_array oblivious_new_obj oblivious_new_array : obl.

Ltac obl := repeat first [ apply oblivious_bind; [|intros] | progress eauto with obl ].

Lemma oblivious_load r : oblivious (load r).
Proof. unfold load. obl. Qed.
Lemma oblivious_store r v : oblivious (store r v).
Proof. unfold store. obl. Qed.
Lemma oblivious_new v : oblivious (WordArray_new v).
Proof. unfold WordArray_new. obl. Qed.
Lemma oblivious_clone r : oblivious (WordArray_clone r).
Proof. unfold WordArray_clone. obl. Qed.
Lemma oblivious_iv_words cfg : oblivious (Cipher.iv_words cfg).
Proof. unfold Cipher.iv_words. destruct (Cipher.iv cfg); obl. Qed.
#[local] Hint Resolve oblivious_load oblivious_store oblivious_new oblivious_clone
  oblivious_iv_words : obl.

Lemma oblivious_doDecrypt c r key cfg : oblivious (Cipher._doDecrypt c r key cfg).
Proof. unfold Cipher._doDecrypt. obl. Qed.
#[local] Hint Resolve oblivious_doDecrypt : obl.

Lemma oblivious_decrypt c input key cfg : oblivious (Cipher.decrypt c input key cfg).
Proof. unfold Cipher.decrypt. destruct input; obl. Qed.
#[local] Hint Resolve oblivious_decrypt : obl.

(** The rest of [KdfOpenSSL.execute] once the salt is there. *)
Definition derive (evpKDF : EvpKDF) (cipher : BlockCipher) (password : string) (salt : nat)
    : M (CipherParams.t nat) :=
  KdfOpenSSL.execute evpKDF cipher password (Some salt).

Lemma oblivious_derive evpKDF cipher password salt : oblivious (derive evpKDF cipher password salt).
Proof. unfold derive, KdfOpenSSL.execute. obl. Qed.

Lemma random_words_run n : forall w,
  random_words n w =
  (Ok ((fun k => random w k mod 2 ^ 32) <$> seq 0 n), set_random w (fun k => random w (n + k)%nat)).
Proof.
  induction n as [|n IH]; intros w.
  - by destruct w.
  - cbn [random_words]. rewrite bind_run. unfold next_random at 1. rewrite bind_run, IH.
    cbn [arrays objects random]. unfold mret, M_ret. f_equal.
    f_equal. cbn [seq fmap list_fmap]. f_equal. rewrite <- fmap_S_seq, <- list_fmap_compose. done.
Qed.

(** ** Where [PBE.decrypt] gets its key from *)

(** [PBE.decrypt] on cipher params, given how the salt object is obtained. *)
Definition decrypt_from (evpKDF : EvpKDF) (cipher : BlockCipher) (ct : CipherParams.t nat)
    (password : string) (salt : M nat) : M nat :=
  params ← (s ← salt; derive evpKDF cipher password s);
  raw ← lift (match CipherParams.rawCiphertext ct with
              | Some r => Ok r | None => Throw TypeError end);
  key ← lift (match CipherParams.key params with Some k => Ok k | None => Throw TypeError end);
  Cipher.decrypt cipher (Cipher.Buffer raw) key (Cipher.mkConfig (CipherParams.iv params) None None).

Lemma oblivious_decrypt_from evpKDF cipher ct password salt :
  oblivious salt -> oblivious (decrypt_from evpKDF cipher ct password salt).
Proof.
  intros Hs. unfold decrypt_from. pose proof oblivious_derive. obl.
Qed.

Lemma pbe_decrypt_salted base64 evpKDF cipher ct password fmt s w :
  CipherParams.salt ct = Some s ->
  PBE.decrypt base64 evpKDF cipher (PBE.Params ct) password (PBE.mkConfig fmt None) w
  = decrypt_from evpKDF cipher ct password (mret s) w.
Proof.
  intros Hs. unfold PBE.decrypt, decrypt_from, PBE.cfg_kdf, derive, KdfOpenSSL.execute.
  unfold mbind, M_bind, mret, M_ret. cbn [PBE.kdf default from_option id]. by rewrite Hs.
Qed.

Lemma random_8 w :
  WordArray_random 8 w =
  (Ok (mkWordArray [random w 0%nat mod 2 ^ 32; random w 1%nat mod 2 ^ 32] 8),
   set_random w (fun k => random w (2 + k)%nat)).
Proof.
  unfold WordArray_random. rewrite bind_run. change (Z.to_nat (JS.ceil_div4 8)) with 2%nat.
  by rewrite random_words_run.
Qed.

Lemma pbe_decrypt_unsalted base64 evpKDF cipher ct password fmt w :
  CipherParams.salt ct = None ->
  PBE.decrypt base64 evpKDF cipher (PBE.Params ct) password (PBE.mkConfig fmt None) w
  = decrypt_from evpKDF cipher ct password
      (WordArray_new (mkWordArray [random w 0%nat mod 2 ^ 32; random w 1%nat mod 2 ^ 32] 8))
      (set_random w (fun k => random w (2 + k)%nat)).
Proof.
  intros Hs. unfold PBE.decrypt, decrypt_from, PBE.cfg_kdf, derive, KdfOpenSSL.execute.
  unfold mbind, M_bind, mret, M_ret. cbn [PBE.kdf default from_option id]. rewrite Hs.
  rewrite random_8. reflexivity.
Qed.

(** ** HMAC instances between two MACs *)

Module HMACRun.

(** A sequence of [update] calls. *)
Fixpoint updates (algo : HashAlgo) (st : HMACState) (us : list Data) : outcome HMACState :=
  match us with
  | [] => Ok st
  | u :: us' => st' ← HMAC.update algo st u; updates algo st' us'
  end.

(** The updates, then [compute]. *)
Definition run (algo : HashAlgo) (st : HMACState) (us : list Data) (final : option Data)
    : outcome (WordArray * HMACState) :=
  st' ← updates algo st us; HMAC.compute algo st' final.

(** The hasher has been reset and fed the inner key, and nothing else. *)
Definition primed (algo : HashAlgo) (st : HMACState) : Prop :=
  Hash.update algo (Hash.reset algo) (Wa (_iKey st)) = Ok (_hasher st).

End HMACRun.

Lemma hmac_reset_primed algo st st' :
  HMAC.reset algo st = Ok st' ->
  HMACRun.primed algo st' /\ _oKey st' = _oKey st /\ _iKey st' = _iKey st.
Proof.
  unfold HMAC.reset, HMACRun.primed. destruct (Hash.update _ _ _) as [h| | |] eqn:E; try done.
  by intros [= <-].
Qed.

Lemma hmac_init_primed algo key st : HMAC.init algo key = Ok st -> HMACRun.primed algo st.
Proof.
  unfold HMAC.init. destruct (if _ <? _ then _ else _) as [[k h]| | |]; try done.
  cbn [mbind outcome_mbind outcome_bind]. intros H. by apply hmac_reset_primed in H as [? _].
Qed.

Lemma hmac_update_keys algo st u st' :
  HMAC.update algo st u = Ok st' -> _oKey st' = _oKey st /\ _iKey st' = _iKey st.
Proof.
  unfold HMAC.update. destruct (Hash.update _ _ _) as [h| | |]; try done. by intros [= <-].
Qed.

Lemma hmac_updates_keys algo us : forall st st',
  HMACRun.updates algo st us = Ok st' -> _oKey st' = _oKey st /\ _iKey st' = _iKey st.
Proof.
  induction us as [|u us IH]; intros st st'; cbn [HMACRun.updates].
  - by intros [= <-].
  - destruct (HMAC.update algo st u) as [st1| | |] eqn:E; try done.
    cbn [mbind outcome_mbind outcome_bind]. intros H.
    apply IH in H as [-> ->]. by apply hmac_update_keys in E.
Qed.

Lemma hash_compute_none algo h :
  Hash.compute algo h None =
  (digest ← finalize algo (words (_hash h)) (_message h) (_length h); Ok (digest, Hash.reset algo)).
Proof. reflexivity. Qed.

Lemma hash_compute_wa algo h x :
  Hash.compute algo h (Some (Wa x)) =
  (h' ← Hash.update algo h (Wa x);
   digest ← finalize algo (words (_hash h')) (_message h') (_length h');
   Ok (digest, Hash.reset algo)).
Proof. reflexivity. Qed.

Ltac obind H := cbn [mbind outcome_mbind outcome_bind] in H.

(** What [compute] returns, step by step. *)
Lemma hmac_compute_inv algo st final mac st' :
  HMAC.compute algo st final = Ok (mac, st') ->
  exists st1 inner outerInput h,
    (if Hash.truthy final then HMAC.update algo st (default (Str "") final) else Ok st) = Ok st1 /\
    finalize algo (words (_hash (_hasher st1))) (_message (_hasher st1)) (_length (_hasher st1))
      = Ok inner /\
    concat (_oKey st) inner = Ok outerInput /\
    Hash.update algo (Hash.reset algo) (Wa outerInput) = Ok h /\
    finalize algo (words (_hash h)) (_message h) (_length h) = Ok mac /\
    HMACRun.primed algo st' /\ _oKey st' = _oKey st /\ _iKey st' = _iKey st.
Proof.
  unfold HMAC.compute. intros H.
  destruct (if Hash.truthy final then _ else _) as [st1| | |] eqn:E1; try done.
  assert (Hk : _oKey st1 = _oKey st /\ _iKey st1 = _iKey st).
  { destruct (Hash.truthy final); [by eapply hmac_update_keys|by injection E1 as <-]. }
  destruct Hk as [Hko Hki].
  obind H. rewrite hash_compute_none in H.
  destruct (finalize algo _ _ _) as [inner| | |] eqn:E2; try done. obind H.
  replace (clone_value (_oKey st1)) with (_oKey st) in H by (rewrite Hko; by destruct (_oKey st)).
  destruct (concat (_oKey st) inner) as [x| | |] eqn:E3; try done. obind H.
  rewrite hash_compute_wa in H.
  destruct (Hash.update algo (Hash.reset algo) (Wa x)) as [h| | |] eqn:E4; try done. obind H.
  destruct (finalize algo (words (_hash h)) _ _) as [mac'| | |] eqn:E5; try done. obind H.
  destruct (HMAC.reset algo _) as [st2| | |] eqn:E6; try done. obind H.
  injection H as <- <-.
  apply hmac_reset_primed in E6 as (Hp & Ho & Hi). cbn [_oKey _iKey] in *.
  exists st1, inner, x, h. rewrite Ho, Hi, Hko, Hki. done.
Qed.

Lemma primed_eq algo st st' :
  HMACRun.primed algo st -> HMACRun.primed algo st' ->
  _oKey st' = _oKey st -> _iKey st' = _iKey st -> st' = st.
Proof.
  unfold HMACRun.primed. destruct st, st'. simpl. intros H1 H2 -> ->.
  rewrite H1 in H2. by injection H2 as ->.
Qed.

Lemma hmac_run_restores algo st us final mac st' :
  HMACRun.primed algo st -> HMACRun.run algo st us final = Ok (mac, st') -> st' = st.
Proof.
  intros Hp. unfold HMACRun.run.
  destruct (HMACRun.updates algo st us) as [st1| | |] eqn:E; try done.
  cbn [mbind outcome_mbind outcome_bind]. intros H.
  apply hmac_updates_keys in E as [Eo Ei].
  apply hmac_compute_inv in H as (? & ? & ? & ? & _ & _ & _ & _ & _ & Hp' & Ho & Hi).
  apply (primed_eq algo); [done|done|congruence|congruence].
Qed.

Lemma encrypt_result c r key cfg w out :
  (Cipher.encrypt c (Cipher.Buffer r) key cfg w).1 = Ok out -> out = fresh (dom (objects w)).
Proof.
  unfold Cipher.encrypt. rewrite bind_run. destruct (deref w r) as [v|] eqn:E.
  - rewrite (clone_run w r v E). rewrite bind_run.
    destruct (Cipher._doEncrypt _ _ _ _ _) as [[[]| | |] w']; simpl; try done. by intros [= <-].
  - destruct (clone_fails w r E) as (w' & -> & _). done.
Qed.

Lemma decrypt_result c r key cfg w out :
  (Cipher.decrypt c (Cipher.Buffer r) key cfg w).1 = Ok out -> out = fresh (dom (objects w)).
Proof.
  unfold Cipher.decrypt. rewrite bind_run. destruct (deref w r) as [v|] eqn:E.
  - rewrite (clone_run w r v E). rewrite bind_run.
    destruct (Cipher._doDecrypt _ _ _ _ _) as [[[]| | |] w']; simpl; try done. by intros [= <-].
  - destruct (clone_fails w r E) as (w' & -> & _). done.
Qed.

(** ** When the hasher and the HMAC return *)

(** The pending message is as [update] leaves it: clamped, and shorter
    than a block. *)
Definition ready (algo : HashAlgo) (h : Hasher) : Prop :=
  clamped (words (_message h)) (sigBytes (_message h)) /\
  sigBytes (_message h) < blockSize algo * 4.

(** An update that does not overflow the byte counter of the pending
    message. *)
Definition fits (algo : HashAlgo) (u : Data) : Prop :=
  0 <= sigBytes (Hash.to_wordarray u) /\
  blockSize algo * 4 + sigBytes (Hash.to_wordarray u) < 2 ^ 32.

(** [_doCompute] returns a digest, of a size that [concat] can append to a
    key of one block. *)
Definition finalizes (algo : HashAlgo) : Prop :=
  forall hw m l, exists d,
    finalize algo hw m l = Ok d /\ 0 <= sigBytes d /\ blockSize algo * 4 + sigBytes d < 2 ^ 32.

Lemma absorb_ready algo h a :
  1 <= blockSize algo ->
  clamped (words (_message h)) (sigBytes (_message h)) ->
  0 <= sigBytes a -> sigBytes (_message h) + sigBytes a < 2 ^ 32 ->
  ready algo (absorb_bytes algo h (sig_bytes a)).
Proof.
  intros Hbs Hc Ha Hlt.
  assert (Hl : Z.of_nat (length (sig_bytes a)) = sigBytes a) by (rewrite length_sig_bytes; lia).
  destruct (absorb_bytes_message algo h (sig_bytes a) Hbs Hc ltac:(lia)
              ltac:(apply sig_bytes_bytes; destruct Hc; lia)) as (Hc1 & Hs1 & _).
  split; [done|]. cbv zeta in Hs1. rewrite Hs1. apply Z.mod_pos_bound. lia.
Qed.

Lemma hash_update_returns algo h u :
  1 <= blockSize algo -> ready algo h -> fits algo u ->
  exists h', Hash.update algo h u = Ok h' /\ ready algo h'.
Proof.
  intros Hbs [Hc Hlt] [Hu Hf].
  change (Hash.update algo h u) with (Hash.update algo h (Wa (Hash.to_wordarray u))).
  rewrite update_absorb by (done || lia). eexists. split; [done|].
  apply absorb_ready; (done || lia).
Qed.

Lemma hmac_update_returns algo st u :
  1 <= blockSize algo -> ready algo (_hasher st) -> fits algo u ->
  exists st', HMAC.update algo st u = Ok st' /\ ready algo (_hasher st') /\
    _oKey st' = _oKey st /\ _iKey st' = _iKey st.
Proof.
  intros Hbs Hr Hu. destruct (hash_update_returns algo _ u Hbs Hr Hu) as (h' & E & Hr').
  unfold HMAC.update. rewrite E. by eexists.
Qed.

Lemma hmac_updates_return algo us : forall st,
  1 <= blockSize algo -> ready algo (_hasher st) -> Forall (fits algo) us ->
  exists st', HMACRun.updates algo st us = Ok st' /\ ready algo (_hasher st') /\
    _oKey st' = _oKey st /\ _iKey st' = _iKey st.
Proof.
  induction us as [|u us IH]; intros st Hbs Hr Hus; cbn [HMACRun.updates].
  - by exists st.
  - apply Forall_cons in Hus as [Hu Hus].
    destruct (hmac_update_returns algo st u Hbs Hr Hu) as (st1 & E & Hr1 & Ho & Hi).
    rewrite E. cbn [mbind outcome_mbind outcome_bind].
    destruct (IH st1 Hbs Hr1 Hus) as (st2 & E2 & Hr2 & Ho2 & Hi2).
    exists st2. split; [done|]. split; [done|]. split; congruence.
Qed.

(** The keys that [init] installs are one block long. *)
Lemma hmac_init_keys algo key st :
  HMAC.init algo key = Ok st ->
  sigBytes (_oKey st) = blockSize algo * 4 /\ sigBytes (_iKey st) = blockSize algo * 4.
Proof.
  unfold HMAC.init. destruct (if _ <? _ then _ else _) as [[k h]| | |]; try done.
  cbn [mbind outcome_mbind outcome_bind]. intros H.
  apply hmac_reset_primed in H as (_ & -> & ->). done.
Qed.

Lemma primed_ready algo st :
  1 <= blockSize algo -> blockSize algo * 4 < 2 ^ 32 ->
  sigBytes (_iKey st) = blockSize algo * 4 ->
  HMACRun.primed algo st -> ready algo (_hasher st).
Proof.
  intros Hbs Hlt Hi Hp. unfold HMACRun.primed in Hp.
  rewrite update_absorb in Hp by (done || apply clamped_nil || (simpl; lia)).
  injection Hp as <-. apply absorb_ready; (done || apply clamped_nil || (simpl; lia)).
Qed.

(** [compute] on an instance whose hasher is [ready] and whose keys are a
    block long. *)
Lemma hmac_compute_returns algo st0 st final :
  1 <= blockSize algo -> finalizes algo ->
  HMACRun.primed algo st0 -> _oKey st = _oKey st0 -> _iKey st = _iKey st0 ->
  sigBytes (_oKey st0) = blockSize algo * 4 ->
  ready algo (_hasher st) -> (forall u, final = Some u -> fits algo u) ->
  exists mac st1 inner outerInput h,
    HMAC.compute algo st final = Ok (mac, st0) /\
    (if Hash.truthy final then HMAC.update algo st (default (Str "") final) else Ok st) = Ok st1 /\
    finalize algo (words (_hash (_hasher st1))) (_message (_hasher st1)) (_length (_hasher st1))
      = Ok inner /\
    concat (_oKey st0) inner = Ok outerInput /\
    sig_bytes outerInput = sig_bytes (_oKey st0) ++ sig_bytes inner /\
    Hash.update algo (Hash.reset algo) (Wa outerInput) = Ok h /\
    finalize algo (words (_hash h)) (_message h) (_length h) = Ok mac.
Proof.
  intros Hbs Hfin Hp Ho Hi Hko Hr Hfinal.
  assert (E1 : exists st1,
    (if Hash.truthy final then HMAC.update algo st (default (Str "") final) else Ok st) = Ok st1 /\
    _oKey st1 = _oKey st0 /\ _iKey st1 = _iKey st0).
  { destruct (Hash.truthy final) eqn:Et.
    - destruct final as [u|]; [|done].
      destruct (hmac_update_returns algo st u Hbs Hr (Hfinal u eq_refl)) as (st1 & E & _ & Ho1 & Hi1).
      exists st1. split; [done|]. split; congruence.
    - by exists st. }
  destruct E1 as (st1 & E1 & Ho1 & Hi1).
  destruct (Hfin (words (_hash (_hasher st1))) (_message (_hasher st1)) (_length (_hasher st1)))
    as (inner & E2 & Hin0 & Hin).
  destruct (concat_spec (_oKey st0) inner) as (x & E3 & Hxs & _ & _ & Hxb); [lia|lia|].
  assert (E4 : Hash.update algo (Hash.reset algo) (Wa x)
               = Ok (absorb_bytes algo (Hash.reset algo) (sig_bytes x))).
  { apply update_absorb; [done|apply clamped_nil|lia|simpl; lia]. }
  destruct (Hfin (words (_hash (absorb_bytes algo (Hash.reset algo) (sig_bytes x))))
              (_message (absorb_bytes algo (Hash.reset algo) (sig_bytes x)))
              (_length (absorb_bytes algo (Hash.reset algo) (sig_bytes x))))
    as (mac & E5 & _).
  exists mac, st1, inner, x, (absorb_bytes algo (Hash.reset algo) (sig_bytes x)).
  split; [|done].
  unfold HMAC.compute. rewrite E1. cbn [mbind outcome_mbind outcome_bind].
  rewrite hash_compute_none, E2. cbn [mbind outcome_mbind outcome_bind].
  replace (clone_value (_oKey st1)) with (_oKey st0) by (rewrite Ho1; by destruct (_oKey st0)).
  rewrite E3. cbn [mbind outcome_mbind outcome_bind].
  rewrite hash_compute_wa, E4. cbn [mbind outcome_mbind outcome_bind].
  rewrite E5. cbn [mbind outcome_mbind outcome_bind].
  unfold HMAC.reset. cbn [_iKey _oKey]. rewrite Hi1. unfold HMACRun.primed in Hp. rewrite Hp.
  cbn [mbind outcome_mbind outcome_bind]. rewrite Ho1. by destruct st0.
Qed.

(** ** core.js and algo-hmac.js: any number of updates *)

(** A sequence of [update] calls on a hasher. *)
Fixpoint hash_updates (algo : HashAlgo) (h : Hasher) (us : list Data) : outcome Hasher :=
  match us with
  | [] => Ok h
  | u :: us' => h' ← Hash.update algo h u; hash_updates algo h' us'
  end.

(** The bytes that a sequence of updates appends. *)
Definition stream (us : list Data) : list Z :=
  u ← us; sig_bytes (Hash.to_wordarray u).

Lemma sig_bytes_all_bytes w : Forall is_byte (sig_bytes w).
Proof.
  unfold sig_bytes. apply Forall_fmap, Forall_seqZ. intros i Hi. simpl.
  unfold byteAt. apply lane_byte. unfold JS.rem.
  pose proof (Z.rem_bound_pos i 4 ltac:(lia) ltac:(lia)). lia.
Qed.

Lemma absorb_bytes_nil algo h : 1 <= blockSize algo -> ready algo h -> absorb_bytes algo h [] = h.
Proof.
  intros Hbs [(Hs & _) Hlt]. unfold absorb_bytes. cbn [fold_left fst snd length].
  rewrite Z.div_small by lia. unfold blocks, absorb. rewrite Z.sub_diag.
  replace (0 * blockSize algo) with 0 by lia.
  destruct h as [[] [] ?]. cbn. by rewrite Z.add_0_r, Z.sub_0_r.
Qed.

Lemma hash_updates_absorb algo us : forall h,
  1 <= blockSize algo -> ready algo h ->
  Forall (fun u => 0 <= sigBytes (Hash.to_wordarray u)) us ->
  sigBytes (_message h) + Z.of_nat (length (stream us)) < 2 ^ 32 ->
  hash_updates algo h us = Ok (absorb_bytes algo h (stream us)).
Proof.
  induction us as [|u us IH]; intros h Hbs Hr Hus Hlt.
  - cbn [hash_updates]. change (stream []) with (@nil Z). by rewrite absorb_bytes_nil.
  - apply Forall_cons in Hus as [Hu Hus]. destruct Hr as [Hc Hlt0].
    assert (Hs0 : 0 <= sigBytes (_message h)) by apply Hc.
    set (a := Hash.to_wordarray u) in *.
    change (stream (u :: us)) with (sig_bytes a ++ stream us) in *.
    rewrite length_app in Hlt.
    assert (Hla : Z.of_nat (length (sig_bytes a)) = sigBytes a) by (rewrite length_sig_bytes; lia).
    cbn [hash_updates].
    change (Hash.update algo h u) with (Hash.update algo h (Wa a)).
    rewrite update_absorb by (done || lia). cbn [mbind outcome_mbind outcome_bind].
    pose proof (absorb_ready algo h a Hbs Hc Hu ltac:(lia)) as Hr1.
    destruct (absorb_bytes_message algo h (sig_bytes a) Hbs Hc ltac:(lia)
                (sig_bytes_all_bytes a)) as (_ & Hs1 & _).
    cbv zeta in Hs1.
    assert (Hle : sigBytes (_message (absorb_bytes algo h (sig_bytes a)))
                  <= sigBytes (_message h) + sigBytes a).
    { rewrite Hs1, Hla. apply Z.mod_le; destruct Hc; lia. }
    rewrite IH by (done || lia). f_equal.
    apply absorb_bytes_app; try done; try lia.
    + apply sig_bytes_all_bytes.
    + unfold stream. apply Forall_bind, Forall_forall. intros x _.
      apply sig_bytes_all_bytes.
Qed.

Lemma stream_app us vs : stream (us ++ vs) = stream us ++ stream vs.
Proof. unfold stream. apply bind_app. Qed.

Lemma stream_bytes us : Forall is_byte (stream us).
Proof. unfold stream. apply Forall_bind, Forall_forall. intros x _. apply sig_bytes_all_bytes. Qed.

Lemma stream_single u : stream [u] = sig_bytes (Hash.to_wordarray u).
Proof. unfold stream. cbn [mbind list_bind]. apply app_nil_r. Qed.

(** The state of the hasher after an optional last update, as [compute]
    makes it. *)
Lemma final_update_absorb algo h final :
  1 <= blockSize algo -> ready algo h ->
  (forall u, final = Some u -> 0 <= sigBytes (Hash.to_wordarray u)) ->
  sigBytes (_message h) + Z.of_nat (length (stream (option_list final))) < 2 ^ 32 ->
  (if Hash.truthy final then Hash.update algo h (default (Str "") final) else Ok h)
  = Ok (absorb_bytes algo h (stream (option_list final))).
Proof.
  intros Hbs Hr Hf Hlt. destruct final as [u|].
  - change (option_list (Some u)) with [u] in *. cbn [default from_option]. cbv [id].
    rewrite stream_single in *.
    assert (Hu : Hash.update algo h u = Ok (absorb_bytes algo h (sig_bytes (Hash.to_wordarray u)))).
    { change (Hash.update algo h u) with (Hash.update algo h (Wa (Hash.to_wordarray u))).
      pose proof (Hf u eq_refl). rewrite length_sig_bytes in Hlt.
      apply update_absorb; [done|apply Hr|done|lia]. }
    destruct (Hash.truthy (Some u)) eqn:Et; [done|].
    destruct u as [s|x]; [|done]. simpl in Et. destruct s; [|done].
    change (sig_bytes (Hash.to_wordarray (Str ""))) with (@nil Z).
    by rewrite absorb_bytes_nil.
  - cbn. by rewrite absorb_bytes_nil.
Qed.

Lemma hmac_updates_hash algo us : forall st,
  HMACRun.updates algo st us
  = (h ← hash_updates algo (_hasher st) us; Ok (mkHMAC h (_oKey st) (_iKey st))).
Proof.
  induction us as [|u us IH]; intros st; cbn [HMACRun.updates hash_updates].
  - cbn. by destruct st.
  - unfold HMAC.update. destruct (Hash.update algo (_hasher st) u) as [h| | |]; try done.
    cbn [mbind outcome_mbind outcome_bind]. by rewrite IH.
Qed.

Lemma hmac_compute_final algo st final :
  HMAC.compute algo st final
  = (st' ← (if Hash.truthy final then HMAC.update algo st (default (Str "") final) else Ok st);
     HMAC.compute algo st' None).
Proof.
  unfold HMAC.compute. by destruct (if Hash.truthy final then _ else _).
Qed.

(** The hasher after a sequence of updates, piece by piece. *)
Lemma hash_updates_pieces algo us : forall h,
  1 <= blockSize algo -> ready algo h -> Forall (fits algo) us ->
  let h' := fold_left (fun g u => absorb_bytes algo g (sig_bytes (Hash.to_wordarray u))) us h in
  hash_updates algo h us = Ok h' /\ ready algo h'.
Proof.
  induction us as [|u us IH]; intros h Hbs Hr Hus; cbn [hash_updates fold_left]; [done|].
  apply Forall_cons in Hus as [[Hu Hf] Hus]. destruct Hr as [Hc Hlt].
  change (Hash.update algo h u) with (Hash.update algo h (Wa (Hash.to_wordarray u))).
  rewrite update_absorb by (done || lia). cbn [mbind outcome_mbind outcome_bind].
  apply IH; [done| |done]. apply absorb_ready; (done || lia).
Qed.

(** Pieces that together stay below 2^32 bytes are absorbed as their
    concatenation is. *)
Lemma pieces_stream algo us h :
  1 <= blockSize algo -> ready algo h -> Forall (fits algo) us ->
  sigBytes (_message h) + Z.of_nat (length (stream us)) < 2 ^ 32 ->
  fold_left (fun g u => absorb_bytes algo g (sig_bytes (Hash.to_wordarray u))) us h
  = absorb_bytes algo h (stream us).
Proof.
  intros Hbs Hr Hus Hlt.
  destruct (hash_updates_pieces algo us h Hbs Hr Hus) as [E _].
  rewrite hash_updates_absorb in E; [by injection E|done|done| |done].
  eapply Forall_impl; [exact Hus|]. by intros u [? _].
Qed.

(** ** core.js: the Hex encoder, read back *)

(** The two digits that [Hex.toString] writes for a byte. *)
Definition hex_pair (bite : Z) : list Z :=
  [Hex.digit_char (JS.ushr bite 4); Hex.digit_char (JS.and bite 15)].

Lemma parse_hex_pair b : is_byte b -> Hex.parseInt16 (hex_pair b) = Some b.
Proof.
  intros Hb.
  assert (H : forallb (fun b => bool_decide (Hex.parseInt16 (hex_pair b) = Some b)) (seqZ 0 256)
              = true) by (vm_compute; reflexivity).
  rewrite forallb_forall in H. specialize (H b).
  apply bool_decide_eq_true in H; [done|].
  apply list_elem_of_In, elem_of_seqZ. unfold is_byte in Hb. lia.
Qed.

Lemma drop_hex_pairs bytes : forall k b,
  bytes !! k = Some b -> take 2 (drop (2 * k) (bytes ≫= hex_pair)) = hex_pair b.
Proof.
  induction bytes as [|x bytes IH]; intros k b Hk; [done|].
  destruct k as [|k].
  - injection Hk as ->. reflexivity.
  - replace (2 * S k)%nat with (S (S (2 * k))) by lia. cbn [mbind list_bind hex_pair app drop].
    by apply IH.
Qed.

Lemma length_hex_pairs bytes : length (bytes ≫= hex_pair) = (2 * length bytes)%nat.
Proof. induction bytes as [|x bytes IH]; [done|]. cbn [mbind list_bind hex_pair app length]. simpl in IH. lia. Qed.

Lemma hex_step_push bytes ws (k : nat) b :
  bytes !! k = Some b -> is_byte b -> 2 * Z.of_nat k < 2 ^ 32 ->
  Hex.step (bytes ≫= hex_pair) ws (2 * Z.of_nat k) = (push_byte (ws, Z.of_nat k) b).1.
Proof.
  intros Hk Hb Hlt. unfold Hex.step, push_byte. cbn [fst].
  replace (Z.to_nat (2 * Z.of_nat k)) with (2 * k)%nat by lia.
  rewrite (drop_hex_pairs bytes k b Hk), (parse_hex_pair b Hb). cbv [default from_option id].
  assert (E1 : JS.ushr (2 * Z.of_nat k) 3 = JS.ushr (Z.of_nat k) 2).
  { unfold JS.ushr, JS.toUint32. rewrite !(Z.mod_small _ (2 ^ 32)) by lia.
    change (3 mod 32) with 3. change (2 mod 32) with 2.
    rewrite !Z.shiftr_div_pow2 by lia. change (2 ^ 3) with 8. change (2 ^ 2) with 4. zdm. }
  assert (E2 : JS.rem (2 * Z.of_nat k) 8 * 4 = JS.rem (Z.of_nat k) 4 * 8).
  { unfold JS.rem. rewrite !Z.rem_mod_nonneg by lia. zdm. }
  by rewrite E1, E2.
Qed.

Lemma hex_fold_push bytes : forall (k : nat),
  (k <= length bytes)%nat -> Forall is_byte bytes -> 2 * Z.of_nat (length bytes) < 2 ^ 32 ->
  fold_left (Hex.step (bytes ≫= hex_pair)) ((fun i => 2 * i) <$> seqZ 0 (Z.of_nat k)) []
  = (fold_left push_byte (take k bytes) ([], 0)).1 /\
  (fold_left push_byte (take k bytes) ([], 0)).2 = Z.of_nat k.
Proof.
  induction k as [|k IH]; intros Hk Hb Hlt.
  - done.
  - destruct (IH ltac:(lia) Hb Hlt) as [IH1 IH2].
    destruct (lookup_lt_is_Some_2 bytes k ltac:(lia)) as [b Hbk].
    rewrite (take_S_r _ _ _ Hbk), fold_left_app. cbn [fold_left].
    rewrite Nat2Z.inj_succ. unfold Z.succ. rewrite seqZ_app by lia.
    rewrite fmap_app, fold_left_app, IH1, Z.add_0_l.
    change (seqZ (Z.of_nat k) 1) with [Z.of_nat k]. cbn [fmap list_fmap fold_left].
    rewrite (hex_step_push bytes _ k b Hbk); [|by eapply Forall_lookup_1|lia].
    destruct (fold_left push_byte (take k bytes) ([], 0)) as [W S] eqn:E.
    cbn [fst snd] in *. subst S. split; [done|]. simpl. lia.
Qed.

Lemma hex_fromCodes_toCodes w :
  0 <= sigBytes w -> 2 * sigBytes w < 2 ^ 32 ->
  Hex.fromCodes (Hex.toCodes w) = Ok (Latin1.fromCodes (sig_bytes w)).
Proof.
  intros Hs Hlt. unfold Hex.fromCodes, Hex.toCodes.
  set (bytes := sig_bytes w).
  assert (Hl : Z.of_nat (length bytes) = sigBytes w) by (unfold bytes; rewrite length_sig_bytes; lia).
  change (bytes ≫= (fun bite => [Hex.digit_char (JS.ushr bite 4); Hex.digit_char (JS.and bite 15)]))
    with (bytes ≫= hex_pair).
  cbv zeta. rewrite length_hex_pairs.
  replace (Z.of_nat (2 * length bytes)) with (2 * Z.of_nat (length bytes)) by lia.
  rewrite Z.even_mul. cbn [Z.even orb].
  replace ((2 * Z.of_nat (length bytes) + 1) / 2) with (Z.of_nat (length bytes)) by zdm.
  replace (2 * Z.of_nat (length bytes) / 2) with (Z.of_nat (length bytes)) by zdm.
  destruct (hex_fold_push bytes (length bytes) ltac:(lia) (sig_bytes_all_bytes w) ltac:(lia))
    as [H1 _].
  rewrite firstn_all in H1. rewrite H1. done.
Qed.

(** Two word arrays without excess bits, of integers of 32 bits, with the
    same bytes are the same. *)
Lemma canonical_eq ws ws' s :
  s < 2 ^ 32 -> clamped ws s -> clamped ws' s -> all_int32 ws -> all_int32 ws' ->
  bytes_of ws s = bytes_of ws' s -> ws = ws'.
Proof.
  intros Hlt Hc Hc' Hi Hi' Hb.
  pose proof Hc as (Hs & Hl & _). pose proof Hc' as (_ & Hl' & _).
  apply list_eq_get; [apply Nat2Z.inj; congruence|].
  intros j Hj. apply lanes_inj_int32; [by apply Hi; lia|by apply Hi'; lia|].
  intros k Hk.
  assert (Hb4 : forall i, 0 <= i < 2 ^ 32 -> byteAt ws i = byteAt ws' i).
  { intros i Hi4. destruct (decide (i < s)) as [Hin|Hout].
    - assert (E : bytes_of ws s !! Z.to_nat i = bytes_of ws' s !! Z.to_nat i) by (by rewrite Hb).
      rewrite !lookup_bytes_of in E by lia. by injection E.
    - rewrite (clamped_bytes_beyond ws s), (clamped_bytes_beyond ws' s) by (done || lia). done. }
  specialize (Hb4 (j * 4 + k) ltac:(zdm)). rewrite !byteAt_split in Hb4 by zdm.
  replace ((j * 4 + k) / 4) with j in Hb4 by zdm.
  replace ((j * 4 + k) mod 4) with k in Hb4 by zdm. done.
Qed.

(** [Hex.fromString] reads the Hex text of a buffer (of 32-bit integers,
    without excess bits) back as that buffer. *)
Lemma hex_text_decoded x t :
  clamped (words x) (sigBytes x) -> all_int32 (words x) -> 2 * sigBytes x < 2 ^ 32 ->
  char_codes t = Hex.toCodes x ->
  Hex.fromCodes (char_codes t) = Ok x.
Proof.
  intros Hc Hi Hlt Ht.
  assert (Hs : 0 <= sigBytes x) by apply Hc.
  rewrite Ht, hex_fromCodes_toCodes by lia. f_equal.
  destruct (fromCodes_spec (sig_bytes x) (sig_bytes_all_bytes x)) as (E1 & E2 & E3 & E4).
  { rewrite length_sig_bytes. lia. }
  cbv zeta in *. rewrite length_sig_bytes, Z.max_r in E1 by lia.
  destruct (Latin1.fromCodes (sig_bytes x)) as [ws' s'] eqn:E. destruct x as [ws sx].
  cbn [words sigBytes] in *. subst s'. f_equal.
  apply (canonical_eq ws' ws sx); [lia|done|done|done|done|exact E2].
Qed.

(** ** Worlds and primitives for the examples *)

(** A message of five bytes at reference 0, a key at 1, an IV at 2. *)
Definition example_world : World :=
  mkWorld (<[0%nat := [0x61626364; 0x65000000]]> (<[1%nat := [0xff]]> (<[2%nat := [0x10; 0x20]]> ∅)))
          (<[0%nat := mkObj 0 5]> (<[1%nat := mkObj 1 4]> (<[2%nat := mkObj 2 8]> ∅)))
          (fun k => Z.of_nat k).

Definition example_cfg : Cipher.Config := Cipher.mkConfig (Some 2%nat) None None.

(** An empty message at reference 0, a key at 1, an IV of 64 words at 2. *)
Definition wide_world : World :=
  mkWorld (<[0%nat := []]> (<[1%nat := [0xff]]> (<[2%nat := replicate 64 0]> ∅)))
          (<[0%nat := mkObj 0 0]> (<[1%nat := mkObj 1 4]> (<[2%nat := mkObj 2 256]> ∅)))
          (fun k => Z.of_nat k).

(** A toy key derivation for examples: word [i] of the key material is the
    salt word [i mod 2] XOR-ed with [i] plus the length of the password. *)
Definition toy_kdf : EvpKDF := fun password salt n =>
  WordArray_create
    (Some ((fun i => JS.xor (JS.get (words salt) (i mod 2)) (i + Z.of_nat (String.length password)))
           <$> seqZ 0 n))
    None.

(** * The claims *)

(** C1, as amended.  For a block cipher whose [decryptBlock] inverts
    [encryptBlock] and whose block size is between 1 and 63 words (so that
    the padding length fits in one byte), with CBC and PKCS #5/7 padding (the
    defaults), any key and IV, and any buffer [m] of [sigBytes m >= 0]
    bytes, aligned or not, empty or not: [encrypt] returns a buffer,
    [decrypt] of that buffer returns a buffer, and it has the significant
    bytes of [m]. *)
Theorem C1_cipher_roundtrip c w mr kr ir cfg m k ivv :
  1 <= _blockSize c <= 63 ->
  block_inverse c (_init c k) ->
  deref w mr = Some m -> deref w kr = Some k -> deref w ir = Some ivv ->
  Cipher.iv cfg = Some ir ->
  Cipher.cfg_padding cfg = C_pad_PKCS5 -> Cipher.cfg_mode cfg = C_mode_CBC ->
  0 <= sigBytes m -> sigBytes m + _blockSize c * 4 < 2 ^ 32 ->
  exists ct w1 p w2 v,
    Cipher.encrypt c (Cipher.Buffer mr) kr cfg w = (Ok ct, w1) /\
    Cipher.decrypt c (Cipher.Buffer ct) kr cfg w1 = (Ok p, w2) /\
    deref w2 p = Some v /\
    sigBytes v = sigBytes m /\ sig_bytes v = sig_bytes m /\ Hex.toCodes v = Hex.toCodes m.
Proof.
  intros Hbs Hinv Hm Hk Hiv Hcfg Hpad Hmode Hs Hlt.
  destruct (roundtrip_value c m k cfg (words ivv) Hpad Hmode Hbs Hinv Hs Hlt)
    as (ctv & pv & Henc & Hdec & Hsig & Hbytes).
  assert (Hivv : iv_value w cfg = Some (Some (words ivv))).
  { unfold iv_value. rewrite Hcfg, Hiv. done. }
  destruct (encrypt_run c mr kr cfg w m k _ ctv Hm Hk Hivv Henc) as (w1 & Hrun1 & Hd1 & Hag1).
  destruct (decrypt_run c _ kr cfg w1 ctv k _ pv Hd1
              (agree_deref _ _ _ _ Hag1 Hk) (iv_value_agree _ _ _ _ Hag1 Hivv) Hdec)
    as (w2 & Hrun2 & Hd2 & _).
  exists (fresh (dom (objects w))), w1, (fresh (dom (objects w1))), w2, pv.
  split; [done|]. split; [done|]. split; [done|]. split; [done|]. split; [done|].
  unfold Hex.toCodes. by rewrite Hbytes.
Qed.

Lemma C1_cipher_roundtrip_witness :
  exists ct w1 p w2 v,
    Cipher.encrypt (xor_cipher 2) (Cipher.Buffer 0%nat) 1%nat example_cfg example_world = (Ok ct, w1) /\
    Cipher.decrypt (xor_cipher 2) (Cipher.Buffer ct) 1%nat example_cfg w1 = (Ok p, w2) /\
    deref w2 p = Some v /\
    sigBytes v = 5 /\ sig_bytes v = [0x61; 0x62; 0x63; 0x64; 0x65] /\
    Hex.toCodes v = char_codes "6162636465".
Proof.
  apply (C1_cipher_roundtrip (xor_cipher 2) example_world 0%nat 1%nat 2%nat example_cfg
           (mkWordArray [0x61626364; 0x65000000] 5) (mkWordArray [0xff] 4)
           (mkWordArray [0x10; 0x20] 8)).
  - simpl. lia.
  - apply xor_cipher_inverse.
  - reflexivity.
  - reflexivity.
  - reflexivity.
  - reflexivity.
  - reflexivity.
  - reflexivity.
  - simpl. lia.
  - simpl. lia.
Defined.

(** C1 as stated fails for a block of 64 words (256 bytes): the padding
    length 256 does not fit in a byte, [pad] writes the bytes 01 01 01 00,
    and [unpad] removes nothing, so that the empty message comes back as 256
    bytes. *)
Lemma C1_counterexample :
  block_inverse (xor_cipher 64) 0xff /\
  exists ct w1 p w2 v,
    Cipher.encrypt (xor_cipher 64) (Cipher.Buffer 0%nat) 1%nat example_cfg wide_world = (Ok ct, w1) /\
    Cipher.decrypt (xor_cipher 64) (Cipher.Buffer ct) 1%nat example_cfg w1 = (Ok p, w2) /\
    deref wide_world 0%nat = Some (mkWordArray [] 0) /\
    deref w2 p = Some v /\ sigBytes v = 256.
Proof.
  split; [apply xor_cipher_inverse|].
  set (r1 := Cipher.encrypt (xor_cipher 64) (Cipher.Buffer 0%nat) 1%nat example_cfg wide_world).
  set (r2 := Cipher.decrypt (xor_cipher 64) (Cipher.Buffer 3%nat) 1%nat example_cfg r1.2).
  exists 3%nat, r1.2, 4%nat, r2.2, (mkWordArray (replicate 64 0x01010100) 256).
  split; [by vm_compute|]. split; [by vm_compute|]. split; [by vm_compute|].
  split; by vm_compute.
Qed.

(** The call returned a value. *)
Definition returns {A} (o : outcome A) : bool :=
  match o with Ok _ => true | _ => false end.

(** C2: [PBE.encrypt] assembles the params object and then returns the
    variable [ciphertextParams], which nothing declares: the call ends in a
    ReferenceError, here on the message ["hello"] and the password ["pw"],
    and it returns on no input at all. *)
Theorem C2_pbe_encrypt_throws :
  (PBE.encrypt toy_kdf (xor_cipher 2) (Cipher.Text "hello") "pw" (PBE.mkConfig None None)
     example_world).1 = Throw ReferenceError /\
  forall evpKDF cipher message password cfg w,
    returns (PBE.encrypt evpKDF cipher message password cfg w).1 = false.
Proof.
  split; [by vm_compute|].
  intros evpKDF cipher message password cfg w. unfold PBE.encrypt.
  rewrite bind_run. destruct (PBE.cfg_kdf _ _ _ _ _ _) as [[params| | |] w1]; try done.
  rewrite bind_run. unfold lift at 1.
  destruct (CipherParams.key params) as [key|]; try done.
  rewrite bind_run. destruct (Cipher.encrypt _ _ _ _ _) as [[raw| | |] w2]; try done.
Qed.

(** C5, as amended.  For a block size of 1 to 63 words and a buffer [d]
    with [sigBytes d >= 0], [pad] appends exactly [n] bytes of value [n],
    where [n = blockSizeBytes - sigBytes d mod blockSizeBytes], between 1 and
    [blockSizeBytes] (a whole block on an aligned message), and [unpad] of
    the result has the significant bytes of [d]. *)
Theorem C5_pad_unpad d bs :
  0 <= sigBytes d -> 1 <= bs <= 63 -> sigBytes d + bs * 4 < 2 ^ 32 ->
  let n := bs * 4 - sigBytes d mod (bs * 4) in
  1 <= n <= bs * 4 /\
  (sigBytes d mod (bs * 4) = 0 -> n = bs * 4) /\
  exists r, PKCS5.pad d bs = Ok r /\
    sigBytes r = sigBytes d + n /\
    sig_bytes r = sig_bytes d ++ replicate (Z.to_nat n) n /\
    sigBytes (PKCS5.unpad r) = sigBytes d /\
    sig_bytes (PKCS5.unpad r) = sig_bytes d.
Proof.
  intros Hs Hbs Hlt n.
  destruct (nPaddingBytes_spec (sigBytes d) (bs * 4) Hs ltac:(lia)) as (Hn & Hr & _).
  fold n in Hn. rewrite Hn in Hr.
  destruct (unpad_pad d bs Hs Hbs Hlt) as (r & Hp & Hsig & Hb & Hu & Hub).
  rewrite Hn in Hsig, Hb.
  split; [done|]. split; [unfold n; lia|].
  exists r. split; [done|]. split; [done|]. split; [done|]. split; [by rewrite Hu|done].
Qed.

Lemma C5_pad_unpad_witness :
  let d := mkWordArray [0x61626300] 3 in
  1 <= 5 <= 8 /\ (3 mod 8 = 0 -> 5 = 8) /\
  exists r, PKCS5.pad d 2 = Ok r /\
    sigBytes r = 3 + 5 /\
    sig_bytes r = sig_bytes d ++ replicate 5 5 /\
    sigBytes (PKCS5.unpad r) = 3 /\
    sig_bytes (PKCS5.unpad r) = sig_bytes d.
Proof.
  apply (C5_pad_unpad (mkWordArray [0x61626300] 3) 2); simpl; lia.
Defined.

(** C5 as stated fails for a block of 64 words: the 256 bytes that [pad]
    appends to the empty buffer are not of value 256, and [unpad] does not
    restore the empty buffer. *)
Lemma C5_counterexample :
  exists r, PKCS5.pad (mkWordArray [] 0) 64 = Ok r /\
    sigBytes r = 256 /\
    sig_bytes r <> replicate 256 256 /\
    sig_bytes r = mjoin (replicate 64 [1; 1; 1; 0]) /\
    sigBytes (PKCS5.unpad r) = 256.
Proof.
  exists (mkWordArray (replicate 64 0x01010100) 256).
  split; [by vm_compute|]. split; [done|]. split; [by vm_compute|]. split; by vm_compute.
Qed.

(** C6, as amended.  [unpad] checks nothing and throws nothing: it
    subtracts the low byte of the word that holds the last significant byte.
    For a buffer of a positive multiple of four bytes, below 2^32, that is
    the last significant byte, whatever its value and whatever the bytes
    before it;
    and some such buffer is left with a negative [sigBytes]. *)
Theorem C6_unpad_unchecked d :
  0 < sigBytes d < 2 ^ 32 -> sigBytes d mod 4 = 0 ->
  unpad C_pad_PKCS5 d =
    Ok (mkWordArray (words d) (sigBytes d - default 0 (last (sig_bytes d)))) /\
  (forall d' : WordArray,
     unpad C_pad_PKCS5 d' =
       Ok (mkWordArray (words d')
             (sigBytes d' - lane (JS.get (words d') (JS.ushr (sigBytes d' - 1) 2)) 3))) /\
  exists u, 0 < sigBytes u /\ sigBytes u = Z.of_nat (length (words u)) * 4 /\
    sigBytes (PKCS5.unpad u) < 0.
Proof.
  intros Hs Hal. split; [|split].
  - cbn [unpad C_pad_PKCS5]. unfold PKCS5.unpad. do 3 f_equal.
    rewrite and_255_lane, ushr2 by lia.
    rewrite last_lookup. unfold sig_bytes.
    rewrite length_fmap, length_seqZ.
    replace (Init.Nat.pred (Z.to_nat (sigBytes d))) with (Z.to_nat (sigBytes d - 1)) by lia.
    fold (bytes_of (words d) (sigBytes d)). rewrite lookup_bytes_of by lia. simpl.
    rewrite byteAt_split by lia. f_equal. zdm.
  - intros d'. cbn [unpad C_pad_PKCS5]. unfold PKCS5.unpad. by rewrite and_255_lane.
  - exists (mkWordArray [0x000000ff] 4). by vm_compute.
Qed.

Lemma C6_unpad_unchecked_witness :
  let d := mkWordArray [0x61626364; 0x05060708] 8 in
  unpad C_pad_PKCS5 d = Ok (mkWordArray [0x61626364; 0x05060708] (8 - 8)) /\
  (forall d' : WordArray,
     unpad C_pad_PKCS5 d' =
       Ok (mkWordArray (words d')
             (sigBytes d' - lane (JS.get (words d') (JS.ushr (sigBytes d' - 1) 2)) 3))) /\
  exists u, 0 < sigBytes u /\ sigBytes u = Z.of_nat (length (words u)) * 4 /\
    sigBytes (PKCS5.unpad u) < 0.
Proof.
  apply (C6_unpad_unchecked (mkWordArray [0x61626364; 0x05060708] 8)); simpl; [lia|reflexivity].
Defined.

(** C6 as stated fails on a buffer that does not end on a word boundary:
    the last significant byte of this one-byte buffer is 5, and [unpad]
    subtracts the 0 in the low byte of the word. *)
Lemma C6_counterexample :
  let d := mkWordArray [0x05000000] 1 in
  last (sig_bytes d) = Some 5 /\ sigBytes (PKCS5.unpad d) = 1.
Proof. split; reflexivity. Qed.

(** C7.  [encrypt] and [decrypt] leave the caller's buffer as it was, its
    words and its [sigBytes], however the call ends; every other array and
    object of the caller is unchanged too, and a buffer that is returned is a
    new object. *)
Theorem C7_input_unchanged c r key cfg w v :
  deref w r = Some v ->
  let e := Cipher.encrypt c (Cipher.Buffer r) key cfg w in
  let d := Cipher.decrypt c (Cipher.Buffer r) key cfg w in
  deref e.2 r = Some v /\ deref d.2 r = Some v /\
  agree w e.2 /\ agree w d.2 /\
  (forall out, e.1 = Ok out -> out <> r) /\ (forall out, d.1 = Ok out -> out <> r).
Proof.
  intros Hv e d.
  pose proof (encrypt_agree c (Cipher.Buffer r) key cfg w) as He.
  pose proof (decrypt_agree c (Cipher.Buffer r) key cfg w) as Hd.
  assert (Hr : r <> fresh (dom (objects w))).
  { unfold deref in Hv. destruct (objects w !! r) as [o|] eqn:E; [|done]. by eapply fresh_object. }
  split; [by eapply agree_deref|]. split; [by eapply agree_deref|].
  split; [done|]. split; [done|]. split.
  - intros out Ho. apply encrypt_result in Ho. congruence.
  - intros out Ho. apply decrypt_result in Ho. congruence.
Qed.

Lemma C7_input_unchanged_witness :
  let e := Cipher.encrypt (xor_cipher 2) (Cipher.Buffer 0%nat) 1%nat example_cfg example_world in
  let d := Cipher.decrypt (xor_cipher 2) (Cipher.Buffer 0%nat) 1%nat example_cfg example_world in
  deref e.2 0%nat = Some (mkWordArray [0x61626364; 0x65000000] 5) /\
  deref d.2 0%nat = Some (mkWordArray [0x61626364; 0x65000000] 5) /\
  agree example_world e.2 /\ agree example_world d.2 /\
  (forall out, e.1 = Ok out -> out <> 0%nat) /\ (forall out, d.1 = Ok out -> out <> 0%nat).
Proof.
  apply (C7_input_unchanged (xor_cipher 2) 0%nat 1%nat example_cfg example_world
           (mkWordArray [0x61626364; 0x65000000] 5)).
  reflexivity.
Defined.

(** C3, as amended.  Let the encoder give back, from the text of the
    buffer that [toString] hands to it, the bytes of that buffer.  For cipher
    params with a salt of 8 bytes, [fromString (toString params)] has the
    bytes of [params.rawCiphertext] and of [params.salt].  For cipher params
    without a salt whose raw ciphertext does not begin with the eight bytes
    ["Salted__"], it has the bytes of [params.rawCiphertext] and no salt.
    For cipher params without a salt whose raw ciphertext has at least 16
    bytes and begins with ["Salted__"], it has a salt, the bytes 8 to 15 of
    [params.rawCiphertext], and as raw ciphertext the bytes from 16 on. *)
Theorem C3_openssl_roundtrip base64 params raw :
  CipherParams.rawCiphertext params = Some raw ->
  0 <= sigBytes raw -> sigBytes raw + 16 < 2 ^ 32 ->
  match CipherParams.salt params with
  | Some salt => sigBytes salt = 8
  | None => take 8 (sig_bytes raw) = magic_bytes -> 16 <= sigBytes raw
  end ->
  (forall x, OpenSSL.openSSLStr params = Ok x ->
     enc_fromCodes base64 (enc_toCodes base64 x) = Ok (Latin1.fromCodes (sig_bytes x))) ->
  exists s p raw',
    OpenSSL.toString base64 params = Ok s /\ OpenSSL.fromString base64 s = Ok p /\
    CipherParams.rawCiphertext p = Some raw' /\
    match CipherParams.salt params with
    | Some salt =>
        sigBytes raw' = sigBytes raw /\ sig_bytes raw' = sig_bytes raw /\
        exists salt', CipherParams.salt p = Some salt' /\
          sigBytes salt' = sigBytes salt /\ sig_bytes salt' = sig_bytes salt
    | None =>
        if decide (take 8 (sig_bytes raw) = magic_bytes) then
          sigBytes raw' = sigBytes raw - 16 /\ sig_bytes raw' = drop 16 (sig_bytes raw) /\
          exists salt', CipherParams.salt p = Some salt' /\
            sigBytes salt' = 8 /\ sig_bytes salt' = take 8 (drop 8 (sig_bytes raw))
        else
          sigBytes raw' = sigBytes raw /\ sig_bytes raw' = sig_bytes raw /\
          CipherParams.salt p = None
    end.
Proof.
  intros Hraw Hs Hlt Hsalt Hcodec. unfold OpenSSL.toString.
  unfold OpenSSL.openSSLStr in *. rewrite Hraw in *.
  destruct (CipherParams.salt params) as [salt|].
  - destruct (openSSLStr_salted raw salt Hs Hsalt Hlt) as (x & Hx). rewrite Hx in *.
    cbn [mbind outcome_mbind outcome_bind].
    destruct (fromString_salted base64 raw salt _ x Hs Hsalt Hlt Hx (Hcodec x eq_refl))
      as (raw' & salt' & Hfrom & H1 & H2 & H3 & H4).
    exists (enc_toCodes base64 x). eexists. exists raw'.
    split; [done|]. split; [exact Hfrom|]. split; [done|]. split; [done|]. split; [done|].
    by exists salt'.
  - cbn [mbind outcome_mbind outcome_bind].
    destruct (decide (take 8 (sig_bytes raw) = magic_bytes)) as [Hm|Hm].
    + destruct (fromString_magic base64 raw _ (Hsalt Hm) ltac:(lia) Hm (Hcodec raw eq_refl))
        as (raw' & salt' & Hfrom & H1 & H2 & H3 & H4).
      exists (enc_toCodes base64 raw). eexists. exists raw'.
      split; [done|]. split; [exact Hfrom|]. split; [done|]. split; [done|]. split; [done|].
      by exists salt'.
    + destruct (fromString_unsalted base64 raw _ ltac:(lia) Hm (Hcodec raw eq_refl))
        as (raw' & Hfrom & H1 & H2).
      exists (enc_toCodes base64 raw). eexists. exists raw'.
      split; [done|]. split; [exact Hfrom|]. done.
Qed.

Lemma C3_openssl_roundtrip_witness :
  let raw := mkWordArray [0x00010203; 0x04050607] 8 in
  let salt := mkWordArray [0x01234567; 0x89abcdef] 8 in
  exists s p raw',
    OpenSSL.toString Base64.encoder (CipherParams.mk (Some raw) None None (Some salt) None) = Ok s /\
    OpenSSL.fromString Base64.encoder s = Ok p /\
    CipherParams.rawCiphertext p = Some raw' /\
    sigBytes raw' = 8 /\ sig_bytes raw' = sig_bytes raw /\
    exists salt', CipherParams.salt p = Some salt' /\
      sigBytes salt' = 8 /\ sig_bytes salt' = sig_bytes salt.
Proof.
  apply (C3_openssl_roundtrip Base64.encoder
           (CipherParams.mk (Some (mkWordArray [0x00010203; 0x04050607] 8)) None None
                            (Some (mkWordArray [0x01234567; 0x89abcdef] 8)) None)
           (mkWordArray [0x00010203; 0x04050607] 8)).
  - reflexivity.
  - simpl. lia.
  - simpl. lia.
  - reflexivity.
  - intros x Hx. vm_compute in Hx. injection Hx as <-. reflexivity.
Defined.

(** C3 as stated fails for a raw ciphertext without salt that begins with
    ["Salted__"]: the encoder gives its bytes back, and [fromString] takes
    bytes 8 to 15 for a salt and drops the first 16.  It also fails for a
    salt that is not 8 bytes long: of a salt of 4 bytes and a ciphertext of
    8, [fromString] takes the salt and the first 4 bytes of the ciphertext
    for the salt, and leaves the last 4 bytes for the ciphertext. *)
Lemma C3_counterexample :
  (let raw := mkWordArray [0x53616c74; 0x65645f5f; 0x01020304; 0x05060708; 0x090a0b0c] 20 in
   exists s,
     OpenSSL.toString Base64.encoder (CipherParams.mk (Some raw) None None None None) = Ok s /\
     enc_fromCodes Base64.encoder s = Ok raw /\
     OpenSSL.fromString Base64.encoder s =
       Ok (CipherParams.mk (Some (mkWordArray [0x090a0b0c] 4)) None None
                           (Some (mkWordArray [0x01020304; 0x05060708] 8)) None)) /\
  (let raw := mkWordArray [0x00010203; 0x04050607] 8 in
   let salt := mkWordArray [0x01234567] 4 in
   exists s,
     OpenSSL.toString Base64.encoder (CipherParams.mk (Some raw) None None (Some salt) None) = Ok s /\
     enc_fromCodes Base64.encoder s
     = Ok (mkWordArray [0x53616c74; 0x65645f5f; 0x01234567; 0x00010203; 0x04050607] 20) /\
     OpenSSL.fromString Base64.encoder s =
       Ok (CipherParams.mk (Some (mkWordArray [0x04050607] 4)) None None
                           (Some (mkWordArray [0x01234567; 0x00010203] 8)) None)).
Proof.
  split.
  - eexists. split; [reflexivity|]. split; reflexivity.
  - exists (char_codes "U2FsdGVkX18BI0VnAAECAwQFBgc="). split; [by vm_compute|]. split; by vm_compute.
Qed.

(** An unsalted ciphertext of two one-word blocks at reference 0. *)
Definition unsalted_world : World :=
  mkWorld (<[0%nat := [0x11111111; 0x22222210]]> ∅) (<[0%nat := mkObj 0 8]> ∅)
          (fun k => Z.of_nat k).

Definition unsalted_params : CipherParams.t nat :=
  CipherParams.mk (Some 0%nat) None None None None.

Lemma set_random_twice w a b : set_random (set_random w a) b = set_random w b.
Proof. reflexivity. Qed.

(** C4, as amended.  With the default key derivation, [PBE.decrypt] of
    cipher params with a salt derives key and IV from the password and that
    salt: two invocations on the same buffers give the same result whatever
    [Math.random] returns.  Without a salt the key derivation draws two
    random words for one: the call is the decryption with that random salt,
    and two invocations give the same result when the two words drawn are
    the same. *)
Theorem C4_pbe_decrypt_key_source base64 evpKDF cipher ct password fmt w1 w2 :
  same_heap w1 w2 ->
  match CipherParams.salt ct with
  | Some _ => True
  | None => random w1 0%nat mod 2 ^ 32 = random w2 0%nat mod 2 ^ 32 /\
            random w1 1%nat mod 2 ^ 32 = random w2 1%nat mod 2 ^ 32
  end ->
  let r1 := PBE.decrypt base64 evpKDF cipher (PBE.Params ct) password (PBE.mkConfig fmt None) w1 in
  let r2 := PBE.decrypt base64 evpKDF cipher (PBE.Params ct) password (PBE.mkConfig fmt None) w2 in
  r1.1 = r2.1 /\ same_heap r1.2 r2.2 /\
  (forall p, r1.1 = Ok p -> deref r1.2 p = deref r2.2 p) /\
  match CipherParams.salt ct with
  | Some s => r1 = decrypt_from evpKDF cipher ct password (mret s) w1
  | None =>
      r1 = decrypt_from evpKDF cipher ct password
             (WordArray_new (mkWordArray [random w1 0%nat mod 2 ^ 32; random w1 1%nat mod 2 ^ 32] 8))
             (set_random w1 (fun k => random w1 (2 + k)%nat))
  end.
Proof.
  intros Hh Hrnd r1 r2.
  assert (Hgoal : r1.1 = r2.1 /\ same_heap r1.2 r2.2).
  { subst r1 r2. rewrite (same_heap_set_random w1 w2 Hh).
    destruct (CipherParams.salt ct) as [s|] eqn:Es.
    - rewrite !(pbe_decrypt_salted _ _ _ _ _ _ s) by done.
      rewrite (oblivious_decrypt_from evpKDF cipher ct password (mret s)) by apply oblivious_ret.
      simpl. by split.
    - rewrite !pbe_decrypt_unsalted by done. cbn [random set_random].
      destruct Hrnd as [-> ->]. rewrite set_random_twice.
      set (m := decrypt_from _ _ _ _ _).
      assert (Hm : oblivious m) by (apply oblivious_decrypt_from, oblivious_new).
      rewrite !Hm. simpl. by split. }
  destruct Hgoal as [H1 [Ha Ho]]. split; [done|]. split; [done|]. split.
  - intros p _. unfold deref. by rewrite Ha, Ho.
  - subst r1. destruct (CipherParams.salt ct) as [s|] eqn:Es.
    + by apply pbe_decrypt_salted.
    + by apply pbe_decrypt_unsalted.
Qed.

Lemma C4_pbe_decrypt_key_source_witness :
  let w2 := set_random unsalted_world (fun k => Z.of_nat k + 2 ^ 32) in
  let r1 := PBE.decrypt Base64.encoder toy_kdf (xor_cipher 1) (PBE.Params unsalted_params) "pw"
              (PBE.mkConfig None None) unsalted_world in
  let r2 := PBE.decrypt Base64.encoder toy_kdf (xor_cipher 1) (PBE.Params unsalted_params) "pw"
              (PBE.mkConfig None None) w2 in
  r1.1 = r2.1 /\ same_heap r1.2 r2.2 /\
  (forall p, r1.1 = Ok p -> deref r1.2 p = deref r2.2 p) /\
  r1 = decrypt_from toy_kdf (xor_cipher 1) unsalted_params "pw"
         (WordArray_new (mkWordArray [0; 1] 8))
         (set_random unsalted_world (fun k => Z.of_nat (2 + k))).
Proof.
  apply (C4_pbe_decrypt_key_source Base64.encoder toy_kdf (xor_cipher 1) unsalted_params "pw" None
           unsalted_world (set_random unsalted_world (fun k => Z.of_nat k + 2 ^ 32))).
  - split; reflexivity.
  - split; reflexivity.
Defined.

(** C4 as stated fails: two invocations of [PBE.decrypt] with the same
    cipher, the same unsalted ciphertext and the same password, one after the
    other, draw different salts and return different plaintexts. *)
Lemma C4_counterexample :
  let r1 := PBE.decrypt Base64.encoder toy_kdf (xor_cipher 1) (PBE.Params unsalted_params) "pw"
              (PBE.mkConfig None None) unsalted_world in
  let r2 := PBE.decrypt Base64.encoder toy_kdf (xor_cipher 1) (PBE.Params unsalted_params) "pw"
              (PBE.mkConfig None None) r1.2 in
  exists p1 p2 v1 v2,
    r1.1 = Ok p1 /\ r2.1 = Ok p2 /\
    deref r1.2 0%nat = Some (mkWordArray [0x11111111; 0x22222210] 8) /\
    deref r1.2 p1 = Some v1 /\ deref r2.2 p2 = Some v2 /\
    sig_bytes v1 = [0x11; 0x11; 0x11; 0x11; 0x33] /\
    sig_bytes v2 = [0x11; 0x11; 0x11; 0x11; 0x33; 0x33; 0x33].
Proof.
  do 4 eexists. split; [by vm_compute|]. split; [by vm_compute|]. split; [by vm_compute|].
  split; [by vm_compute|]. split; [by vm_compute|]. split; by vm_compute.
Qed.

(** The HMAC instance that [init] makes from the toy hash and the key ["key"]. *)
Definition example_hmac : HMACState :=
  mkHMAC (mkHasher (mkWordArray [1782987879] 4) (mkWordArray [] 0) 8)
         (mkWordArray [926491996; 1549556828] 8) (mkWordArray [1565740854; 909522486] 8).

(** C8.  Let the primitive's [_doCompute] return a digest, let the instance
    be as [init] made it, and let no update overflow the byte counter.  Then
    a sequence of updates followed by [compute] returns a MAC: the digest of
    the outer key followed by the inner digest, where the inner digest is
    that of the hasher that was fed the bytes of the inner key and then the
    bytes of the updates, piece after piece (which, below 2^32 bytes in all,
    is the hasher that was fed the inner key followed by the whole message).
    It leaves the instance as [init] made it, primed with the inner key, so
    that the same updates and [compute], run a second time on the instance
    that the first run left, return the same MAC. *)
Theorem C8_hmac_compute_reusable algo key st us final :
  1 <= blockSize algo -> finalizes algo ->
  HMAC.init algo key = Ok st ->
  Forall (fits algo) us -> (forall u, final = Some u -> fits algo u) ->
  let pieces := us ++ option_list final in
  let fed := fold_left (fun g u => absorb_bytes algo g (sig_bytes (Hash.to_wordarray u))) pieces
               (absorb_bytes algo (Hash.reset algo) (sig_bytes (_iKey st))) in
  HMACRun.primed algo st /\
  (blockSize algo * 4 + Z.of_nat (length (stream pieces)) < 2 ^ 32 ->
   fed = absorb_bytes algo (Hash.reset algo) (sig_bytes (_iKey st) ++ stream pieces)) /\
  exists mac,
    HMACRun.run algo st us final = Ok (mac, st) /\
    (r ← HMACRun.run algo st us final; HMACRun.run algo r.2 us final) = Ok (mac, st) /\
    exists st2 st3 inner outerInput h,
      HMACRun.updates algo st us = Ok st2 /\
      (if Hash.truthy final then HMAC.update algo st2 (default (Str "") final) else Ok st2)
        = Ok st3 /\
      _hasher st3 = fed /\
      finalize algo (words (_hash (_hasher st3))) (_message (_hasher st3)) (_length (_hasher st3))
        = Ok inner /\
      concat (_oKey st) inner = Ok outerInput /\
      sig_bytes outerInput = sig_bytes (_oKey st) ++ sig_bytes inner /\
      Hash.update algo (Hash.reset algo) (Wa outerInput) = Ok h /\
      h = absorb_bytes algo (Hash.reset algo) (sig_bytes (_oKey st) ++ sig_bytes inner) /\
      finalize algo (words (_hash h)) (_message h) (_length h) = Ok mac.
Proof.
  intros Hbs Hfin Hinit Hus Hfinal pieces fed.
  pose proof (hmac_init_primed _ _ _ Hinit) as Hp.
  destruct (hmac_init_keys _ _ _ Hinit) as [Hko Hki].
  assert (Hlt : blockSize algo * 4 < 2 ^ 32).
  { destruct (Hfin [] (mkWordArray [] 0) 0) as (d & _ & ? & ?). lia. }
  pose proof (primed_ready algo st Hbs Hlt Hki Hp) as Hr.
  assert (Hr0 : ready algo (Hash.reset algo)) by (split; [apply clamped_nil|simpl; lia]).
  assert (Hst : _hasher st = absorb_bytes algo (Hash.reset algo) (sig_bytes (_iKey st))).
  { unfold HMACRun.primed in Hp.
    rewrite update_absorb in Hp by (done || apply clamped_nil || (simpl; lia)).
    by injection Hp. }
  assert (Hpieces : Forall (fits algo) pieces).
  { apply Forall_app. split; [done|]. destruct final as [u|]; [|constructor].
    apply Forall_singleton. by apply Hfinal. }
  destruct (hmac_updates_return algo us st Hbs Hr Hus) as (st2 & E & Hr2 & Ho2 & Hi2).
  destruct (hmac_compute_returns algo st st2 final Hbs Hfin Hp Ho2 Hi2 Hko Hr2 Hfinal)
    as (mac & st3 & inner & x & h & Ec & E1 & E2 & E3 & Hx & E4 & E5).
  assert (Hrun : HMACRun.run algo st us final = Ok (mac, st)).
  { unfold HMACRun.run. rewrite E. exact Ec. }
  split; [done|]. split.
  { intros Hall. unfold fed. rewrite <- Hst.
    rewrite pieces_stream; [|done|done|done|destruct Hr; lia].
    rewrite Hst. apply absorb_bytes_app; [done|apply clamped_nil| | |apply stream_bytes].
    - rewrite length_sig_bytes. simpl. lia.
    - apply sig_bytes_all_bytes. }
  exists mac. split; [done|]. split.
  { rewrite Hrun. exact Hrun. }
  exists st2, st3, inner, x, h.
  split; [done|]. split; [done|]. split; [|split; [done|]; split; [done|]; split; [done|]; split; [done|]; split; [|done]].
  - (* the inner hasher *)
    rewrite hmac_updates_hash in E.
    destruct (hash_updates_pieces algo us (_hasher st) Hbs Hr Hus) as [Eh Hrh]. cbv zeta in Eh, Hrh.
    rewrite Eh in E. cbn [mbind outcome_mbind outcome_bind] in E. injection E as <-.
    unfold fed, pieces. rewrite fold_left_app, <- Hst.
    set (h2 := fold_left _ us (_hasher st)) in *.
    destruct final as [u|].
    + change (option_list (Some u)) with [u]. cbn [fold_left].
      destruct (Hfinal u eq_refl) as [Hu0 Hu1].
      assert (Eu : HMAC.update algo (mkHMAC h2 (_oKey st) (_iKey st)) u
                   = Ok (mkHMAC (absorb_bytes algo h2 (sig_bytes (Hash.to_wordarray u)))
                           (_oKey st) (_iKey st))).
      { unfold HMAC.update. cbn [_hasher _oKey _iKey].
        change (Hash.update algo h2 u) with (Hash.update algo h2 (Wa (Hash.to_wordarray u))).
        rewrite update_absorb; [done|done|apply Hrh|done|destruct Hrh; lia]. }
      destruct (Hash.truthy (Some u)) eqn:Et.
      * cbn [default from_option] in E1. cbv [id] in E1. rewrite Eu in E1. by injection E1 as <-.
      * injection E1 as <-. cbn [_hasher].
        destruct u as [s|w]; [|done]. simpl in Et. destruct s; [|done].
        change (sig_bytes (Hash.to_wordarray (Str ""))) with (@nil Z).
        by rewrite absorb_bytes_nil.
    + cbn in E1. injection E1 as <-. done.
  - (* the outer hasher *)
    destruct (concat_spec (_oKey st) inner) as (x' & E3' & Hxs & _); [| |].
    + lia.
    + destruct (Hfin (words (_hash (_hasher st3))) (_message (_hasher st3)) (_length (_hasher st3)))
        as (d & Ed & Hd0 & Hd1). rewrite E2 in Ed. injection Ed as <-. lia.
    + rewrite E3 in E3'. injection E3' as <-.
      destruct (Hfin (words (_hash (_hasher st3))) (_message (_hasher st3)) (_length (_hasher st3)))
        as (d & Ed & Hd0 & Hd1). rewrite E2 in Ed. injection Ed as <-.
      rewrite update_absorb in E4; [|done|apply clamped_nil|lia|simpl; lia].
      injection E4 as <-. by rewrite Hx.
Qed.

Lemma C8_hmac_compute_reusable_witness :
  let algo := xor_hash 2 in
  let us := [Str "abc"; Wa (mkWordArray [0x01020304; 0x05060708; 0x090a0000] 10)] in
  let final := Some (Str "z") in
  HMACRun.primed algo example_hmac /\
  exists mac,
    HMACRun.run algo example_hmac us final = Ok (mac, example_hmac) /\
    (r ← HMACRun.run algo example_hmac us final; HMACRun.run algo r.2 us final)
      = Ok (mac, example_hmac) /\
    exists st2 st3 inner outerInput h,
      HMACRun.updates algo example_hmac us = Ok st2 /\
      (if Hash.truthy final then HMAC.update algo st2 (default (Str "") final) else Ok st2)
        = Ok st3 /\
      _hasher st3
      = absorb_bytes algo (Hash.reset algo)
          (sig_bytes (_iKey example_hmac) ++
           [0x61; 0x62; 0x63; 1; 2; 3; 4; 5; 6; 7; 8; 9; 10; 0x7a]) /\
      finalize algo (words (_hash (_hasher st3))) (_message (_hasher st3)) (_length (_hasher st3))
        = Ok inner /\
      concat (_oKey example_hmac) inner = Ok outerInput /\
      sig_bytes outerInput = sig_bytes (_oKey example_hmac) ++ sig_bytes inner /\
      Hash.update algo (Hash.reset algo) (Wa outerInput) = Ok h /\
      h = absorb_bytes algo (Hash.reset algo) (sig_bytes (_oKey example_hmac) ++ sig_bytes inner) /\
      finalize algo (words (_hash h)) (_message h) (_length h) = Ok mac.
Proof.
  intros algo us final.
  destruct (C8_hmac_compute_reusable (xor_hash 2) (Str "key") example_hmac
              [Str "abc"; Wa (mkWordArray [0x01020304; 0x05060708; 0x090a0000] 10)]
              (Some (Str "z")))
    as (Hp & Hg & mac & Hrun & Hrun2 & st2 & st3 & inner & x & h & H1 & H2 & H3 & H4);
    [simpl; lia
    |intros hw m l; eexists; split; [reflexivity|]; simpl; lia
    |reflexivity
    |repeat constructor; simpl; lia
    |intros u [= <-]; split; simpl; lia
    |].
  split; [exact Hp|]. exists mac. split; [exact Hrun|]. split; [exact Hrun2|].
  exists st2, st3, inner, x, h. split; [exact H1|]. split; [exact H2|]. split; [|exact H4].
  rewrite H3. apply Hg. simpl. lia.
Defined.

(** C9.  On a hasher whose pending message is as [reset] and [update]
    leave it, [update(a)] then [update(b)] ends in the state in which one
    [update] of [a] followed by [b] ends: the same digest words, the same
    pending message, the same length.  After an update the pending message
    is shorter than a block and holds the last bytes appended; the blocks
    fed to the primitive are the complete blocks, in order. *)
Theorem C9_update_split algo h a b :
  1 <= blockSize algo ->
  clamped (words (_message h)) (sigBytes (_message h)) ->
  0 <= sigBytes a -> 0 <= sigBytes b ->
  sigBytes (_message h) + sigBytes a + sigBytes b < 2 ^ 32 ->
  exists ab h1 h2,
    concat (clone_value a) b = Ok ab /\
    Hash.update algo h (Wa a) = Ok h1 /\
    Hash.update algo h1 (Wa b) = Ok h2 /\
    Hash.update algo h (Wa ab) = Ok h2 /\
    h1 = absorb_bytes algo h (sig_bytes a) /\
    h2 = absorb_bytes algo h (sig_bytes a ++ sig_bytes b) /\
    clamped (words (_message h1)) (sigBytes (_message h1)) /\
    sigBytes (_message h1) = (sigBytes (_message h) + sigBytes a) mod (blockSize algo * 4) /\
    sig_bytes (_message h1) =
      drop (Z.to_nat (sigBytes (_message h) + sigBytes a - sigBytes (_message h1)))
           (sig_bytes (_message h) ++ sig_bytes a).
Proof.
  intros Hbs Hc Ha Hb Hlt.
  assert (Hs0 : 0 <= sigBytes (_message h)) by apply Hc.
  assert (HA : Forall is_byte (sig_bytes a)) by (apply sig_bytes_bytes; lia).
  assert (HB : Forall is_byte (sig_bytes b)) by (apply sig_bytes_bytes; lia).
  assert (HlA : Z.of_nat (length (sig_bytes a)) = sigBytes a) by (rewrite length_sig_bytes; lia).
  assert (HlB : Z.of_nat (length (sig_bytes b)) = sigBytes b) by (rewrite length_sig_bytes; lia).
  destruct (concat_spec (clone_value a) b) as (ab & Hab & Habs & _ & _ & Habb); [simpl; lia|simpl; lia|].
  simpl in Habs. change (sig_bytes (clone_value a)) with (sig_bytes a) in Habb.
  destruct (absorb_bytes_message algo h (sig_bytes a) Hbs Hc ltac:(lia) HA) as (Hc1 & Hs1 & Hb1).
  cbv zeta in *. rewrite HlA in *.
  set (h1 := absorb_bytes algo h (sig_bytes a)) in *.
  assert (Hlt1 : 0 <= sigBytes (_message h1) <= sigBytes (_message h) + sigBytes a).
  { rewrite Hs1. pose proof (Z.mod_pos_bound (sigBytes (_message h) + sigBytes a) (blockSize algo * 4)
                               ltac:(lia)).
    pose proof (Z.mod_le (sigBytes (_message h) + sigBytes a) (blockSize algo * 4)
                  ltac:(lia) ltac:(lia)). lia. }
  exists ab, h1, (absorb_bytes algo h (sig_bytes a ++ sig_bytes b)).
  split; [done|]. split; [by apply update_absorb; try lia|]. split; [|split].
  - rewrite update_absorb by (done || lia). f_equal. apply absorb_bytes_app; try done. lia.
  - rewrite update_absorb by (done || lia). by rewrite Habb.
  - done.
Qed.

Lemma C9_update_split_witness :
  let algo := xor_hash 2 in
  let a := mkWordArray [0x01020304; 0x05060000] 6 in
  let b := mkWordArray [0x0708090a; 0x0b0c0d00] 7 in
  exists ab h1 h2,
    concat (clone_value a) b = Ok ab /\
    Hash.update algo (Hash.reset algo) (Wa a) = Ok h1 /\
    Hash.update algo h1 (Wa b) = Ok h2 /\
    Hash.update algo (Hash.reset algo) (Wa ab) = Ok h2 /\
    h1 = absorb_bytes algo (Hash.reset algo) (sig_bytes a) /\
    h2 = absorb_bytes algo (Hash.reset algo) (sig_bytes a ++ sig_bytes b) /\
    clamped (words (_message h1)) (sigBytes (_message h1)) /\
    sigBytes (_message h1) = (0 + 6) mod (2 * 4) /\
    sig_bytes (_message h1) =
      drop (Z.to_nat (0 + 6 - sigBytes (_message h1))) ([] ++ sig_bytes a).
Proof.
  apply (C9_update_split (xor_hash 2) (Hash.reset (xor_hash 2))
           (mkWordArray [0x01020304; 0x05060000] 6) (mkWordArray [0x0708090a; 0x0b0c0d00] 7)).
  - simpl. lia.
  - apply clamped_nil.
  - simpl. lia.
  - simpl. lia.
  - simpl. lia.
Defined.





(** * Further properties of the code *)

(** ** core.js: WordArray *)

(** X1.  [concat] appends the significant bytes of its argument to those of
    the receiver, at any alignment of either: the result has the bytes of
    the receiver followed by those of the argument, as many words as they
    need and no bits beyond them.  An argument with a negative [sigBytes]
    appends nothing. *)
Theorem X1_concat_bytes this that :
  0 <= sigBytes this -> sigBytes this + Z.max 0 (sigBytes that) < 2 ^ 32 ->
  exists r, concat this that = Ok r /\
    sigBytes r = sigBytes this + Z.max 0 (sigBytes that) /\
    sig_bytes r = sig_bytes this ++ sig_bytes that /\
    clamped (words r) (sigBytes r).
Proof.
  intros Hs Hlt. destruct (concat_spec this that Hs Hlt) as (r & Hr & Hsz & Hc & _ & Hb).
  by exists r.
Qed.

Lemma X1_concat_bytes_witness :
  exists r, concat (mkWordArray [0x12345678; 0x9abcdef0] 5) (mkWordArray [0x01020304] 3) = Ok r /\
    sigBytes r = 5 + Z.max 0 3 /\
    sig_bytes r = [0x12; 0x34; 0x56; 0x78; 0x9a] ++ [0x01; 0x02; 0x03] /\
    clamped (words r) (sigBytes r).
Proof.
  apply (X1_concat_bytes (mkWordArray [0x12345678; 0x9abcdef0] 5) (mkWordArray [0x01020304] 3));
    simpl; lia.
Defined.

(** X2.  [clamp] keeps [sigBytes] and the significant bytes, cuts the
    array to the words that hold them, clears the bits of the last word
    beyond them, and changes nothing when it is applied again. *)
Theorem X2_clamp w :
  0 <= sigBytes w < 2 ^ 32 ->
  exists r, clamp w = Ok r /\
    sigBytes r = sigBytes w /\ sig_bytes r = sig_bytes w /\
    Z.of_nat (length (words r)) = JS.ceil_div4 (sigBytes w) /\
    (forall i, sigBytes w <= i < 4 * JS.ceil_div4 (sigBytes w) -> byteAt (words r) i = 0) /\
    clamp r = Ok r.
Proof.
  intros Hs. destruct (clamp_spec w Hs) as (ws' & Hr & Hc & _ & Hb).
  exists (mkWordArray ws' (sigBytes w)). split; [done|]. split; [done|]. split; [exact Hb|].
  split; [apply Hc|]. split.
  - intros i Hi. apply (clamped_bytes_beyond ws' (sigBytes w)); [done|zdm].
  - apply clamp_id; [done|lia].
Qed.

Lemma X2_clamp_witness :
  exists r, clamp (mkWordArray [0x12345678; 0x9abcdef0; 7] 5) = Ok r /\
    sigBytes r = 5 /\ sig_bytes r = [0x12; 0x34; 0x56; 0x78; 0x9a] /\
    Z.of_nat (length (words r)) = 2 /\
    (forall i, 5 <= i < 4 * 2 -> byteAt (words r) i = 0) /\
    clamp r = Ok r.
Proof.
  apply (X2_clamp (mkWordArray [0x12345678; 0x9abcdef0; 7] 5)). simpl. lia.
Defined.

(** ** core.js: the Latin-1 encoder *)

Lemma char_codes_bytes s : Forall is_byte (char_codes s).
Proof.
  unfold char_codes. apply Forall_fmap, Forall_forall. intros a _. simpl.
  pose proof (Ascii.nat_ascii_bounded a). unfold is_byte. lia.
Qed.

Lemma length_char_codes s : length (char_codes s) = String.length s.
Proof.
  unfold char_codes. rewrite length_fmap. induction s as [|a s IH]; simpl; congruence.
Qed.

(** X3.  [Latin1.fromString] and [Latin1.toString] invert each other:
    the text of a word array decodes to a word array with the same
    significant bytes, with no excess word or bit even when the first had
    some; and the word array of a string (of characters with codes up to
    255) has that string as its text. *)
Theorem X3_latin1_roundtrip w s :
  0 <= sigBytes w <= 2 ^ 32 -> Z.of_nat (String.length s) <= 2 ^ 32 ->
  let v := Latin1.fromCodes (Latin1.toCodes w) in
  sigBytes v = sigBytes w /\ sig_bytes v = sig_bytes w /\
  clamped (words v) (sigBytes v) /\
  sigBytes (Latin1.fromString s) = Z.of_nat (String.length s) /\
  Latin1.toCodes (Latin1.fromString s) = char_codes s.
Proof.
  intros Hw Hlen v.
  destruct (fromCodes_spec (sig_bytes w)) as (H1 & H2 & H3 & _).
  { apply sig_bytes_bytes. lia. }
  { rewrite length_sig_bytes. lia. }
  destruct (fromCodes_spec (char_codes s) (char_codes_bytes s)) as (H4 & H5 & _).
  { rewrite length_char_codes. lia. }
  rewrite length_sig_bytes in H1. rewrite length_char_codes in H4.
  split; [unfold v, Latin1.toCodes; lia|]. split; [done|]. split; [done|]. split; done.
Qed.

Lemma X3_latin1_roundtrip_witness :
  let w := mkWordArray [0x61626364; 0x65ffffff; 9] 5 in
  let v := Latin1.fromCodes (Latin1.toCodes w) in
  sigBytes v = 5 /\ sig_bytes v = sig_bytes w /\
  clamped (words v) (sigBytes v) /\
  sigBytes (Latin1.fromString "abcde") = 5 /\
  Latin1.toCodes (Latin1.fromString "abcde") = char_codes "abcde".
Proof.
  apply (X3_latin1_roundtrip (mkWordArray [0x61626364; 0x65ffffff; 9] 5) "abcde"); simpl; lia.
Defined.

(** ** cipher-core.js: PKCS #5/7 padding *)

(** X4.  For any block size of at least one word, [pad] makes the buffer a
    whole number of blocks: it appends at least one byte and at most a
    block, the result is a multiple of the block size with exactly the words
    that its bytes fill, and the bytes of the data come first, unchanged. *)
Theorem X4_pad_aligned d bs :
  0 <= sigBytes d -> 1 <= bs -> sigBytes d + bs * 4 < 2 ^ 32 ->
  exists r, PKCS5.pad d bs = Ok r /\
    sigBytes r mod (bs * 4) = 0 /\
    sigBytes d < sigBytes r <= sigBytes d + bs * 4 /\
    Z.of_nat (length (words r)) * 4 = sigBytes r /\
    take (Z.to_nat (sigBytes d)) (sig_bytes r) = sig_bytes d.
Proof.
  intros Hs Hbs Hlt.
  destruct (nPaddingBytes_spec (sigBytes d) (bs * 4) Hs ltac:(lia)) as (_ & Hn & Hal).
  set (n := PKCS5.nPaddingBytes (sigBytes d) (bs * 4)) in *.
  destruct (concat_spec d (PKCS5.padding n)) as (r & Hr & Hsz & Hc & _ & Hb);
    [done|simpl; lia|].
  simpl in Hsz. rewrite Z.max_r in Hsz by lia.
  exists r. split; [exact Hr|]. rewrite Hsz. split; [done|]. split; [lia|]. split.
  - destruct Hc as (_ & Hl & _). rewrite Hl, Hsz.
    assert (H4 : (sigBytes d + n) mod 4 = 0).
    { apply (mod_mul4 _ bs); [lia|done]. }
    zdm.
  - rewrite Hb. rewrite take_app_length'; [done|].
    apply Nat2Z.inj. rewrite length_sig_bytes. lia.
Qed.

Lemma X4_pad_aligned_witness :
  exists r, PKCS5.pad (mkWordArray [0x61626300] 3) 100 = Ok r /\
    sigBytes r mod (100 * 4) = 0 /\
    3 < sigBytes r <= 3 + 100 * 4 /\
    Z.of_nat (length (words r)) * 4 = sigBytes r /\
    take 3 (sig_bytes r) = [0x61; 0x62; 0x63].
Proof.
  apply (X4_pad_aligned (mkWordArray [0x61626300] 3) 100); simpl; lia.
Defined.

(** ** cipher-core.js: CBC mode *)

(** X5.  On a word array of whole blocks, [CBC.decrypt] undoes
    [CBC.encrypt] under the same key schedule and IV, for a primitive whose
    [decryptBlock] inverts [encryptBlock]: the ciphertext has as many words
    as the message, and decrypting it gives the words of the message back
    (as 32-bit integers, which is what they were if the message held such).
    An IV shorter than a block counts as padded with zeros. *)
Theorem X5_cbc_mode_roundtrip c ks iv W n :
  1 <= _blockSize c -> block_inverse c ks ->
  Z.of_nat (length W) = Z.of_nat n * _blockSize c ->
  exists cs, CBC.encrypt c ks W iv = Ok cs /\ length cs = length W /\
    CBC.decrypt c ks cs iv = Ok (JS.toInt32 <$> W) /\
    (Forall int32 W -> CBC.decrypt c ks cs iv = Ok W).
Proof.
  intros Hbs Hinv Hlen.
  destruct (cbc_roundtrip c ks iv Hbs Hinv W n Hlen) as (cs & He & Hl & Hd).
  exists cs. split; [done|]. split; [done|]. split; [done|].
  intros Hi. rewrite Hd. f_equal. rewrite <- (list_fmap_id W) at 2.
  apply Forall_fmap_ext_1. eapply Forall_impl; [exact Hi|].
  intros w Hw. by apply toInt32_small.
Qed.

Lemma X5_cbc_mode_roundtrip_witness :
  exists cs, CBC.encrypt (xor_cipher 2) 0xff [1; 2; 3; 4] [0x10] = Ok cs /\
    length cs = 4%nat /\
    CBC.decrypt (xor_cipher 2) 0xff cs [0x10] = Ok (JS.toInt32 <$> [1; 2; 3; 4]) /\
    (Forall int32 [1; 2; 3; 4] -> CBC.decrypt (xor_cipher 2) 0xff cs [0x10] = Ok [1; 2; 3; 4]).
Proof.
  apply (X5_cbc_mode_roundtrip (xor_cipher 2) 0xff [0x10] [1; 2; 3; 4] 2).
  - simpl. lia.
  - apply xor_cipher_inverse.
  - reflexivity.
Defined.

(** ** cipher-core.js: the OpenSSL format *)

(** X6.  [OpenSSL.toString] encodes, for cipher params with a salt, the
    eight bytes ["Salted__"], then the bytes of the salt, then the bytes of
    the raw ciphertext; for cipher params without a salt, the raw ciphertext
    itself. *)
Theorem X6_openssl_toString_layout base64 params raw :
  CipherParams.rawCiphertext params = Some raw ->
  0 <= sigBytes raw ->
  8 + Z.max 0 (from_option sigBytes 0 (CipherParams.salt params)) + sigBytes raw < 2 ^ 32 ->
  exists x, OpenSSL.toString base64 params = Ok (enc_toCodes base64 x) /\
    match CipherParams.salt params with
    | Some salt =>
        sigBytes x = 8 + Z.max 0 (sigBytes salt) + sigBytes raw /\
        sig_bytes x = magic_bytes ++ sig_bytes salt ++ sig_bytes raw
    | None => x = raw
    end.
Proof.
  intros Hraw Hs Hlt. unfold OpenSSL.toString, OpenSSL.openSSLStr. rewrite Hraw.
  destruct (CipherParams.salt params) as [salt|]; cbn [from_option] in Hlt.
  - destruct (concat_spec (WordArray_create (Some OpenSSL.magic) None) salt)
      as (y & Hy & Hys & _ & _ & Hyb); [simpl; lia|simpl; lia|].
    simpl in Hys. rewrite Hy. cbn [mbind outcome_mbind outcome_bind].
    destruct (concat_spec y raw) as (x & Hx & Hxs & _ & _ & Hxb); [lia|lia|].
    rewrite Hx. cbn [mbind outcome_mbind outcome_bind].
    exists x. split; [done|]. split; [lia|].
    rewrite Hxb, Hyb. by rewrite <- app_assoc.
  - cbn [mbind outcome_mbind outcome_bind]. by exists raw.
Qed.

Lemma X6_openssl_toString_layout_witness :
  let raw := mkWordArray [0x00010203; 0x04050607; 0x08090a0b; 0x0c0d0e0f] 16 in
  let salt := mkWordArray [0x01234567; 0x89abcdef] 8 in
  exists x, OpenSSL.toString Base64.encoder
              (CipherParams.mk (Some raw) None None (Some salt) None)
            = Ok (enc_toCodes Base64.encoder x) /\
    sigBytes x = 8 + Z.max 0 8 + 16 /\
    sig_bytes x = magic_bytes ++ sig_bytes salt ++ sig_bytes raw.
Proof.
  apply (X6_openssl_toString_layout Base64.encoder
           (CipherParams.mk (Some (mkWordArray [0x00010203; 0x04050607; 0x08090a0b; 0x0c0d0e0f] 16))
              None None (Some (mkWordArray [0x01234567; 0x89abcdef] 8)) None)
           (mkWordArray [0x00010203; 0x04050607; 0x08090a0b; 0x0c0d0e0f] 16)).
  - reflexivity.
  - simpl. lia.
  - simpl. lia.
Defined.

(** ** core.js: the streaming hash, over any number of updates *)

(** X7.  A fresh hasher that receives any number of updates, strings or
    word arrays, of any lengths, ends in a state that depends on the
    concatenated bytes alone: the primitive has been fed the complete blocks
    of the byte stream, in order and once each; the pending message is the
    rest of the stream, shorter than a block; [_length] is the number of
    bytes. *)
Theorem X7_hash_stream algo us :
  1 <= blockSize algo ->
  Forall (fun u => 0 <= sigBytes (Hash.to_wordarray u)) us ->
  Z.of_nat (length (stream us)) < 2 ^ 32 ->
  let B := stream us in
  let n := Z.of_nat (length B) in
  let bsb := blockSize algo * 4 in
  exists h, hash_updates algo (Hash.reset algo) us = Ok h /\
    _length h = n /\
    sigBytes (_message h) = n mod bsb /\
    sig_bytes (_message h) = drop (Z.to_nat (n - n mod bsb)) B /\
    words (_hash h)
    = fold_left (processBlock algo)
        (blocks (blockSize algo) (words (Latin1.fromCodes B)) 0 (n / bsb)) (initHash algo).
Proof.
  intros Hbs Hus Hlt B n bsb.
  assert (Hn : Z.of_nat (length B) < 2 ^ 32) by exact Hlt.
  assert (Hr : ready algo (Hash.reset algo)) by (split; [apply clamped_nil|simpl; lia]).
  assert (HB : Forall is_byte B).
  { unfold B, stream. apply Forall_bind, Forall_forall. intros x _. apply sig_bytes_all_bytes. }
  exists (absorb_bytes algo (Hash.reset algo) B).
  split; [apply hash_updates_absorb; (done || (simpl; lia))|].
  destruct (absorb_bytes_message algo (Hash.reset algo) B Hbs clamped_nil ltac:(simpl; lia) HB)
    as (_ & Hs & Hb).
  cbv zeta in Hs, Hb. cbn [Hash.reset _message WordArray_create sigBytes default from_option id] in Hs, Hb.
  split; [done|]. split; [exact Hs|]. split.
  - rewrite Hb, Hs. simpl. done.
  - unfold absorb_bytes, absorb. cbn [_hash words Hash.reset _message sigBytes].
    destruct (fold_push_spec B [] 0 clamped_nil ltac:(lia) HB) as (H2 & _).
    cbv zeta in H2. unfold Latin1.fromCodes, WordArray_create.
    change (Z.of_nat (length (default [] None)) * 4) with 0.
    cbv [default from_option id]. cbn [words sigBytes]. by rewrite H2.
Qed.

Lemma X7_hash_stream_witness :
  let algo := xor_hash 2 in
  let us := [Str "abc"; Wa (mkWordArray [0x01020304; 0x05060708; 0x090a0000] 10); Str ""] in
  let B := stream us in
  exists h, hash_updates algo (Hash.reset algo) us = Ok h /\
    _length h = 13 /\
    sigBytes (_message h) = 13 mod 8 /\
    sig_bytes (_message h) = drop (Z.to_nat (13 - 13 mod 8)) B /\
    words (_hash h)
    = fold_left (processBlock algo)
        (blocks 2 (words (Latin1.fromCodes B)) 0 (13 / 8)) (initHash algo).
Proof.
  apply (X7_hash_stream (xor_hash 2)
           [Str "abc"; Wa (mkWordArray [0x01020304; 0x05060708; 0x090a0000] 10); Str ""]).
  - simpl. lia.
  - repeat constructor; simpl; lia.
  - simpl. lia.
Defined.

(** ** core.js: the UTF-8 encoder *)

Lemma utf8_encode_bytes codes : Forall is_byte codes -> Forall is_byte (Utf8.encode codes).
Proof.
  intros Hc. unfold Utf8.encode. apply Forall_bind. eapply Forall_impl; [exact Hc|].
  intros c Hb. simpl in *.
  assert (H : forallb (fun c => bool_decide (Forall is_byte
                (if c <? 128 then [c]
                 else [Z.lor 192 (Z.shiftr c 6); Z.lor 128 (Z.land c 63)]))) (seqZ 0 256) = true)
    by (vm_compute; reflexivity).
  rewrite forallb_forall in H. specialize (H c).
  apply bool_decide_eq_true in H; [done|].
  apply list_elem_of_In, elem_of_seqZ. unfold is_byte in Hb. lia.
Qed.

Lemma length_utf8_encode codes :
  (length codes <= length (Utf8.encode codes) <= 2 * length codes)%nat.
Proof.
  unfold Utf8.encode. induction codes as [|c codes IH]; [simpl; lia|].
  cbn [mbind list_bind]. rewrite length_app. cbn [length].
  change (list_bind _ _ _ codes) with (codes ≫= (fun c => if c <? 128 then [c]
                 else [Z.lor 192 (Z.shiftr c 6); Z.lor 128 (Z.land c 63)])) .
  destruct (c <? 128); simpl; lia.
Qed.

Lemma utf8_fromString_spec s :
  2 * Z.of_nat (String.length s) <= 2 ^ 32 ->
  let v := Utf8.fromString s in
  sigBytes v = Z.of_nat (length (Utf8.encode (char_codes s))) /\
  sig_bytes v = Utf8.encode (char_codes s) /\
  clamped (words v) (sigBytes v).
Proof.
  intros Hlen. pose proof (length_utf8_encode (char_codes s)) as Hl.
  rewrite length_char_codes in Hl.
  destruct (fromCodes_spec (Utf8.encode (char_codes s))) as (H1 & H2 & H3 & _).
  - apply utf8_encode_bytes, char_codes_bytes.
  - lia.
  - done.
Qed.

Lemma utf8_fromString_clamped s :
  2 * Z.of_nat (String.length s) <= 2 ^ 32 ->
  clamped (words (Utf8.fromString s)) (sigBytes (Utf8.fromString s)).
Proof. intros H. by apply utf8_fromString_spec. Qed.

(** ** algo-hmac.js: the keys *)

Lemma get_xor_pad c (n : nat) : forall ws j,
  0 <= j ->
  JS.get (HMAC.xor_pad ws (Z.of_nat n) c) j
  = if decide (j < Z.of_nat n) then JS.xor (JS.get ws j) c else JS.get ws j.
Proof.
  unfold HMAC.xor_pad. induction n as [|n IH]; intros ws j Hj.
  - simpl. by rewrite decide_False by lia.
  - rewrite Nat2Z.inj_succ. unfold Z.succ. rewrite seqZ_app by lia.
    rewrite fold_left_app. cbn [seqZ fold_left]. rewrite Z.add_0_l.
    change (seqZ (Z.of_nat n) 1) with [Z.of_nat n]. cbn [fold_left].
    rewrite get_put by lia. rewrite !IH by lia.
    rewrite (decide_False (P := Z.of_nat n < Z.of_nat n)) by lia.
    destruct (decide (j = Z.of_nat n)) as [->|Hne].
    + by rewrite decide_True by lia.
    + destruct (decide (j < Z.of_nat n)).
      * by rewrite decide_True by lia.
      * by rewrite decide_False by lia.
Qed.

Lemma length_xor_pad c (n : nat) : forall ws,
  Z.of_nat (length (HMAC.xor_pad ws (Z.of_nat n) c)) = Z.max (Z.of_nat (length ws)) (Z.of_nat n).
Proof.
  unfold HMAC.xor_pad. induction n as [|n IH]; intros ws.
  - simpl. lia.
  - rewrite Nat2Z.inj_succ. unfold Z.succ. rewrite seqZ_app by lia.
    rewrite fold_left_app. rewrite Z.add_0_l.
    change (seqZ (Z.of_nat n) 1) with [Z.of_nat n]. cbn [fold_left].
    rewrite length_put by lia. rewrite IH. lia.
Qed.

(** The bytes of a key, padded with zeros to [n] bytes and XOR-ed with [c]. *)
Definition padded_key (key : WordArray) (n c : Z) : list Z :=
  (fun b => Z.lxor b c) <$> (sig_bytes key ++ replicate (Z.to_nat (n - sigBytes key)) 0).

Lemma lane_ipad k : 0 <= k <= 3 -> lane 0x36363636 k = 0x36.
Proof.
  intros Hk. assert (Hc : k = 0 \/ k = 1 \/ k = 2 \/ k = 3) by lia.
  destruct Hc as [->|[->|[->| ->]]]; reflexivity.
Qed.

Lemma lane_opad k : 0 <= k <= 3 -> lane 0x5c5c5c5c k = 0x5c.
Proof.
  intros Hk. assert (Hc : k = 0 \/ k = 1 \/ k = 2 \/ k = 3) by lia.
  destruct Hc as [->|[->|[->| ->]]]; reflexivity.
Qed.

Lemma bytes_xor_pad key bs c cb :
  1 <= bs -> bs * 4 < 2 ^ 32 ->
  clamped (words key) (sigBytes key) -> sigBytes key <= bs * 4 ->
  (forall k, 0 <= k <= 3 -> lane c k = cb) ->
  bytes_of (HMAC.xor_pad (words key) bs c) (bs * 4) = padded_key key (bs * 4) cb.
Proof.
  intros Hbs Hlt Hc Hle Hcb.
  assert (Hs : 0 <= sigBytes key) by apply Hc.
  apply list_eq. intros n. unfold padded_key.
  destruct (decide (Z.of_nat n < bs * 4)) as [Hn|Hn].
  - replace n with (Z.to_nat (Z.of_nat n)) at 1 by lia.
    rewrite lookup_bytes_of by lia. rewrite list_lookup_fmap.
    rewrite byteAt_split by lia.
    replace bs with (Z.of_nat (Z.to_nat bs)) at 1 by lia.
    rewrite get_xor_pad by zdm. rewrite decide_True by zdm.
    rewrite lane_xor, Hcb by zdm.
    rewrite <- byteAt_split by lia.
    destruct (decide (Z.of_nat n < sigBytes key)) as [Hin|Hout].
    + rewrite lookup_app_l by (apply Nat2Z.inj_lt; rewrite length_sig_bytes; lia).
      unfold sig_bytes. change (byteAt (words key) <$> seqZ 0 (sigBytes key))
        with (bytes_of (words key) (sigBytes key)).
      replace n with (Z.to_nat (Z.of_nat n)) at 2 by lia.
      by rewrite lookup_bytes_of by lia.
    + rewrite lookup_app_r by (apply Nat2Z.inj_le; rewrite length_sig_bytes; lia).
      rewrite lookup_replicate_2.
      2:{ apply Nat2Z.inj_lt. rewrite Nat2Z.inj_sub by (apply Nat2Z.inj_le; rewrite length_sig_bytes; lia).
          rewrite length_sig_bytes. lia. }
      simpl. by rewrite (clamped_bytes_beyond _ (sigBytes key)) by (done || lia).
  - rewrite !(proj2 (lookup_ge_None _ _)); [done| |].
    + rewrite length_fmap, length_app, length_replicate. apply Nat2Z.inj_le.
      rewrite Nat2Z.inj_add, length_sig_bytes. lia.
    + rewrite length_bytes_of. lia.
Qed.

(** [Hash.compute(message)] called on a hash that is no instance:
    [this.create().compute(message)]. *)
Definition Hash_computeStatic (algo : HashAlgo) (message : option Data) : outcome WordArray :=
  '(digest, _) ← Hash.compute algo (Hash.reset algo) message; Ok digest.

(** [C.HMAC_MD5], [C.HMAC_SHA1], [C.HMAC_SHA256], for the hash that each
    names: [C_algo_HMAC.create(hash, key).compute(message)]. *)
Definition HMAC_helper (algo : HashAlgo) (message : option Data) (key : Data)
    : outcome WordArray :=
  st ← HMAC.init algo key; '(mac, _) ← HMAC.compute algo st message; Ok mac.

(** [_doCompute] returns a digest without excess bits, no longer than a
    block. *)
Definition digest_ok (algo : HashAlgo) : Prop :=
  forall hw m l, exists d,
    finalize algo hw m l = Ok d /\ clamped (words d) (sigBytes d) /\
    sigBytes d <= blockSize algo * 4.

Lemma digest_ok_finalizes algo :
  blockSize algo * 8 < 2 ^ 32 -> digest_ok algo -> finalizes algo.
Proof.
  intros Hlt Hd hw m l. destruct (Hd hw m l) as (d & E & Hc & Hle).
  exists d. split; [done|]. destruct Hc as (? & _). lia.
Qed.

(** The key that [init] pads: the key itself, or its digest when it is
    longer than a block. *)
Definition block_key (algo : HashAlgo) (key : WordArray) : outcome WordArray :=
  if blockSize algo * 4 <? sigBytes key then Hash_computeStatic algo (Some (Wa key))
  else Ok key.

Lemma hash_static_bytes algo x :
  1 <= blockSize algo -> 0 <= sigBytes x < 2 ^ 32 ->
  Hash_computeStatic algo (Some (Wa x)) =
  let h := absorb_bytes algo (Hash.reset algo) (sig_bytes x) in
  finalize algo (words (_hash h)) (_message h) (_length h).
Proof.
  intros Hbs Hx. unfold Hash_computeStatic. rewrite hash_compute_wa.
  rewrite update_absorb by (done || apply clamped_nil || (simpl; lia)).
  cbn [mbind outcome_mbind outcome_bind]. cbv zeta.
  by destruct (finalize algo _ _ _).
Qed.

Lemma hmac_init_spec algo key K :
  1 <= blockSize algo -> blockSize algo * 4 < 2 ^ 32 ->
  0 <= sigBytes (Hash.to_wordarray key) < 2 ^ 32 ->
  block_key algo (Hash.to_wordarray key) = Ok K ->
  clamped (words K) (sigBytes K) -> sigBytes K <= blockSize algo * 4 ->
  exists st, HMAC.init algo key = Ok st /\
    sigBytes (_iKey st) = blockSize algo * 4 /\
    sigBytes (_oKey st) = blockSize algo * 4 /\
    sig_bytes (_iKey st) = padded_key K (blockSize algo * 4) 0x36 /\
    sig_bytes (_oKey st) = padded_key K (blockSize algo * 4) 0x5c /\
    _hasher st = absorb_bytes algo (Hash.reset algo) (sig_bytes (_iKey st)).
Proof.
  intros Hbs Hlt Hk HK Hc Hle. unfold HMAC.init.
  set (k := Hash.to_wordarray key) in *.
  assert (E : (if blockSize algo * 4 <? sigBytes k
               then Hash.compute algo (Hash.reset algo) (Some (Wa k))
               else Ok (k, Hash.reset algo)) = Ok (K, Hash.reset algo)).
  { unfold block_key in HK. destruct (blockSize algo * 4 <? sigBytes k).
    - unfold Hash_computeStatic in HK. rewrite hash_compute_wa in *.
      destruct (Hash.update algo (Hash.reset algo) (Wa k)) as [h| | |]; try done.
      cbn [mbind outcome_mbind outcome_bind] in *.
      destruct (finalize algo _ _ _) as [d| | |]; try done.
      cbn [mbind outcome_mbind outcome_bind] in *. by injection HK as ->.
    - by injection HK as ->. }
  rewrite E. cbn [mbind outcome_mbind outcome_bind].
  unfold HMAC.reset. cbn [_iKey _oKey].
  rewrite update_absorb by (done || apply clamped_nil || (simpl; lia)).
  cbn [mbind outcome_mbind outcome_bind]. eexists. split; [done|].
  cbn [_iKey _oKey _hasher sigBytes]. split; [done|]. split; [done|].
  change (sig_bytes (mkWordArray ?w ?s)) with (bytes_of w s).
  split; [|split; [|done]].
  - apply bytes_xor_pad; (done || apply lane_ipad).
  - apply bytes_xor_pad; (done || apply lane_opad).
Qed.

(** X8.  [HMAC.init] prepares the two keys of the construction.  Let [K]
    be the key or, when the key is longer than a block, its digest, and let
    [K] hold no word and no bit beyond its [sigBytes] (as a key given as a
    string does; [init] does not clamp the key).  Then [K] is padded with
    zero bytes to one block, and every byte is XOR-ed with 0x36 for the
    inner key and with 0x5c for the outer key; the hasher is then reset and
    fed the inner key. *)
Theorem X8_hmac_init_keys algo key K :
  1 <= blockSize algo -> blockSize algo * 4 < 2 ^ 32 ->
  0 <= sigBytes (Hash.to_wordarray key) < 2 ^ 32 ->
  block_key algo (Hash.to_wordarray key) = Ok K ->
  clamped (words K) (sigBytes K) -> sigBytes K <= blockSize algo * 4 ->
  exists st, HMAC.init algo key = Ok st /\
    sigBytes (_iKey st) = blockSize algo * 4 /\
    sigBytes (_oKey st) = blockSize algo * 4 /\
    sig_bytes (_iKey st) = padded_key K (blockSize algo * 4) 0x36 /\
    sig_bytes (_oKey st) = padded_key K (blockSize algo * 4) 0x5c /\
    Hash.update algo (Hash.reset algo) (Wa (_iKey st)) = Ok (_hasher st).
Proof.
  intros Hbs Hlt Hk HK Hc Hle.
  destruct (hmac_init_spec algo key K Hbs Hlt Hk HK Hc Hle) as (st & E & H1 & H2 & H3 & H4 & H5).
  exists st. split; [done|]. split; [done|]. split; [done|]. split; [done|]. split; [done|].
  rewrite update_absorb by (done || apply clamped_nil || (simpl; lia)). by rewrite H5.
Qed.

Lemma X8_hmac_init_keys_witness :
  exists st, HMAC.init (xor_hash 2) (Str "key") = Ok st /\
    sigBytes (_iKey st) = 2 * 4 /\
    sigBytes (_oKey st) = 2 * 4 /\
    sig_bytes (_iKey st) = padded_key (Utf8.fromString "key") (2 * 4) 0x36 /\
    sig_bytes (_oKey st) = padded_key (Utf8.fromString "key") (2 * 4) 0x5c /\
    Hash.update (xor_hash 2) (Hash.reset (xor_hash 2)) (Wa (_iKey st)) = Ok (_hasher st).
Proof.
  apply (X8_hmac_init_keys (xor_hash 2) (Str "key") (Utf8.fromString "key")).
  - simpl. lia.
  - simpl. lia.
  - simpl. lia.
  - reflexivity.
  - apply utf8_fromString_clamped. simpl. lia.
  - simpl. lia.
Defined.

(** X9.  The one-call helpers compute the HMAC of RFC 2104 over the hash
    that they name, for a key that holds no word and no bit beyond its
    [sigBytes] (as a key given as a string does; [init] does not clamp the
    key), or whose digest does when the key is longer than a block: with
    [K] that key or digest, padded with zeros to a block, the MAC is
    [H((K xor opad) || H((K xor ipad) || message))], where [H] is the hash
    called on a whole message, [ipad] is the byte 0x36 and [opad] the byte
    0x5c repeated. *)
Theorem X9_hmac_rfc2104 algo key m K :
  1 <= blockSize algo -> blockSize algo * 8 < 2 ^ 32 -> digest_ok algo ->
  0 <= sigBytes (Hash.to_wordarray key) < 2 ^ 32 ->
  block_key algo (Hash.to_wordarray key) = Ok K ->
  clamped (words K) (sigBytes K) -> sigBytes K <= blockSize algo * 4 ->
  fits algo m ->
  let bsb := blockSize algo * 4 in
  exists inner mac,
    Hash_computeStatic algo
      (Some (Wa (Latin1.fromCodes (padded_key K bsb 0x36 ++ sig_bytes (Hash.to_wordarray m)))))
      = Ok inner /\
    Hash_computeStatic algo
      (Some (Wa (Latin1.fromCodes (padded_key K bsb 0x5c ++ sig_bytes inner))))
      = Ok mac /\
    HMAC_helper algo (Some m) key = Ok mac.
Proof.
  intros Hbs Hlt Hd Hk HK Hc Hle Hm bsb.
  pose proof (digest_ok_finalizes algo Hlt Hd) as Hfin.
  destruct (hmac_init_spec algo key K Hbs ltac:(lia) Hk HK Hc Hle)
    as (st & Einit & Hi & Ho & Hib & Hob & Hh).
  fold bsb in Hi, Ho, Hib, Hob.
  set (mw := Hash.to_wordarray m) in *.
  destruct Hm as [Hm0 Hmlt]. fold mw in Hm0, Hmlt. fold bsb in Hmlt.
  assert (Hli : Z.of_nat (length (sig_bytes (_iKey st))) = bsb)
    by (rewrite length_sig_bytes; lia).
  assert (Hlm : Z.of_nat (length (sig_bytes mw)) = sigBytes mw)
    by (rewrite length_sig_bytes; lia).
  assert (Hp : HMACRun.primed algo st).
  { unfold HMACRun.primed.
    rewrite update_absorb by (done || apply clamped_nil || (simpl; lia)). by rewrite Hh. }
  assert (Hr : ready algo (_hasher st)).
  { rewrite Hh. apply absorb_ready; (done || apply clamped_nil || (simpl; lia)). }
  destruct (hmac_compute_returns algo st st (Some m) Hbs Hfin Hp eq_refl eq_refl Ho Hr)
    as (mac & st1 & inner & x & h & Ec & E1 & E2 & E3 & Hx & E4 & E5).
  { intros u [= <-]. split; [done|]. fold mw. fold bsb. lia. }
  (* the hasher that the inner digest is taken from *)
  assert (Hh1 : _hasher st1 = absorb_bytes algo (Hash.reset algo)
                                (sig_bytes (_iKey st) ++ sig_bytes mw)).
  { destruct Hr as [Hrc Hrl].
    assert (Hup : Hash.update algo (_hasher st) m = Ok (absorb_bytes algo (_hasher st) (sig_bytes mw))).
    { change (Hash.update algo (_hasher st) m) with (Hash.update algo (_hasher st) (Wa mw)).
      apply update_absorb; (done || lia). }
    assert (Happ : absorb_bytes algo (_hasher st) (sig_bytes mw)
                   = absorb_bytes algo (Hash.reset algo) (sig_bytes (_iKey st) ++ sig_bytes mw)).
    { rewrite Hh.
      apply absorb_bytes_app;
        [done|apply clamped_nil|simpl; lia|apply sig_bytes_all_bytes|apply sig_bytes_all_bytes]. }
    destruct (Hash.truthy (Some m)) eqn:Et.
    - cbn [default from_option] in E1. unfold HMAC.update in E1. cbv [id] in E1.
      rewrite Hup in E1. cbn [mbind outcome_mbind outcome_bind] in E1.
      injection E1 as <-. cbn [_hasher]. exact Happ.
    - injection E1 as <-. rewrite <- Happ.
      destruct m as [s|w]; [|done]. simpl in Et.
      destruct s; [|done]. symmetry. apply absorb_bytes_nil; [done|by split]. }
  assert (Hinner : Hash_computeStatic algo
            (Some (Wa (Latin1.fromCodes (padded_key K bsb 0x36 ++ sig_bytes mw)))) = Ok inner).
  { rewrite <- Hib.
    destruct (fromCodes_spec (sig_bytes (_iKey st) ++ sig_bytes mw)) as (Hs & Hb & _).
    { apply Forall_app; split; apply sig_bytes_all_bytes. }
    { rewrite length_app. lia. }
    cbv zeta in Hs, Hb. rewrite length_app in Hs.
    rewrite hash_static_bytes by (done || lia). cbv zeta. rewrite Hb, <- Hh1. exact E2. }
  destruct (Hd (words (_hash (_hasher st1))) (_message (_hasher st1)) (_length (_hasher st1)))
    as (inner' & E2' & Hic & Hile).
  rewrite E2 in E2'. injection E2' as <-.
  assert (Hi0 : 0 <= sigBytes inner) by apply Hic.
  assert (Hxs : sigBytes x = bsb + sigBytes inner).
  { destruct (concat_spec (_oKey st) inner) as (x' & E3' & Hxs' & _); [lia|lia|].
    rewrite E3 in E3'. injection E3' as <-. lia. }
  exists inner, mac. split; [exact Hinner|]. split.
  - rewrite <- Hob, <- Hx.
    destruct (fromCodes_spec (sig_bytes x)) as (Hs & Hb & _).
    { apply sig_bytes_all_bytes. }
    { rewrite length_sig_bytes. lia. }
    cbv zeta in Hs, Hb. rewrite length_sig_bytes in Hs.
    rewrite hash_static_bytes by (done || lia). cbv zeta. rewrite Hb.
    rewrite update_absorb in E4 by (done || apply clamped_nil || (simpl; lia)).
    injection E4 as <-. exact E5.
  - unfold HMAC_helper. rewrite Einit. cbn [mbind outcome_mbind outcome_bind].
    by rewrite Ec.
Qed.

Lemma X9_hmac_rfc2104_witness :
  let algo := xor_hash 2 in
  let K := Utf8.fromString "key" in
  exists inner mac,
    Hash_computeStatic algo
      (Some (Wa (Latin1.fromCodes (padded_key K 8 0x36 ++ sig_bytes (Utf8.fromString "message")))))
      = Ok inner /\
    Hash_computeStatic algo
      (Some (Wa (Latin1.fromCodes (padded_key K 8 0x5c ++ sig_bytes inner))))
      = Ok mac /\
    HMAC_helper algo (Some (Str "message")) (Str "key") = Ok mac.
Proof.
  apply (X9_hmac_rfc2104 (xor_hash 2) (Str "key") (Str "message") (Utf8.fromString "key")).
  - simpl. lia.
  - simpl. lia.
  - intros hw m l. eexists. split; [reflexivity|]. split; [|simpl; lia].
    split; [simpl; lia|]. split; [reflexivity|]. simpl. intros H. by destruct H.
  - simpl. lia.
  - reflexivity.
  - apply utf8_fromString_clamped. simpl. lia.
  - simpl. lia.
  - split; simpl; lia.
Defined.

(** ** core.js: the Hex encoder *)

(** X10.  [Hex.toString] writes two lower-case digits for each significant
    byte, and [Hex.fromString] reads them back: the text of a word array
    decodes to a word array with the same significant bytes (and no excess
    word or bit), whose text is the same. *)
Theorem X10_hex_roundtrip w :
  0 <= sigBytes w -> 2 * sigBytes w < 2 ^ 32 ->
  Z.of_nat (length (Hex.toCodes w)) = 2 * sigBytes w /\
  exists v, Hex.fromCodes (Hex.toCodes w) = Ok v /\
    sigBytes v = sigBytes w /\ sig_bytes v = sig_bytes w /\
    clamped (words v) (sigBytes v) /\
    Hex.toCodes v = Hex.toCodes w.
Proof.
  intros Hs Hlt. split.
  - unfold Hex.toCodes.
    change (sig_bytes w ≫= _) with (sig_bytes w ≫= hex_pair).
    rewrite length_hex_pairs, Nat2Z.inj_mul, length_sig_bytes. lia.
  - exists (Latin1.fromCodes (sig_bytes w)). split; [by apply hex_fromCodes_toCodes|].
    destruct (fromCodes_spec (sig_bytes w) (sig_bytes_all_bytes w)) as (H1 & H2 & H3 & _).
    { rewrite length_sig_bytes. lia. }
    cbv zeta in *. rewrite length_sig_bytes in H1.
    split; [lia|]. split; [done|]. split; [done|]. unfold Hex.toCodes. by rewrite H2.
Qed.

Lemma X10_hex_roundtrip_witness :
  let w := mkWordArray [0x00ff1a2b; 0x7f123456] 5 in
  Z.of_nat (length (Hex.toCodes w)) = 2 * 5 /\
  exists v, Hex.fromCodes (Hex.toCodes w) = Ok v /\
    sigBytes v = 5 /\ sig_bytes v = sig_bytes w /\
    clamped (words v) (sigBytes v) /\
    Hex.toCodes v = Hex.toCodes w.
Proof.
  apply (X10_hex_roundtrip (mkWordArray [0x00ff1a2b; 0x7f123456] 5)); simpl; lia.
Defined.

(** X11.  [Utf8.fromString] yields the UTF-8 bytes of the string, for
    characters with codes up to 255: a character below 128 is the byte of
    its code, another one the two bytes [0xC0 + code / 64] and
    [0x80 + code mod 64]; the word array holds exactly these bytes.  On a
    string of characters below 128 it is [Latin1.fromString]. *)
Theorem X11_utf8_fromString s :
  2 * Z.of_nat (String.length s) <= 2 ^ 32 ->
  let v := Utf8.fromString s in
  sig_bytes v
  = (c ← char_codes s; if c <? 128 then [c] else [192 + c / 64; 128 + c mod 64]) /\
  Z.of_nat (String.length s) <= sigBytes v <= 2 * Z.of_nat (String.length s) /\
  clamped (words v) (sigBytes v) /\
  (Forall (fun c => c < 128) (char_codes s) -> v = Latin1.fromString s).
Proof.
  intros Hlen v. destruct (utf8_fromString_spec s Hlen) as (H1 & H2 & H3).
  fold v in H1, H2, H3.
  pose proof (length_utf8_encode (char_codes s)) as Hl. rewrite length_char_codes in Hl.
  split; [|split; [lia|split; [done|]]].
  - rewrite H2. unfold Utf8.encode. clear.
    pose proof (char_codes_bytes s) as Hb. induction Hb as [|c cs Hc Hcs IH]; [done|].
    cbn [mbind list_bind]. f_equal; [|exact IH].
    assert (H : forallb (fun c => bool_decide
                  ((if c <? 128 then [c] else [Z.lor 192 (Z.shiftr c 6); Z.lor 128 (Z.land c 63)])
                   = (if c <? 128 then [c] else [192 + c / 64; 128 + c mod 64]))) (seqZ 0 256) = true)
      by (vm_compute; reflexivity).
    rewrite forallb_forall in H. specialize (H c).
    apply bool_decide_eq_true in H; [done|].
    apply list_elem_of_In, elem_of_seqZ. unfold is_byte in Hc. lia.
  - intros Hascii. unfold v, Utf8.fromString, Latin1.fromString. f_equal.
    unfold Utf8.encode. clear -Hascii. induction Hascii as [|c cs Hc Hcs IH]; [done|].
    cbn [mbind list_bind]. destruct (Z.ltb_spec c 128); [|lia]. simpl. f_equal. exact IH.
Qed.

Lemma X11_utf8_fromString_witness :
  let v := Utf8.fromString "a+b" in
  sig_bytes v
  = (c ← char_codes "a+b"; if c <? 128 then [c] else [192 + c / 64; 128 + c mod 64]) /\
  Z.of_nat (String.length "a+b") <= sigBytes v <= 2 * Z.of_nat (String.length "a+b") /\
  clamped (words v) (sigBytes v) /\
  (Forall (fun c => c < 128) (char_codes "a+b") -> v = Latin1.fromString "a+b").
Proof.
  apply (X11_utf8_fromString "a+b"). simpl. lia.
Defined.

(** ** core.js: WordArray.random *)

(** X12.  [WordArray.random(nBytes)] has [sigBytes = nBytes] and one word
    for every four bytes, rounded up (none for [nBytes <= 0]); each word is
    the next number drawn, between 0 and 2^32 - 1 (so not always a 32-bit
    signed integer); no array or object changes, and the random source has
    advanced by the number of words. *)
Theorem X12_random nBytes w :
  let n := Z.to_nat (JS.ceil_div4 nBytes) in
  exists v w', WordArray_random nBytes w = (Ok v, w') /\
    sigBytes v = nBytes /\
    length (words v) = n /\
    (forall k, (k < n)%nat -> words v !! k = Some (random w k mod 2 ^ 32)) /\
    Forall (fun x => 0 <= x < 2 ^ 32) (words v) /\
    same_heap w w' /\
    (forall k, random w' k = random w (n + k)%nat).
Proof.
  intros n. unfold WordArray_random. do 2 eexists. split.
  { rewrite bind_run, random_words_run. reflexivity. }
  fold n. cbn [WordArray_create sigBytes words default from_option id].
  cbv [default from_option id]. cbn [sigBytes words].
  split; [done|]. split; [by rewrite length_fmap, length_seq|]. split; [|split; [|split]].
  - intros k Hk. rewrite list_lookup_fmap, lookup_seq_lt by done. done.
  - apply Forall_fmap, Forall_forall. intros k _. simpl. apply Z.mod_pos_bound. lia.
  - done.
  - done.
Qed.

(** ** cipher-core.js: what the cipher engine returns *)

Lemma pad_blocks d bs :
  0 <= sigBytes d -> 1 <= bs -> sigBytes d + bs * 4 < 2 ^ 32 ->
  exists r, PKCS5.pad d bs = Ok r /\
    sigBytes r = (sigBytes d / (bs * 4) + 1) * (bs * 4) /\
    Z.of_nat (length (words r)) = (sigBytes d / (bs * 4) + 1) * bs /\
    sig_bytes r = sig_bytes d ++ sig_bytes (PKCS5.padding (PKCS5.nPaddingBytes (sigBytes d) (bs * 4))).
Proof.
  intros Hs Hbs Hlt.
  destruct (nPaddingBytes_spec (sigBytes d) (bs * 4) Hs ltac:(lia)) as (Hn & Hn1 & _).
  set (n := PKCS5.nPaddingBytes (sigBytes d) (bs * 4)) in *.
  destruct (concat_spec d (PKCS5.padding n)) as (r & Hr & Hsz & Hc & _ & Hb);
    [done|simpl; lia|].
  simpl in Hsz. rewrite Z.max_r in Hsz by lia.
  assert (E : sigBytes d + n = (sigBytes d / (bs * 4) + 1) * (bs * 4)).
  { rewrite Hn. pose proof (Z.div_mod (sigBytes d) (bs * 4) ltac:(lia)). lia. }
  exists r. split; [exact Hr|]. split; [lia|]. split; [|done].
  destruct Hc as (_ & Hl & _). rewrite Hl, Hsz, E. unfold JS.ceil_div4.
  replace (- ((sigBytes d / (bs * 4) + 1) * (bs * 4)))
    with (- ((sigBytes d / (bs * 4) + 1) * bs) * 4) by lia.
  rewrite Z.div_mul by done. lia.
Qed.




(** ** cipher-core.js: a configuration without IV *)

Lemma doEncrypt_throws w0 r a c key cfg w m m' k ivw e :
  objects w0 !! r = None -> arrays w0 !! a = None ->
  holds w0 r a w m -> deref w0 key = Some k -> iv_value w0 cfg = Some ivw ->
  pad (Cipher.cfg_padding cfg) m (_blockSize c) = Ok m' ->
  mode_encrypt (Cipher.cfg_mode cfg) c (_init c k) (words m') ivw = Throw e ->
  exists w', Cipher._doEncrypt c r key cfg w = (Throw e, w') /\ agree w0 w'.
Proof.
  intros Hr Ha Hh Hk Hiv Epad Emode. unfold Cipher._doEncrypt.
  rewrite bind_run, (load_run w r m) by (by eapply holds_deref).
  rewrite bind_run. unfold lift at 1. rewrite Epad.
  destruct (store_holds w0 r a Hr Ha w m m' Hh) as (w1 & Hst & Hh1).
  rewrite bind_run, Hst.
  rewrite bind_run, (load_run w1 key k) by (eapply agree_deref; [apply Hh1|done]).
  destruct Hh1 as (Hag1 & Ho1 & Hw1).
  rewrite bind_run. unfold get_obj at 1. rewrite Ho1. cbn [words_ref].
  rewrite bind_run. unfold get_array at 1. rewrite Hw1.
  rewrite bind_run, (iv_words_run w1 cfg ivw) by (by eapply iv_value_agree).
  rewrite bind_run. unfold lift at 1. rewrite Emode. by exists w1.
Qed.

Lemma doDecrypt_throws w0 r a c key cfg w ct k ivw e :
  holds w0 r a w ct -> deref w0 key = Some k -> iv_value w0 cfg = Some ivw ->
  mode_decrypt (Cipher.cfg_mode cfg) c (_init c k) (words ct) ivw = Throw e ->
  Cipher._doDecrypt c r key cfg w = (Throw e, w).
Proof.
  intros Hh Hk Hiv Emode. unfold Cipher._doDecrypt.
  rewrite bind_run, (load_run w key k) by (eapply agree_deref; [apply Hh|done]).
  pose proof Hh as (Hag & Ho & Hw).
  rewrite bind_run. unfold get_obj at 1. rewrite Ho. cbn [words_ref].
  rewrite bind_run. unfold get_array at 1. rewrite Hw.
  rewrite bind_run, (iv_words_run w cfg ivw) by (by eapply iv_value_agree).
  rewrite bind_run. unfold lift at 1. by rewrite Emode.
Qed.

(** X14.  CBC needs an IV: with a configuration that leaves [iv] out,
    [encrypt] and [decrypt] end in a TypeError (the mode reads [iv.words] of
    [undefined]), [encrypt] after it has padded its copy of the message; the
    caller's buffers are as they were. *)
Theorem X14_missing_iv c r key cfg w m k :
  Cipher.iv cfg = None -> Cipher.cfg_mode cfg = C_mode_CBC ->
  Cipher.cfg_padding cfg = C_pad_PKCS5 ->
  deref w r = Some m -> deref w key = Some k ->
  0 <= sigBytes m -> 1 <= _blockSize c -> sigBytes m + _blockSize c * 4 < 2 ^ 32 ->
  let e := Cipher.encrypt c (Cipher.Buffer r) key cfg w in
  let d := Cipher.decrypt c (Cipher.Buffer r) key cfg w in
  e.1 = Throw TypeError /\ d.1 = Throw TypeError /\ agree w e.2 /\ agree w d.2.
Proof.
  intros Hiv Hmode Hpad Hm Hk Hs Hbs Hlt e d.
  assert (Hivv : iv_value w cfg = Some None) by (unfold iv_value; by rewrite Hiv).
  pose proof (not_elem_of_dom_fresh_objects w) as Hfo.
  pose proof (not_elem_of_dom_fresh_arrays w) as Hfa.
  assert (He : exists w', e = (Throw TypeError, w') /\ agree w w').
  { destruct (pad_blocks m (_blockSize c) Hs Hbs Hlt) as (m' & Epad & _).
    destruct (doEncrypt_throws w _ _ c key cfg (with_new w m) m m' k None TypeError Hfo Hfa
                (holds_with_new w m) Hk Hivv) as (w' & Hrun & Hag).
    { rewrite Hpad. exact Epad. }
    { rewrite Hmode. reflexivity. }
    exists w'. split; [|done]. unfold e, Cipher.encrypt.
    rewrite bind_run, (clone_run w r m Hm). by rewrite bind_run, Hrun. }
  assert (Hd : d = (Throw TypeError, with_new w m)).
  { unfold d, Cipher.decrypt. rewrite bind_run, (clone_run w r m Hm).
    rewrite bind_run.
    rewrite (doDecrypt_throws w _ _ c key cfg (with_new w m) m k None TypeError
               (holds_with_new w m) Hk Hivv); [done|].
    rewrite Hmode. reflexivity. }
  destruct He as (w' & -> & Hag). rewrite Hd. simpl.
  split; [done|]. split; [done|]. split; [done|]. apply agree_with_new.
Qed.

Lemma X14_missing_iv_witness :
  let cfg := Cipher.mkConfig None None None in
  let e := Cipher.encrypt (xor_cipher 2) (Cipher.Buffer 0%nat) 1%nat cfg example_world in
  let d := Cipher.decrypt (xor_cipher 2) (Cipher.Buffer 0%nat) 1%nat cfg example_world in
  e.1 = Throw TypeError /\ d.1 = Throw TypeError /\
  agree example_world e.2 /\ agree example_world d.2.
Proof.
  apply (X14_missing_iv (xor_cipher 2) 0%nat 1%nat (Cipher.mkConfig None None None) example_world
           (mkWordArray [0x61626364; 0x65000000] 5) (mkWordArray [0xff] 4)).
  - reflexivity.
  - reflexivity.
  - reflexivity.
  - reflexivity.
  - reflexivity.
  - simpl. lia.
  - simpl. lia.
  - simpl. lia.
Defined.

(** ** cipher-core.js: string arguments *)

(** X15.  A string message is encrypted as its UTF-8 bytes, and a string
    ciphertext is read as the Hex text of a ciphertext: [encrypt] on a string
    is [encrypt] on a buffer that holds its UTF-8 form, and [decrypt] on the
    Hex text of a buffer (of 32-bit integers, without excess bits) is
    [decrypt] on that buffer, with the same result and the same effects. *)
Theorem X15_string_arguments c s t r1 r2 key cfg w x :
  deref w r1 = Some (Utf8.fromString s) ->
  deref w r2 = Some x ->
  clamped (words x) (sigBytes x) -> all_int32 (words x) -> 2 * sigBytes x < 2 ^ 32 ->
  char_codes t = Hex.toCodes x ->
  Cipher.encrypt c (Cipher.Text s) key cfg w = Cipher.encrypt c (Cipher.Buffer r1) key cfg w /\
  Cipher.decrypt c (Cipher.Text t) key cfg w = Cipher.decrypt c (Cipher.Buffer r2) key cfg w.
Proof.
  intros H1 H2 Hc Hi Hlt Ht. split.
  - unfold Cipher.encrypt. by rewrite !bind_run, new_run, (clone_run w r1 _ H1).
  - pose proof (hex_text_decoded x t Hc Hi Hlt Ht) as Hx.
    unfold Cipher.decrypt, WordArray_encoder, C_enc_Hex. cbn [enc_fromCodes].
    rewrite !bind_run. unfold lift at 1. rewrite Hx.
    by rewrite new_run, (clone_run w r2 _ H2).
Qed.

Lemma X15_string_arguments_witness :
  let w := mkWorld (<[0%nat := [0x61626364; 0x65000000]]> (<[1%nat := [0x00ff1a2b; 0x7f000000]]> ∅))
                   (<[0%nat := mkObj 0 5]> (<[1%nat := mkObj 1 5]> ∅)) (fun k => Z.of_nat k) in
  Cipher.encrypt (xor_cipher 2) (Cipher.Text "abcde") 0%nat example_cfg w
  = Cipher.encrypt (xor_cipher 2) (Cipher.Buffer 0%nat) 0%nat example_cfg w /\
  Cipher.decrypt (xor_cipher 2) (Cipher.Text "00ff1a2b7f") 0%nat example_cfg w
  = Cipher.decrypt (xor_cipher 2) (Cipher.Buffer 1%nat) 0%nat example_cfg w.
Proof.
  apply (X15_string_arguments (xor_cipher 2) "abcde" "00ff1a2b7f" 0%nat 1%nat 0%nat example_cfg _
           (mkWordArray [0x00ff1a2b; 0x7f000000] 5)).
  - reflexivity.
  - reflexivity.
  - change (mkWordArray [0x00ff1a2b; 0x7f000000] 5) with (Latin1.fromCodes [0x00; 0xff; 0x1a; 0x2b; 0x7f]).
    apply fromCodes_spec; [|simpl; lia].
    repeat constructor; unfold is_byte; lia.
  - change (mkWordArray [0x00ff1a2b; 0x7f000000] 5) with (Latin1.fromCodes [0x00; 0xff; 0x1a; 0x2b; 0x7f]).
    apply fromCodes_spec; [|simpl; lia].
    repeat constructor; unfold is_byte; lia.
  - simpl. lia.
  - reflexivity.
Defined.

(** ** cipher-core.js: the OpenSSL key derivation *)

(** The key and the IV that [execute] cuts from the derived words. *)
Definition derived_key (evpKDF : EvpKDF) (cipher : BlockCipher) (password : string)
    (salt : WordArray) : WordArray :=
  mkWordArray (words (evpKDF password salt (_keySize cipher + _ivSize cipher)))
              (_keySize cipher * 4).

Definition derived_iv (evpKDF : EvpKDF) (cipher : BlockCipher) (password : string)
    (salt : WordArray) : WordArray :=
  WordArray_create
    (Some (slice_from (words (evpKDF password salt (_keySize cipher + _ivSize cipher)))
                      (_keySize cipher)))
    None.

Lemma deref_intro w r a s ws :
  objects w !! r = Some (mkObj a s) -> arrays w !! a = Some ws ->
  deref w r = Some (mkWordArray ws s).
Proof. intros Ho Ha. unfold deref. rewrite Ho. simpl. by rewrite Ha. Qed.

Lemma derive_run evpKDF cipher password sr salt w :
  deref w sr = Some salt ->
  exists kr ir w',
    derive evpKDF cipher password sr w
    = (Ok (CipherParams.mk None (Some kr) (Some ir) (Some sr) None), w') /\
    deref w' kr = Some (derived_key evpKDF cipher password salt) /\
    deref w' ir = Some (derived_iv evpKDF cipher password salt) /\
    objects w !! kr = None /\ objects w !! ir = None /\ kr <> ir /\
    agree w w' /\ random w' = random w.
Proof.
  intros Hs. unfold derive, KdfOpenSSL.execute.
  set (kv := evpKDF password salt (_keySize cipher + _ivSize cipher)).
  change (derived_iv evpKDF cipher password salt)
    with (WordArray_create (Some (slice_from (words kv) (_keySize cipher))) None).
  change (derived_key evpKDF cipher password salt)
    with (mkWordArray (words kv) (_keySize cipher * 4)).
  set (ivv := WordArray_create (Some (slice_from (words kv) (_keySize cipher))) None).
  set (w1 := with_new w kv). set (w2 := with_new w1 ivv).
  set (kr := fresh (dom (objects w))). set (ak := fresh (dom (arrays w))).
  set (ir := fresh (dom (objects w1))). set (ai := fresh (dom (arrays w1))).
  assert (Hkr1 : objects w1 !! kr = Some (mkObj ak (sigBytes kv))) by apply lookup_insert_eq.
  assert (Hak1 : arrays w1 !! ak = Some (words kv)) by apply lookup_insert_eq.
  assert (Hne : kr <> ir) by (by eapply fresh_object).
  assert (Hna : ak <> ai) by (by eapply fresh_array).
  assert (Hkr2 : objects w2 !! kr = Some (mkObj ak (sigBytes kv))).
  { unfold w2, with_new. cbn [objects]. by rewrite lookup_insert_ne. }
  exists kr, ir.
  exists (mkWorld (<[ak := words kv]> (arrays w2)) (<[kr := mkObj ak (_keySize cipher * 4)]> (objects w2))
                  (random w)).
  split; [|split; [|split; [|split; [|split; [|split; [|split]]]]]].
  - rewrite bind_run. unfold mret at 1, M_ret at 1.
    rewrite bind_run, (load_run w sr salt Hs).
    rewrite bind_run, new_run. fold kv w1 kr.
    rewrite bind_run, new_run. fold ivv. fold w2 ir.
    rewrite bind_run. unfold store. rewrite bind_run. unfold get_obj at 1. rewrite Hkr2.
    reflexivity.
  - apply (deref_intro _ kr ak); cbn [objects arrays]; apply lookup_insert_eq.
  - replace ivv with (mkWordArray (words ivv) (sigBytes ivv)) at 2 by (by destruct ivv).
    apply (deref_intro _ ir ai); cbn [objects arrays].
    + rewrite lookup_insert_ne by done. apply lookup_insert_eq.
    + rewrite lookup_insert_ne by done. apply lookup_insert_eq.
  - apply not_elem_of_dom_fresh_objects.
  - pose proof (not_elem_of_dom_fresh_objects w1) as H. fold ir in H.
    unfold w1, with_new in H. cbn [objects] in H. fold kr in H.
    rewrite lookup_insert_ne in H by done. exact H.
  - done.
  - pose proof (agree_trans _ _ _ (agree_with_new w kv) (agree_with_new w1 ivv)) as [A O].
    fold w1 w2 in A, O. split; intros l x Hl; cbn [arrays objects].
    + rewrite lookup_insert_ne; [by apply A|]. intros <-.
      pose proof (not_elem_of_dom_fresh_arrays w) as Hf. fold ak in Hf. congruence.
    + rewrite lookup_insert_ne; [by apply O|]. intros <-.
      pose proof (not_elem_of_dom_fresh_objects w) as Hf. fold kr in Hf. congruence.
  - done.
Qed.

(** X16.  Given a salt, [kdf.OpenSSL.execute] asks the key derivation for
    [keySize + ivSize] words from the password and that salt, and returns
    cipher params with that very salt object, a new key and a new IV: the
    IV holds the derived words from [keySize] on; the key has
    [sigBytes = keySize * 4] but keeps all the derived words, those of the
    IV included.  No existing buffer changes and no random number is drawn. *)
Theorem X16_kdf_execute evpKDF cipher password sr salt w :
  deref w sr = Some salt ->
  let kv := evpKDF password salt (_keySize cipher + _ivSize cipher) in
  exists kr ir w' key iv,
    KdfOpenSSL.execute evpKDF cipher password (Some sr) w
    = (Ok (CipherParams.mk None (Some kr) (Some ir) (Some sr) None), w') /\
    deref w' kr = Some key /\ deref w' ir = Some iv /\
    words key = words kv /\ sigBytes key = _keySize cipher * 4 /\
    words iv = slice_from (words kv) (_keySize cipher) /\
    sigBytes iv = Z.of_nat (length (words iv)) * 4 /\
    (0 <= _keySize cipher -> words kv = take (Z.to_nat (_keySize cipher)) (words key) ++ words iv) /\
    objects w !! kr = None /\ objects w !! ir = None /\ kr <> ir /\
    agree w w' /\ random w' = random w.
Proof.
  intros Hs kv.
  destruct (derive_run evpKDF cipher password sr salt w Hs)
    as (kr & ir & w' & Hrun & Hk & Hi & Hfk & Hfi & Hne & Hag & Hrnd).
  exists kr, ir, w', (derived_key evpKDF cipher password salt),
    (derived_iv evpKDF cipher password salt).
  split; [exact Hrun|]. split; [done|]. split; [done|]. split; [done|]. split; [done|].
  split; [done|]. split; [done|]. split; [|done].
  intros Hks. cbn [derived_key derived_iv WordArray_create words default from_option id].
  fold kv. unfold slice_from. destruct (Z.leb_spec 0 (_keySize cipher)); [|lia].
  by rewrite take_drop.
Qed.

Lemma X16_kdf_execute_witness :
  let w := mkWorld (<[0%nat := [0x01234567; 0x09abcdef]]> ∅) (<[0%nat := mkObj 0 8]> ∅)
                   (fun k => Z.of_nat k) in
  let kv := toy_kdf "pw" (mkWordArray [0x01234567; 0x09abcdef] 8) (1 + 2) in
  exists kr ir w' key iv,
    KdfOpenSSL.execute toy_kdf (xor_cipher 2) "pw" (Some 0%nat) w
    = (Ok (CipherParams.mk None (Some kr) (Some ir) (Some 0%nat) None), w') /\
    deref w' kr = Some key /\ deref w' ir = Some iv /\
    words key = words kv /\ sigBytes key = 1 * 4 /\
    words iv = slice_from (words kv) 1 /\
    sigBytes iv = Z.of_nat (length (words iv)) * 4 /\
    (0 <= 1 -> words kv = take (Z.to_nat 1) (words key) ++ words iv) /\
    objects w !! kr = None /\ objects w !! ir = None /\ kr <> ir /\
    agree w w' /\ random w' = random w.
Proof.
  apply (X16_kdf_execute toy_kdf (xor_cipher 2) "pw" 0%nat (mkWordArray [0x01234567; 0x09abcdef] 8)).
  reflexivity.
Defined.

(** ** cipher-core.js: password-based encryption, both ways *)

Lemma execute_random evpKDF cipher password w :
  KdfOpenSSL.execute evpKDF cipher password None w
  = derive evpKDF cipher password
      (fresh (dom (objects w)))
      (with_new (set_random w (fun k => random w (2 + k)%nat))
         (mkWordArray [random w 0%nat mod 2 ^ 32; random w 1%nat mod 2 ^ 32] 8)).
Proof.
  unfold derive, KdfOpenSSL.execute.
  unfold mbind, M_bind, mret, M_ret. rewrite random_8. reflexivity.
Qed.

(** The steps of [PBE.encrypt] up to its [return]: the key derivation with
    a random salt, and the encryption under the derived key and IV. *)
Lemma pbe_encrypt_steps evpKDF cipher password fmt w mr m :
  1 <= _blockSize cipher <= 63 -> (forall ks, block_inverse cipher ks) ->
  deref w mr = Some m ->
  0 <= sigBytes m -> sigBytes m + _blockSize cipher * 4 < 2 ^ 32 ->
  let saltv := mkWordArray [random w 0%nat mod 2 ^ 32; random w 1%nat mod 2 ^ 32] 8 in
  let k := derived_key evpKDF cipher password saltv in
  let ivv := derived_iv evpKDF cipher password saltv in
  let cfg0 := Cipher.mkConfig None None None in
  exists kr ir sr w1 ct w2 ctv pv,
    PBE.cfg_kdf evpKDF (PBE.mkConfig fmt None) cipher password None w
    = (Ok (CipherParams.mk None (Some kr) (Some ir) (Some sr) None), w1) /\
    Cipher.encrypt cipher (Cipher.Buffer mr) kr (Cipher.mkConfig (Some ir) None None) w1
    = (Ok ct, w2) /\
    deref w2 ct = Some ctv /\ deref w2 sr = Some saltv /\
    doEncrypt_value cipher m k cfg0 (Some (words ivv)) = Ok ctv /\
    doDecrypt_value cipher ctv k cfg0 (Some (words ivv)) = Ok pv /\
    sigBytes pv = sigBytes m /\ sig_bytes pv = sig_bytes m.
Proof.
  intros Hbs Hinv Hm Hs Hlt saltv k ivv cfg0.
  set (w0 := with_new (set_random w (fun k => random w (2 + k)%nat)) saltv).
  set (sr := fresh (dom (objects w))).
  assert (Hsr : deref w0 sr = Some saltv).
  { apply (deref_with_new (set_random w (fun k => random w (2 + k)%nat)) saltv). }
  assert (Hag0 : agree w w0).
  { apply (agree_with_new (set_random w (fun k => random w (2 + k)%nat)) saltv). }
  destruct (derive_run evpKDF cipher password sr saltv w0 Hsr)
    as (kr & ir & w1 & Hrun & Hk & Hi & _ & _ & _ & Hag1 & _).
  fold k in Hk. fold ivv in Hi.
  set (cfg := Cipher.mkConfig (Some ir) None None).
  destruct (roundtrip_value cipher m k cfg (words ivv) eq_refl eq_refl Hbs (Hinv _) Hs Hlt)
    as (ctv & pv & Henc & Hdec & Hsig & Hbytes).
  assert (Hm1 : deref w1 mr = Some m).
  { eapply agree_deref; [exact Hag1|]. eapply agree_deref; [exact Hag0|done]. }
  assert (Hivv : iv_value w1 cfg = Some (Some (words ivv))).
  { unfold iv_value. cbn [cfg Cipher.iv]. by rewrite Hi. }
  destruct (encrypt_run cipher mr kr cfg w1 m k _ ctv Hm1 Hk Hivv Henc) as (w2 & Hrun2 & Hd2 & Hag2).
  exists kr, ir, sr, w1, (fresh (dom (objects w1))), w2, ctv, pv.
  split; [|split; [exact Hrun2|]].
  { unfold PBE.cfg_kdf. cbn [PBE.kdf default from_option id]. cbv [id].
    rewrite execute_random. exact Hrun. }
  split; [done|]. split.
  { eapply agree_deref; [exact Hag2|]. eapply agree_deref; [exact Hag1|done]. }
  done.
Qed.

(** [PBE.decrypt] on cipher params with a salt, from the buffers that the
    params refer to. *)
Lemma pbe_decrypt_params_run base64 evpKDF cipher password fmt w ct sr ctv saltv pv kf ivf ff :
  deref w ct = Some ctv -> deref w sr = Some saltv ->
  doDecrypt_value cipher ctv (derived_key evpKDF cipher password saltv)
    (Cipher.mkConfig None None None)
    (Some (words (derived_iv evpKDF cipher password saltv))) = Ok pv ->
  exists p w',
    PBE.decrypt base64 evpKDF cipher
      (PBE.Params (CipherParams.mk (Some ct) kf ivf (Some sr) ff)) password
      (PBE.mkConfig fmt None) w
    = (Ok p, w') /\
    deref w' p = Some pv /\ agree w w'.
Proof.
  intros Hct Hsr Hdec.
  rewrite (pbe_decrypt_salted base64 evpKDF cipher
             (CipherParams.mk (Some ct) kf ivf (Some sr) ff) password fmt sr w eq_refl).
  unfold decrypt_from. cbn [CipherParams.rawCiphertext].
  destruct (derive_run evpKDF cipher password sr saltv w Hsr)
    as (kr' & ir' & w3 & Hrun3 & Hk' & Hi' & _ & _ & _ & Hag3 & _).
  rewrite bind_run, bind_run. unfold mret at 1, M_ret at 1. rewrite Hrun3.
  rewrite bind_run. unfold lift at 1. rewrite bind_run. unfold lift at 1.
  cbn [CipherParams.key CipherParams.iv].
  set (cfg' := Cipher.mkConfig (Some ir') None None).
  assert (Hivv' : iv_value w3 cfg'
                  = Some (Some (words (derived_iv evpKDF cipher password saltv)))).
  { unfold iv_value. cbn [cfg' Cipher.iv]. by rewrite Hi'. }
  destruct (decrypt_run cipher ct kr' cfg' w3 ctv _ _ pv
              (agree_deref _ _ _ _ Hag3 Hct) Hk' Hivv' Hdec) as (w4 & Hrun4 & Hd4 & Hag4).
  exists (fresh (dom (objects w3))), w4. split; [done|]. split; [done|].
  by eapply agree_trans.
Qed.

(** X17.  What [PBE.encrypt] computes before its [return] can be decrypted:
    with the key derivation of [PBE.encrypt] (a random salt of eight bytes,
    key and IV derived from the password and that salt) and the ciphertext
    that [cipher.encrypt] makes of the message under that key and IV,
    [PBE.decrypt] of cipher params that carry this ciphertext and this salt
    (whatever their other fields) returns, with the same password, a buffer
    with the bytes of the message. *)
Theorem X17_pbe_roundtrip base64 evpKDF cipher password fmt w mr m kf ivf ff :
  1 <= _blockSize cipher <= 63 -> (forall ks, block_inverse cipher ks) ->
  deref w mr = Some m ->
  0 <= sigBytes m -> sigBytes m + _blockSize cipher * 4 < 2 ^ 32 ->
  exists kr ir sr w1 ct w2,
    PBE.cfg_kdf evpKDF (PBE.mkConfig fmt None) cipher password None w
    = (Ok (CipherParams.mk None (Some kr) (Some ir) (Some sr) None), w1) /\
    Cipher.encrypt cipher (Cipher.Buffer mr) kr (Cipher.mkConfig (Some ir) None None) w1
    = (Ok ct, w2) /\
    exists p w3 v,
      PBE.decrypt base64 evpKDF cipher
        (PBE.Params (CipherParams.mk (Some ct) kf ivf (Some sr) ff)) password
        (PBE.mkConfig fmt None) w2
      = (Ok p, w3) /\
      deref w3 p = Some v /\ sigBytes v = sigBytes m /\ sig_bytes v = sig_bytes m.
Proof.
  intros Hbs Hinv Hm Hs Hlt.
  destruct (pbe_encrypt_steps evpKDF cipher password fmt w mr m Hbs Hinv Hm Hs Hlt)
    as (kr & ir & sr & w1 & ct & w2 & ctv & pv & Hkdf & Henc & Hct & Hsr & _ & Hdec & Hsig & Hb).
  destruct (pbe_decrypt_params_run base64 evpKDF cipher password fmt w2 ct sr ctv _ pv kf ivf ff
              Hct Hsr Hdec) as (p & w3 & Hrun & Hp & _).
  exists kr, ir, sr, w1, ct, w2. split; [done|]. split; [done|]. by exists p, w3, pv.
Qed.

Lemma X17_pbe_roundtrip_witness :
  exists kr ir sr w1 ct w2,
    PBE.cfg_kdf toy_kdf (PBE.mkConfig None None) (xor_cipher 2) "pw" None example_world
    = (Ok (CipherParams.mk None (Some kr) (Some ir) (Some sr) None), w1) /\
    Cipher.encrypt (xor_cipher 2) (Cipher.Buffer 0%nat) kr (Cipher.mkConfig (Some ir) None None) w1
    = (Ok ct, w2) /\
    exists p w3 v,
      PBE.decrypt Base64.encoder toy_kdf (xor_cipher 2)
        (PBE.Params (CipherParams.mk (Some ct) None None (Some sr) None)) "pw"
        (PBE.mkConfig None None) w2
      = (Ok p, w3) /\
      deref w3 p = Some v /\ sigBytes v = 5 /\ sig_bytes v = [0x61; 0x62; 0x63; 0x64; 0x65].
Proof.
  apply (X17_pbe_roundtrip Base64.encoder toy_kdf (xor_cipher 2) "pw" None example_world 0%nat
           (mkWordArray [0x61626364; 0x65000000] 5) None None None).
  - simpl. lia.
  - intros ks. apply xor_cipher_inverse.
  - reflexivity.
  - simpl. lia.
  - simpl. lia.
Defined.

(** ** cipher-core.js: CBC, block by block *)

(** Cipher block chaining as it is defined: each block of the message is
    XOR-ed with the ciphertext block before it (the IV, for the first) and
    encrypted. *)
Fixpoint cbc_blocks (c : BlockCipher) (ks : KeySchedule c) (prev : list Z) (ps : list (list Z))
    : list (list Z) :=
  match ps with
  | [] => []
  | p :: ps' =>
      let ci := encryptBlockFn c ks (zip_with JS.xor p prev) in
      ci :: cbc_blocks c ks ci ps'
  end.

Lemma blocks_cons bs ws j n :
  j < n -> blocks bs ws j n = read_block ws (j * bs) bs :: blocks bs ws (j + 1) n.
Proof.
  intros H. unfold blocks. replace (n - j) with (Z.succ (n - (j + 1))) by lia.
  rewrite seqZ_cons by lia. cbn [fmap list_fmap]. f_equal.
  replace (Z.succ j) with (j + 1) by lia.
  by replace (Z.pred (Z.succ (n - (j + 1)))) with (n - (j + 1)) by lia.
Qed.

Lemma blocks_ext_from bs ws ws' j n :
  0 <= bs -> 0 <= j ->
  (forall i, j * bs <= i < n * bs -> JS.get ws i = JS.get ws' i) ->
  blocks bs ws j n = blocks bs ws' j n.
Proof.
  intros Hbs Hj H. unfold blocks. apply list_fmap_ext. intros k i Hk.
  apply lookup_seqZ in Hk as [-> Hlt]. apply read_block_ext. intros x Hx. apply H. nia.
Qed.

Lemma take_read_block ws k bs :
  0 <= k -> 0 <= bs -> k + bs <= Z.of_nat (length ws) ->
  take (Z.to_nat (k + bs)) ws = take (Z.to_nat k) ws ++ read_block ws k bs.
Proof.
  intros Hk Hbs Hlen. apply list_eq_get.
  - rewrite length_app, !length_take, length_read_block. lia.
  - intros i Hi. rewrite length_take in Hi.
    destruct (decide (i < k)) as [Hl|Hl].
    + rewrite get_take by lia. unfold JS.get at 2.
      destruct (Z.ltb_spec i 0); [lia|].
      rewrite lookup_app_l by (rewrite length_take; lia).
      rewrite lookup_take_lt by lia. unfold JS.get. by destruct (Z.ltb_spec i 0); [lia|].
    + rewrite get_take by lia. unfold JS.get at 2.
      destruct (Z.ltb_spec i 0); [lia|].
      rewrite lookup_app_r by (rewrite length_take; lia).
      rewrite length_take. replace (Z.to_nat i - Z.to_nat k `min` length ws)%nat
        with (Z.to_nat (i - k)) by lia.
      rewrite lookup_read_block by lia. simpl. f_equal. lia.
Qed.

Lemma lookup_read_block_nat ws off bs (n : nat) :
  Z.of_nat n < bs -> read_block ws off bs !! n = Some (JS.get ws (off + Z.of_nat n)).
Proof.
  intros Hn. rewrite <- (Nat2Z.id n) at 1. by rewrite lookup_read_block by lia.
Qed.

Section cbc_textbook.
Context (c : BlockCipher) (ks : KeySchedule c) (iv : list Z).
Hypothesis Hbs : 1 <= _blockSize c.
Hypothesis Hinv : block_inverse c ks.

Lemma cbc_encrypt_blocks (r : nat) : forall (k : Z) (W prev : list Z) fuel,
  0 <= k -> Z.of_nat (length W) = (k + Z.of_nat r) * _blockSize c ->
  prev = (if decide (k = 0) then read_block iv 0 (_blockSize c)
          else read_block W ((k - 1) * _blockSize c) (_blockSize c)) ->
  (r <= fuel)%nat ->
  CBC.encrypt_loop fuel c ks iv (Z.of_nat (length W)) (k * _blockSize c) W
  = Ok (take (Z.to_nat (k * _blockSize c)) W
        ++ mjoin (cbc_blocks c ks prev (blocks (_blockSize c) W k (k + Z.of_nat r)))).
Proof.
  set (bs := _blockSize c) in *.
  induction r as [|r IH]; intros k W prev fuel Hk Hlen Hprev Hf.
  - rewrite Z.add_0_r in *. unfold blocks. rewrite Z.sub_diag. cbn [seqZ fmap list_fmap cbc_blocks mjoin].
    change (seqZ k 0) with (@nil Z). cbn. rewrite app_nil_r, take_ge by lia.
    destruct fuel; simpl; by destruct (Z.ltb_spec (k * bs) (Z.of_nat (length W))); try lia.
  - destruct fuel as [|fuel]; [lia|].
    assert (Hoff : 0 <= k * bs) by nia.
    assert (Hal : k * bs = 0 \/ bs <= k * bs).
    { destruct (decide (k = 0)) as [->|]; [by left|right; nia]. }
    assert (Hin : k * bs + bs <= Z.of_nat (length W)) by nia.
    destruct (encrypt_step c ks iv Hbs Hinv W (k * bs) Hoff Hal Hin)
      as (Hl' & Hout & Hrd & HXl & HXi & HX).
    fold bs in Hl', Hout, Hrd, HXl, HXi, HX.
    set (X := read_block (CBC.xorBlock W iv (k * bs) bs) (k * bs) bs) in *.
    set (W' := _encryptBlock c ks (CBC.xorBlock W iv (k * bs) bs) (k * bs)) in *.
    cbn [CBC.encrypt_loop]. destruct (Z.ltb_spec (k * bs) (Z.of_nat (length W))); [|lia].
    fold bs. fold W'. rewrite <- Hl'.
    replace (k * bs + bs) with ((k + 1) * bs) by lia.
    rewrite (IH (k + 1) W' (encryptBlockFn c ks X) fuel); [|lia|rewrite Hl'; lia| |lia].
    2:{ rewrite decide_False by lia. replace (k + 1 - 1) with k by lia. by rewrite Hrd. }
    f_equal.
    assert (HXz : X = zip_with JS.xor (read_block W (k * bs) bs) prev).
    { apply list_eq. intros n. destruct (decide (Z.of_nat n < bs)) as [Hn|Hn].
      - specialize (HX (Z.of_nat n) ltac:(lia)). rewrite Nat2Z.id in HX. rewrite HX.
        rewrite lookup_zip_with, lookup_read_block_nat by lia. simpl. rewrite Hprev.
        destruct (decide (k = 0)) as [->|Hk0].
        + rewrite decide_True by lia. rewrite lookup_read_block_nat by lia. simpl.
          repeat f_equal; lia.
        + rewrite decide_False by nia. rewrite lookup_read_block_nat by lia. simpl.
          repeat f_equal; lia.
      - rewrite !(proj2 (lookup_ge_None _ _)); [done| |].
        + rewrite length_zip_with, length_read_block. lia.
        + rewrite HXl. lia. }
    rewrite (blocks_cons bs W k) by lia. cbn [cbc_blocks mjoin]. rewrite <- HXz.
    replace (k + Z.of_nat (S r)) with (k + 1 + Z.of_nat r) by lia.
    rewrite (blocks_ext_from bs W' W (k + 1)); [|lia|lia|].
    2:{ intros i Hi. apply Hout; lia. }
    cbn [list_join]. rewrite app_assoc. f_equal.
    replace ((k + 1) * bs) with (k * bs + bs) by lia.
    rewrite take_read_block by lia. rewrite Hrd. f_equal.
    apply list_eq_get; [rewrite !length_take; lia|].
    intros i Hi. rewrite length_take in Hi. rewrite !get_take by lia. apply Hout; lia.
Qed.

End cbc_textbook.

(** X18.  [CBC.encrypt] computes cipher block chaining: the ciphertext
    block [j] is the encryption of the message block [j] XOR-ed with the
    ciphertext block [j - 1], and of the first message block XOR-ed with the
    IV. *)
Theorem X18_cbc_chaining c ks iv W n :
  1 <= _blockSize c -> block_inverse c ks ->
  Z.of_nat (length W) = Z.of_nat n * _blockSize c ->
  CBC.encrypt c ks W iv
  = Ok (mjoin (cbc_blocks c ks (read_block iv 0 (_blockSize c))
                 (blocks (_blockSize c) W 0 (Z.of_nat n)))).
Proof.
  intros Hbs Hinv Hlen. unfold CBC.encrypt.
  rewrite (cbc_encrypt_blocks c ks iv Hbs Hinv n 0 W (read_block iv 0 (_blockSize c)));
    [done|lia|lia|done|nia].
Qed.

Lemma X18_cbc_chaining_witness :
  CBC.encrypt (xor_cipher 2) 0xff [1; 2; 3; 4] [0x10; 0x20]
  = Ok (mjoin (cbc_blocks (xor_cipher 2) 0xff (read_block [0x10; 0x20] 0 2)
                 (blocks 2 [1; 2; 3; 4] 0 (Z.of_nat 2)))).
Proof.
  apply (X18_cbc_chaining (xor_cipher 2) 0xff [0x10; 0x20] [1; 2; 3; 4] 2).
  - simpl. lia.
  - apply xor_cipher_inverse.
  - reflexivity.
Defined.

(** ** Streaming and one call give the same digest and the same MAC *)

(** X19.  Hashing in pieces is hashing the whole: on a fresh hasher, any
    sequence of updates followed by [compute], with or without a last
    piece, returns the digest that the hash returns when it is called on
    the concatenation as one message, and leaves the hasher reset. *)
Theorem X19_hash_pieces algo us final :
  1 <= blockSize algo ->
  Forall (fun u => 0 <= sigBytes (Hash.to_wordarray u)) (us ++ option_list final) ->
  Z.of_nat (length (stream (us ++ option_list final))) < 2 ^ 32 ->
  (h ← hash_updates algo (Hash.reset algo) us; Hash.compute algo h final)
  = (digest ← Hash_computeStatic algo
                (Some (Wa (Latin1.fromCodes (stream (us ++ option_list final)))));
     Ok (digest, Hash.reset algo)).
Proof.
  intros Hbs Hall Hlt. rewrite stream_app, length_app in Hlt.
  apply Forall_app in Hall as [Hus Hfin].
  assert (Hr : ready algo (Hash.reset algo)) by (split; [apply clamped_nil|simpl; lia]).
  rewrite hash_updates_absorb by (done || (simpl; lia)).
  cbn [mbind outcome_mbind outcome_bind].
  set (h := absorb_bytes algo (Hash.reset algo) (stream us)).
  destruct (absorb_bytes_message algo (Hash.reset algo) (stream us) Hbs clamped_nil
              ltac:(simpl; lia) (stream_bytes us)) as (Hc1 & Hs1 & _).
  cbv zeta in Hc1, Hs1. fold h in Hc1, Hs1.
  assert (Hle : sigBytes (_message h) <= Z.of_nat (length (stream us))).
  { rewrite Hs1. simpl. apply Z.mod_le; lia. }
  assert (Hrh : ready algo h).
  { split; [done|]. rewrite Hs1. apply Z.mod_pos_bound. lia. }
  unfold Hash.compute.
  rewrite final_update_absorb; [|done|done| |lia].
  2:{ intros u ->. change (option_list (Some u)) with [u] in Hfin.
      by inversion Hfin. }
  cbn [mbind outcome_mbind outcome_bind].
  unfold h. rewrite absorb_bytes_app;
    [|done|apply clamped_nil|simpl; lia|apply stream_bytes|apply stream_bytes].
  rewrite <- stream_app.
  destruct (fromCodes_spec (stream (us ++ option_list final)) (stream_bytes _)) as (E1 & E2 & _).
  { rewrite stream_app, length_app. lia. }
  cbv zeta in E1, E2.
  rewrite hash_static_bytes; [|done|rewrite E1, stream_app, length_app; lia].
  cbv zeta. rewrite E2. done.
Qed.

Lemma X19_hash_pieces_witness :
  let algo := xor_hash 2 in
  let us := [Str "abc"; Wa (mkWordArray [0x01020304; 0x05060708; 0x090a0000] 10)] in
  (h ← hash_updates algo (Hash.reset algo) us; Hash.compute algo h (Some (Str "z")))
  = (digest ← Hash_computeStatic algo
                (Some (Wa (Latin1.fromCodes (stream (us ++ option_list (Some (Str "z")))))));
     Ok (digest, Hash.reset algo)).
Proof.
  apply (X19_hash_pieces (xor_hash 2)
           [Str "abc"; Wa (mkWordArray [0x01020304; 0x05060708; 0x090a0000] 10)]
           (Some (Str "z"))).
  - simpl. lia.
  - repeat constructor; simpl; lia.
  - simpl. lia.
Defined.

(** X20.  A MAC in pieces is the MAC of the whole: on an instance that
    [init] made, any sequence of updates followed by [compute], with or
    without a last piece, has the result (the MAC and the instance it
    leaves) of one update with the concatenation followed by [compute]. *)
Theorem X20_hmac_pieces algo key st us final :
  1 <= blockSize algo -> blockSize algo * 4 < 2 ^ 32 ->
  HMAC.init algo key = Ok st ->
  Forall (fun u => 0 <= sigBytes (Hash.to_wordarray u)) (us ++ option_list final) ->
  blockSize algo * 4 + Z.of_nat (length (stream (us ++ option_list final))) < 2 ^ 32 ->
  HMACRun.run algo st us final
  = HMACRun.run algo st [Wa (Latin1.fromCodes (stream (us ++ option_list final)))] None.
Proof.
  intros Hbs Hb Hinit Hall Hlt. rewrite stream_app, length_app in Hlt.
  apply Forall_app in Hall as [Hus Hfin].
  pose proof (hmac_init_primed _ _ _ Hinit) as Hp.
  destruct (hmac_init_keys _ _ _ Hinit) as [_ Hki].
  pose proof (primed_ready algo st Hbs Hb Hki Hp) as Hr.
  set (B := stream (us ++ option_list final)).
  destruct (fromCodes_spec B (stream_bytes _)) as (E1 & E2 & _).
  { unfold B. rewrite stream_app, length_app. lia. }
  cbv zeta in E1, E2.
  assert (Hrl : sigBytes (_message (_hasher st)) < blockSize algo * 4) by apply Hr.
  unfold HMACRun.run. rewrite !hmac_updates_hash.
  (* the right-hand side *)
  rewrite (hash_updates_absorb algo [Wa (Latin1.fromCodes B)]); [|done|done| |].
  2:{ apply Forall_singleton. cbn [Hash.to_wordarray]. rewrite E1. lia. }
  2:{ rewrite stream_single. cbn [Hash.to_wordarray]. rewrite E2. unfold B.
      rewrite stream_app, length_app. lia. }
  rewrite stream_single. cbn [Hash.to_wordarray]. rewrite E2.
  (* the left-hand side *)
  rewrite hash_updates_absorb by (done || lia).
  cbn [mbind outcome_mbind outcome_bind].
  rewrite hmac_compute_final.
  set (h := absorb_bytes algo (_hasher st) (stream us)).
  destruct (absorb_bytes_message algo (_hasher st) (stream us) Hbs ltac:(apply Hr)
              ltac:(lia) (stream_bytes us)) as (Hc1 & Hs1 & _).
  cbv zeta in Hc1, Hs1. fold h in Hc1, Hs1.
  assert (Hs0 : 0 <= sigBytes (_message (_hasher st))) by apply Hr.
  assert (Hle : sigBytes (_message h) <= sigBytes (_message (_hasher st)) + Z.of_nat (length (stream us))).
  { rewrite Hs1. apply Z.mod_le; lia. }
  assert (Hrh : ready algo h).
  { split; [done|]. rewrite Hs1. apply Z.mod_pos_bound. lia. }
  assert (Hup : (if Hash.truthy final
                 then HMAC.update algo (mkHMAC h (_oKey st) (_iKey st)) (default (Str "") final)
                 else Ok (mkHMAC h (_oKey st) (_iKey st)))
                = Ok (mkHMAC (absorb_bytes algo h (stream (option_list final)))
                        (_oKey st) (_iKey st))).
  { assert (Hf : (if Hash.truthy final then Hash.update algo h (default (Str "") final) else Ok h)
                 = Ok (absorb_bytes algo h (stream (option_list final)))).
    { apply final_update_absorb; [done|done| |lia].
      intros u ->. change (option_list (Some u)) with [u] in Hfin. by inversion Hfin. }
    unfold HMAC.update. cbn [_hasher _oKey _iKey].
    destruct (Hash.truthy final); [by rewrite Hf|].
    change (Ok (mkHMAC h (_oKey st) (_iKey st)))
      with (Ok h ≫= (fun h' => Ok (mkHMAC h' (_oKey st) (_iKey st)))).
    by rewrite Hf. }
  rewrite Hup. cbn [mbind outcome_mbind outcome_bind].
  unfold h. rewrite absorb_bytes_app;
    [|done|apply Hr|lia|apply stream_bytes|apply stream_bytes].
  by rewrite <- stream_app.
Qed.

Lemma X20_hmac_pieces_witness :
  let algo := xor_hash 2 in
  let us := [Str "abc"; Wa (mkWordArray [0x01020304; 0x05060708; 0x090a0000] 10)] in
  HMACRun.run algo example_hmac us (Some (Str "z"))
  = HMACRun.run algo example_hmac
      [Wa (Latin1.fromCodes (stream (us ++ option_list (Some (Str "z")))))] None.
Proof.
  apply (X20_hmac_pieces (xor_hash 2) (Str "key") example_hmac
           [Str "abc"; Wa (mkWordArray [0x01020304; 0x05060708; 0x090a0000] 10)]
           (Some (Str "z"))).
  - simpl. lia.
  - simpl. lia.
  - reflexivity.
  - repeat constructor; simpl; lia.
  - simpl. lia.
Defined.

(** ** cipher-core.js: what [OpenSSL.fromString] accepts *)

(** X21.  [OpenSSL.fromString] checks the magic and nothing else: a text
    that decodes to ["Salted__"] followed by fewer than eight bytes is taken
    for salted, and the raw ciphertext that is returned has no words and a
    negative [sigBytes], the number of decoded bytes minus 16; the salt is
    what words there were after the magic. *)
Theorem X21_fromString_truncated base64 s B :
  Forall is_byte B -> take 8 B = magic_bytes -> (length B < 16)%nat ->
  enc_fromCodes base64 s = Ok (Latin1.fromCodes B) ->
  exists raw salt,
    OpenSSL.fromString base64 s = Ok (CipherParams.mk (Some raw) None None (Some salt) None) /\
    words raw = [] /\ sigBytes raw = Z.of_nat (length B) - 16 /\ sigBytes raw < 0 /\
    sig_bytes raw = [] /\
    words salt = drop 2 (words (Latin1.fromCodes B)) /\
    sigBytes salt = Z.of_nat (length (words salt)) * 4 /\ sigBytes salt <= 8.
Proof.
  intros Hb Hm Hlen Hcodec.
  assert (Hl : Z.of_nat (length B) <= 2 ^ 32) by lia.
  rewrite (fromString_decoded _ _ _ Hcodec).
  pose proof (proj2 (packed_magic B Hb Hl)) as Hmg. cbv zeta in Hmg. rewrite Hmg by done.
  destruct (fromCodes_spec B Hb Hl) as (Hs & _ & (_ & Hwl & _) & _).
  set (D := Latin1.fromCodes B) in *.
  assert (Hw : (length (words D) <= 4)%nat) by (rewrite Hs in Hwl; zdm).
  do 2 eexists. split; [reflexivity|].
  cbv [WordArray_create default from_option id]. cbn [words sigBytes].
  split; [by rewrite drop_ge by lia|]. split; [lia|]. split; [lia|]. split.
  - unfold sig_bytes. cbn [sigBytes]. by rewrite seqZ_nil by lia.
  - split; [by rewrite take_ge by (rewrite length_drop; lia)|].
    split; [done|]. rewrite length_take, length_drop. lia.
Qed.

Lemma X21_fromString_truncated_witness :
  exists raw salt,
    OpenSSL.fromString Base64.encoder (char_codes "U2FsdGVkX18BAg==")
    = Ok (CipherParams.mk (Some raw) None None (Some salt) None) /\
    words raw = [] /\ sigBytes raw = Z.of_nat (length (magic_bytes ++ [1; 2])) - 16 /\
    sigBytes raw < 0 /\ sig_bytes raw = [] /\
    words salt = drop 2 (words (Latin1.fromCodes (magic_bytes ++ [1; 2]))) /\
    sigBytes salt = Z.of_nat (length (words salt)) * 4 /\ sigBytes salt <= 8.
Proof.
  apply (X21_fromString_truncated Base64.encoder (char_codes "U2FsdGVkX18BAg==")
           (magic_bytes ++ [1; 2])).
  - repeat constructor; unfold is_byte; lia.
  - reflexivity.
  - simpl. lia.
  - reflexivity.
Defined.

(** ** cipher-core.js: from the formatted text back to the message *)

(** [CipherParams.toString(formatter)]:
    [(formatter || this.formatter).toString(this)]. *)
Definition CipherParams_toString (base64 : Encoder) (params : CipherParams.t WordArray)
    (formatter : option FormatName) : outcome (list Z) :=
  match (match formatter with Some f => Some f | None => CipherParams.formatter params end) with
  | Some OpenSSLFormat => OpenSSL.toString base64 params
  | None => Throw TypeError
  end.

(** The string with the given character codes. *)
Definition string_of_codes (cs : list Z) : string :=
  String.string_of_list_ascii ((fun z => Ascii.ascii_of_nat (Z.to_nat z)) <$> cs).

Lemma char_codes_string_of_codes cs : Forall is_byte cs -> char_codes (string_of_codes cs) = cs.
Proof.
  intros Hb. unfold char_codes, string_of_codes.
  rewrite String.list_ascii_of_string_of_list_ascii, <- list_fmap_compose.
  rewrite <- (list_fmap_id cs) at 2. apply Forall_fmap_ext_1.
  eapply Forall_impl; [exact Hb|]. intros z Hz. simpl. unfold is_byte in Hz.
  rewrite Ascii.nat_ascii_embedding by lia. lia.
Qed.

Lemma cbc_blocks_int32 c ks ps : forall prev,
  (forall blk, Forall int32 (encryptBlockFn c ks blk)) ->
  Forall int32 (mjoin (cbc_blocks c ks prev ps)).
Proof.
  induction ps as [|p ps IH]; intros prev H; cbn [cbc_blocks mjoin list_join]; [constructor|].
  apply Forall_app. split; [apply H|by apply IH].
Qed.

Lemma Forall_all_int32 ws : Forall int32 ws -> all_int32 ws.
Proof.
  intros H j Hj. unfold JS.get. destruct (Z.ltb_spec j 0); [lia|].
  destruct (ws !! Z.to_nat j) as [x|] eqn:E; simpl; [|apply int32_0].
  by eapply Forall_lookup_1.
Qed.

(** The ciphertext that [_doEncrypt] makes: whole blocks, and words of 32
    bits when the primitive returns such. *)
Lemma doEncrypt_value_canonical c m k cfg iv :
  Cipher.cfg_padding cfg = C_pad_PKCS5 -> Cipher.cfg_mode cfg = C_mode_CBC ->
  1 <= _blockSize c -> block_inverse c (_init c k) ->
  (forall blk, Forall int32 (encryptBlockFn c (_init c k) blk)) ->
  0 <= sigBytes m -> sigBytes m + _blockSize c * 4 < 2 ^ 32 ->
  forall ct, doEncrypt_value c m k cfg (Some iv) = Ok ct ->
    0 <= sigBytes ct <= sigBytes m + _blockSize c * 4 /\
    clamped (words ct) (sigBytes ct) /\ all_int32 (words ct).
Proof.
  intros Hpad Hmode Hbs Hinv Hi Hs Hlt ct Hct.
  destruct (pad_blocks m (_blockSize c) Hs Hbs Hlt) as (r & Hp & Hsz & Hl & _).
  set (q := sigBytes m / (_blockSize c * 4) + 1) in *.
  assert (Hq : 0 <= q) by (unfold q; zdm).
  assert (Hlen : Z.of_nat (length (words r)) = Z.of_nat (Z.to_nat q) * _blockSize c) by lia.
  destruct (cbc_roundtrip c (_init c k) iv Hbs Hinv (words r) (Z.to_nat q) Hlen) as (cs & Henc & Hcl & _).
  pose proof (cbc_encrypt_blocks c (_init c k) iv Hbs Hinv (Z.to_nat q) 0 (words r)
                (read_block iv 0 (_blockSize c)) (length (words r)) ltac:(lia) ltac:(lia) eq_refl
                ltac:(nia)) as Hblocks.
  change (CBC.encrypt_loop _ _ _ _ _ _ _) with (CBC.encrypt c (_init c k) (words r) iv) in Hblocks.
  unfold doEncrypt_value in Hct. rewrite Hpad, Hmode in Hct.
  cbn [pad C_pad_PKCS5 C_mode_CBC mode_encrypt] in Hct.
  rewrite Hp in Hct. cbn -[CBC.encrypt] in Hct. rewrite Henc in Hct.
  cbn [mbind outcome_mbind outcome_bind] in Hct. injection Hct as <-. cbn [words sigBytes].
  assert (Hub : sigBytes r <= sigBytes m + _blockSize c * 4).
  { rewrite Hsz. unfold q. pose proof (Z.div_mod (sigBytes m) (_blockSize c * 4) ltac:(lia)).
    pose proof (Z.mod_pos_bound (sigBytes m) (_blockSize c * 4) ltac:(lia)). lia. }
  split; [nia|]. split.
  - split; [nia|]. split; [rewrite Hcl, Hl, Hsz; zdm|].
    intros Hne. exfalso. apply Hne. rewrite Hsz.
    replace (q * (_blockSize c * 4)) with (q * _blockSize c * 4) by lia. apply Z_mod_mult.
  - apply Forall_all_int32. rewrite Henc in Hblocks. injection Hblocks as ->.
    by apply cbc_blocks_int32.
Qed.

Lemma wordarray_eq (a b : WordArray) : words a = words b -> sigBytes a = sigBytes b -> a = b.
Proof. destruct a, b. simpl. by intros -> ->. Qed.

Lemma all_int32_drop k ws : all_int32 ws -> all_int32 (drop k ws).
Proof. intros H j Hj. rewrite get_drop by done. apply H. lia. Qed.

(** What [fromString] makes of the text of a salted ciphertext without
    excess bits: that very ciphertext, and a salt with the bytes of the
    salt. *)
Lemma fromString_salted_canonical base64 raw salt text x :
  0 <= sigBytes raw -> sigBytes salt = 8 -> sigBytes raw + 16 < 2 ^ 32 ->
  clamped (words raw) (sigBytes raw) -> all_int32 (words raw) ->
  (y ← concat (WordArray_create (Some OpenSSL.magic) None) salt; concat y raw) = Ok x ->
  enc_fromCodes base64 text = Ok (Latin1.fromCodes (sig_bytes x)) ->
  exists salt',
    OpenSSL.fromString base64 text = Ok (CipherParams.mk (Some raw) None None (Some salt') None) /\
    sigBytes salt' = sigBytes salt /\ sig_bytes salt' = sig_bytes salt.
Proof.
  intros Hs Hsalt Hlt Hc Hi Hx Hcodec.
  destruct (fromString_salted base64 raw salt text x Hs Hsalt Hlt Hx Hcodec)
    as (raw' & salt' & Hfrom & H1 & H2 & H3 & H4).
  exists salt'. split; [|done]. rewrite Hfrom.
  assert (Hxs : sigBytes x = 16 + sigBytes raw).
  { destruct (concat_spec (WordArray_create (Some OpenSSL.magic) None) salt)
      as (y & Hy & Hys & _); [simpl; lia|simpl; lia|].
    rewrite Hy in Hx. cbn [mbind outcome_mbind outcome_bind] in Hx.
    simpl in Hys. rewrite Hsalt in Hys. simpl in Hys.
    destruct (concat_spec y raw) as (x' & Hx' & Hxs & _); [lia|lia|].
    rewrite Hx in Hx'. injection Hx' as <-. lia. }
  destruct (fromCodes_spec (sig_bytes x) (sig_bytes_all_bytes x)) as (Hsz & _ & HDc & HDi).
  { rewrite length_sig_bytes. lia. }
  cbv zeta in Hsz, HDc, HDi. rewrite length_sig_bytes in Hsz.
  rewrite (fromString_decoded _ _ _ Hcodec) in Hfrom.
  set (D := Latin1.fromCodes (sig_bytes x)) in *. clearbody D.
  destruct (_ && _); [|done]. injection Hfrom as Hraw' _. subst raw'.
  cbn [sigBytes] in H1.
  change (sig_bytes (mkWordArray ?a ?b)) with (bytes_of a b) in H2.
  do 3 f_equal. apply wordarray_eq; cbn [words sigBytes]; [|done].
  apply (canonical_eq _ _ (sigBytes raw)); [lia| |done| |done|].
  - rewrite <- H1. replace (sigBytes D - 16) with (sigBytes D - 4 * 4) by lia.
    apply (clamped_drop _ _ 4); [done|lia|lia].
  - by apply all_int32_drop.
  - rewrite <- H1 at 1. exact H2.
Qed.

Lemma pbe_decrypt_formatted base64 evpKDF cipher s password fmt w raw salt :
  PBE.fromString base64 (PBE.cfg_format (PBE.mkConfig fmt None)) s
  = Ok (CipherParams.mk (Some raw) None None (Some salt) None) ->
  PBE.decrypt base64 evpKDF cipher (PBE.Formatted s) password (PBE.mkConfig fmt None) w
  = PBE.decrypt base64 evpKDF cipher
      (PBE.Params (CipherParams.mk (Some (fresh (dom (objects w)))) None None
                     (Some (fresh (dom (objects (with_new w raw))))) None))
      password (PBE.mkConfig fmt None) (with_new (with_new w raw) salt).
Proof.
  intros Hfrom. unfold PBE.decrypt. rewrite !bind_run. unfold lift at 1. rewrite Hfrom.
  cbn [CipherParams.rawCiphertext CipherParams.salt PBE.new_opt].
  rewrite !bind_run, new_run. unfold mret at 1, M_ret at 1.
  rewrite !bind_run, new_run. unfold mret at 1 2, M_ret at 1 2. reflexivity.
Qed.

(** X22.  The whole way round, but for the [return] of [PBE.encrypt]: take
    the salt, the key and the IV that [PBE.encrypt] derives and the
    ciphertext that it computes; the text that [toString] with the OpenSSL
    formatter makes of that ciphertext and salt, handed as a string to
    [PBE.decrypt] with the same password, gives a buffer with the bytes of
    the message.  This is for a Base64 encoder that decodes what it encoded,
    a key derivation that depends on the bytes of the salt only, and a
    primitive whose blocks are words of 32 bits. *)
Theorem X22_pbe_text_roundtrip base64 evpKDF cipher password fmt w mr m :
  1 <= _blockSize cipher <= 63 -> (forall ks, block_inverse cipher ks) ->
  (forall ks blk, Forall int32 (encryptBlockFn cipher ks blk)) ->
  (forall pw s s' n, sigBytes s = sigBytes s' -> sig_bytes s = sig_bytes s' ->
     evpKDF pw s n = evpKDF pw s' n) ->
  (forall x, 0 <= sigBytes x < 2 ^ 32 ->
     Forall is_byte (enc_toCodes base64 x) /\
     enc_fromCodes base64 (enc_toCodes base64 x) = Ok (Latin1.fromCodes (sig_bytes x))) ->
  deref w mr = Some m ->
  0 <= sigBytes m -> sigBytes m + _blockSize cipher * 4 + 16 < 2 ^ 32 ->
  exists kr ir sr w1 ct w2 ctv saltv text,
    PBE.cfg_kdf evpKDF (PBE.mkConfig fmt None) cipher password None w
    = (Ok (CipherParams.mk None (Some kr) (Some ir) (Some sr) None), w1) /\
    Cipher.encrypt cipher (Cipher.Buffer mr) kr (Cipher.mkConfig (Some ir) None None) w1
    = (Ok ct, w2) /\
    deref w2 ct = Some ctv /\ deref w2 sr = Some saltv /\
    CipherParams_toString base64
      (CipherParams.mk (Some ctv) None None (Some saltv)
         (Some (PBE.cfg_format (PBE.mkConfig fmt None)))) None = Ok text /\
    exists p w3 v,
      PBE.decrypt base64 evpKDF cipher (PBE.Formatted (string_of_codes text)) password
        (PBE.mkConfig fmt None) w2
      = (Ok p, w3) /\
      deref w3 p = Some v /\ sigBytes v = sigBytes m /\ sig_bytes v = sig_bytes m.
Proof.
  intros Hbs Hinv Hi32 Hkdf Hcodec Hm Hs Hlt.
  destruct (pbe_encrypt_steps evpKDF cipher password fmt w mr m Hbs Hinv Hm Hs ltac:(lia))
    as (kr & ir & sr & w1 & ct & w2 & ctv & pv & Hk & Henc & Hct & Hsr & Hev & Hdec & Hsig & Hb).
  set (saltv := mkWordArray [random w 0%nat mod 2 ^ 32; random w 1%nat mod 2 ^ 32] 8) in *.
  destruct (doEncrypt_value_canonical cipher m _ (Cipher.mkConfig None None None) _
              eq_refl eq_refl ltac:(lia) (Hinv _) (Hi32 _) Hs ltac:(lia) ctv Hev)
    as (Hcs & Hcc & Hci).
  assert (Hx : exists x, (y ← concat (WordArray_create (Some OpenSSL.magic) None) saltv;
                          concat y ctv) = Ok x /\ sigBytes x = 16 + sigBytes ctv).
  { destruct (concat_spec (WordArray_create (Some OpenSSL.magic) None) saltv)
      as (y & Hy & Hys & _); [simpl; lia|simpl; lia|].
    simpl in Hys. rewrite Hy. cbn [mbind outcome_mbind outcome_bind].
    destruct (concat_spec y ctv) as (x & Hx & Hxs & _); [lia|lia|].
    exists x. split; [done|lia]. }
  destruct Hx as (x & Hx & Hxs).
  destruct (Hcodec x ltac:(lia)) as [Hxb Hxc].
  set (text := enc_toCodes base64 x) in *.
  destruct (fromString_salted_canonical base64 ctv saltv text x ltac:(lia) eq_refl ltac:(lia)
              Hcc Hci Hx Hxc) as (salt' & Hfrom & Hs8 & Hsb).
  exists kr, ir, sr, w1, ct, w2, ctv, saltv, text.
  split; [done|]. split; [done|]. split; [done|]. split; [done|]. split.
  { unfold CipherParams_toString. cbn [CipherParams.formatter].
    destruct (PBE.cfg_format _). unfold OpenSSL.toString, OpenSSL.openSSLStr.
    cbn [CipherParams.rawCiphertext CipherParams.salt]. by rewrite Hx. }
  rewrite (pbe_decrypt_formatted base64 evpKDF cipher _ password fmt w2 ctv salt').
  2:{ unfold PBE.fromString. destruct (PBE.cfg_format _).
      by rewrite char_codes_string_of_codes. }
  set (w2a := with_new w2 ctv). set (w2b := with_new w2a salt').
  assert (Hct' : deref w2b (fresh (dom (objects w2))) = Some ctv).
  { eapply agree_deref; [apply agree_with_new|]. apply deref_with_new. }
  assert (Hsr' : deref w2b (fresh (dom (objects w2a))) = Some salt') by apply deref_with_new.
  assert (Ekey : derived_key evpKDF cipher password salt' = derived_key evpKDF cipher password saltv).
  { unfold derived_key. by rewrite (Hkdf password salt' saltv). }
  assert (Eiv : derived_iv evpKDF cipher password salt' = derived_iv evpKDF cipher password saltv).
  { unfold derived_iv. by rewrite (Hkdf password salt' saltv). }
  destruct (pbe_decrypt_params_run base64 evpKDF cipher password fmt w2b _ _ ctv salt' pv
              None None None Hct' Hsr') as (p & w3 & Hrun & Hp & _).
  { rewrite Ekey, Eiv. exact Hdec. }
  by exists p, w3, pv.
Qed.

(** A key derivation for examples that reads the bytes of the salt: word
    [i] of the key material is [i] plus the length of the password plus the
    sum of the bytes. *)
Definition byte_kdf : EvpKDF := fun password salt n =>
  WordArray_create
    (Some ((fun i => i + Z.of_nat (String.length password) + foldr Z.add 0 (sig_bytes salt))
           <$> seqZ 0 n))
    None.

Lemma X22_pbe_text_roundtrip_witness :
  exists kr ir sr w1 ct w2 ctv saltv text,
    PBE.cfg_kdf byte_kdf (PBE.mkConfig None None) (xor_cipher 2) "pw" None example_world
    = (Ok (CipherParams.mk None (Some kr) (Some ir) (Some sr) None), w1) /\
    Cipher.encrypt (xor_cipher 2) (Cipher.Buffer 0%nat) kr (Cipher.mkConfig (Some ir) None None) w1
    = (Ok ct, w2) /\
    deref w2 ct = Some ctv /\ deref w2 sr = Some saltv /\
    CipherParams_toString C_enc_Latin1
      (CipherParams.mk (Some ctv) None None (Some saltv)
         (Some (PBE.cfg_format (PBE.mkConfig None None)))) None = Ok text /\
    exists p w3 v,
      PBE.decrypt C_enc_Latin1 byte_kdf (xor_cipher 2) (PBE.Formatted (string_of_codes text)) "pw"
        (PBE.mkConfig None None) w2
      = (Ok p, w3) /\
      deref w3 p = Some v /\ sigBytes v = 5 /\ sig_bytes v = [0x61; 0x62; 0x63; 0x64; 0x65].
Proof.
  apply (X22_pbe_text_roundtrip C_enc_Latin1 byte_kdf (xor_cipher 2) "pw" None example_world 0%nat
           (mkWordArray [0x61626364; 0x65000000] 5)).
  - simpl. lia.
  - intros ks. apply xor_cipher_inverse.
  - intros ks blk. simpl. apply Forall_fmap, Forall_forall. intros x _. apply xor_int32.
  - intros pw s s' n _ Hb. unfold byte_kdf. by rewrite Hb.
  - intros x _. split; [apply sig_bytes_all_bytes|reflexivity].
  - reflexivity.
  - simpl. lia.
  - simpl. lia.
Defined.
